(** * Upwind discontinuous-Galerkin advection, after [02-advection.ipynb]

    The notebook writes the advection update as UFL forms ([F], [edge_flux],
    [in_flux], [out_flux], [cell_flux], [dh_dt], [M]) and advances the state
    with [firedrake.solve] followed by [h.assign(h + dh)].  The embedding
    below gives those forms their assembled meaning: a measure ([dx], [dS],
    [ds]) is the list of its quadrature points, every point carries its
    weight, the velocity and normal there and the tabulated basis functions,
    and a form is the weighted sum of its integrand over the points.

    The arithmetic of the forms is exact ([Q]); a field is the array of its
    coefficients.  The two divisions that fix the number of steps and
    [dt] round, as float64 division does.

    The last part covers the element stiffness matrix that
    [00-sympy.ipynb] computes from three quadratic shape functions. *)

From Stdlib Require Import QArith Qminmax Qround List Lia Lqa ZArith Bool.
From Stdlib Require Import Setoid Morphisms.
From Stdlib Require Import Qabs.
From Stdlib Require Import SpecFloat.
Import ListNotations.
Local Open Scope Q_scope.

(** ** Scalars, vectors and sums *)

Definition vec2 : Type := (Q * Q)%type.

Definition inner (a b : vec2) : Q := fst a * fst b + snd a * snd b.

Definition vneg (a : vec2) : vec2 := (- fst a, - snd a).

Definition vzero : vec2 := (0, 0).

Definition veq (a b : vec2) : Prop := fst a == fst b /\ snd a == snd b.

Definition max_value (a b : Q) : Q := Qmax a b.

Definition min_value (a b : Q) : Q := Qmin a b.

Fixpoint sum_over {A : Type} (f : A -> Q) (l : list A) : Q :=
  match l with
  | [] => 0
  | a :: l' => f a + sum_over f l'
  end.

(** Degrees of freedom of a space of dimension [n]. *)
Definition dofs (n : nat) : list nat := seq 0 n.

(** A coefficient array and its entries; reading past the end gives 0. *)
Definition coef (c : list Q) (j : nat) : Q := nth j c 0.

(** Value at a point of the field with coefficients [c], given the basis
    functions tabulated at that point. *)
Definition eval (n : nat) (c phi : list Q) : Q :=
  sum_over (fun j => coef c j * coef phi j) (dofs n).

(** [h + dh] on coefficient arrays of a space of dimension [n]. *)
Definition vadd (n : nat) (c d : list Q) : list Q :=
  map (fun j => coef c j + coef d j) (dofs n).

(** Two coefficient arrays describe the same field. *)
Definition feq (n : nat) (c d : list Q) : Prop :=
  forall j, (j < n)%nat -> coef c j == coef d j.

(** ** Function spaces through their quadrature points *)

(** A quadrature point of the cell measure [dx]. *)
Record CellPoint : Type := {
  cp_weight : Q;
  cp_u : vec2;
  cp_phi : list Q;
  cp_grad_phi : list vec2
}.

(** A quadrature point of the interior-facet measure [dS], seen from the
    two cells sharing the facet. *)
Record InteriorFacetPoint : Type := {
  ip_weight : Q;
  ip_u_plus : vec2;
  ip_u_minus : vec2;
  ip_n_plus : vec2;
  ip_n_minus : vec2;
  ip_phi_plus : list Q;
  ip_phi_minus : list Q
}.

(** A quadrature point of the boundary measure [ds]. *)
Record ExteriorFacetPoint : Type := {
  ep_weight : Q;
  ep_u : vec2;
  ep_n : vec2;
  ep_phi : list Q
}.

Record FunctionSpace : Type := {
  dim : nat;
  dx : list CellPoint;
  dS : list InteriorFacetPoint;
  ds : list ExteriorFacetPoint
}.

Inductive degree : Type := P0 | P1.

(** ** The weak form *)

(** [F = h * max_value(inner(u, n), 0)] *)
Definition F (h : Q) (u n : vec2) : Q := h * max_value (inner u n) 0.

Section Forms.

Variable V : FunctionSpace.

(** [F('+')] and [F('-')] for the state [h]. *)
Definition F_plus (h : list Q) (p : InteriorFacetPoint) : Q :=
  F (eval (dim V) h (ip_phi_plus p)) (ip_u_plus p) (ip_n_plus p).

Definition F_minus (h : list Q) (p : InteriorFacetPoint) : Q :=
  F (eval (dim V) h (ip_phi_minus p)) (ip_u_minus p) (ip_n_minus p).

(** [(F('+') - F('-')) * (q('+') - q('-'))], [q] the [i]-th test function *)
Definition edge_flux_integrand (h : list Q) (i : nat)
    (p : InteriorFacetPoint) : Q :=
  (F_plus h p - F_minus h p) * (coef (ip_phi_plus p) i - coef (ip_phi_minus p) i).

(** [h0 * min_value(inner(u, n), 0) * q] *)
Definition in_flux_integrand (h_in : list Q) (i : nat)
    (p : ExteriorFacetPoint) : Q :=
  eval (dim V) h_in (ep_phi p) * min_value (inner (ep_u p) (ep_n p)) 0
  * coef (ep_phi p) i.

(** [h * max_value(inner(u, n), 0) * q] *)
Definition out_flux_integrand (h : list Q) (i : nat)
    (p : ExteriorFacetPoint) : Q :=
  eval (dim V) h (ep_phi p) * max_value (inner (ep_u p) (ep_n p)) 0
  * coef (ep_phi p) i.

(** [-h * inner(u, grad(q))] *)
Definition cell_flux_integrand (h : list Q) (i : nat) (p : CellPoint) : Q :=
  - eval (dim V) h (cp_phi p) * inner (cp_u p) (nth i (cp_grad_phi p) vzero).

Definition edge_flux (h : list Q) (i : nat) : Q :=
  sum_over (fun p => ip_weight p * edge_flux_integrand h i p) (dS V).

Definition in_flux (h_in : list Q) (i : nat) : Q :=
  sum_over (fun p => ep_weight p * in_flux_integrand h_in i p) (ds V).

Definition out_flux (h : list Q) (i : nat) : Q :=
  sum_over (fun p => ep_weight p * out_flux_integrand h i p) (ds V).

Definition cell_flux (h : list Q) (i : nat) : Q :=
  sum_over (fun p => cp_weight p * cell_flux_integrand h i p) (dx V).

(** [dh_dt = -(edge_flux + in_flux + out_flux)] in the degree-0 part of
    the notebook, [dh_dt = -(cell_flux + edge_flux + in_flux + out_flux)]
    in its degree-1 part. *)
Definition dh_dt (deg : degree) (h_in h : list Q) (i : nat) : Q :=
  match deg with
  | P0 => - (edge_flux h i + in_flux h_in i + out_flux h i)
  | P1 => - (cell_flux h i + edge_flux h i + in_flux h_in i + out_flux h i)
  end.

(** [M = p * q * dx], entry for the trial function [j] and the test
    function [i]. *)
Definition M (j i : nat) : Q :=
  sum_over (fun p => cp_weight p * (coef (cp_phi p) j * coef (cp_phi p) i)) (dx V).

(** [assemble(h * dx)] and the smoke test [assemble((h - h0) * dx)]. *)
Definition mass (h : list Q) : Q :=
  sum_over (fun p => cp_weight p * eval (dim V) h (cp_phi p)) (dx V).

Definition mass_defect (h h_init : list Q) : Q :=
  sum_over (fun p => cp_weight p *
              (eval (dim V) h (cp_phi p) - eval (dim V) h_init (cp_phi p))) (dx V).

(** The boundary terms tested against the constant function 1: what
    leaves the domain minus what enters it, per unit time. *)
Definition net_boundary_flux (h_in h : list Q) : Q :=
  sum_over (fun p => ep_weight p *
              (eval (dim V) h_in (ep_phi p) * min_value (inner (ep_u p) (ep_n p)) 0
               + eval (dim V) h (ep_phi p) * max_value (inner (ep_u p) (ep_n p)) 0))
           (ds V).

End Forms.

(** ** The linear system of one step *)

(** [x] solves the system with matrix [A] (trial index first, test index
    second, as in [M]) and right-hand side [b]. *)
Definition solves (n : nat) (A : nat -> nat -> Q) (b : nat -> Q) (x : list Q) : Prop :=
  length x = n /\
  forall i, (i < n)%nat -> sum_over (fun j => A j i * coef x j) (dofs n) == b i.

Definition linear_solver : Type :=
  nat -> (nat -> nat -> Q) -> (nat -> Q) -> option (list Q).

(** What the notebook relies on from [firedrake.solve]: a returned vector
    solves the system. *)
Definition solver_sound (solve : linear_solver) : Prop :=
  forall n A b x, solve n A b = Some x -> solves n A b x.

(** The solve does not fail on the mass matrix of [V]. *)
Definition solver_succeeds (solve : linear_solver) (V : FunctionSpace) : Prop :=
  forall b, solve (dim V) (M V) b <> None.

(** The mass matrix of [V] is nonsingular. *)
Definition mass_nonsingular (V : FunctionSpace) : Prop :=
  forall x, (forall i, (i < dim V)%nat ->
               sum_over (fun j => M V j i * coef x j) (dofs (dim V)) == 0) ->
            feq (dim V) x [].

(** ** The store of [Function] objects *)

Definition loc : Type := nat.

Definition store : Type := list (list Q).

Definition read (s : store) (l : loc) : list Q := nth l s [].

Fixpoint write (s : store) (l : loc) (v : list Q) : store :=
  match s, l with
  | [], _ => []
  | _ :: s', O => v :: s'
  | x :: s', S l' => x :: write s' l' v
  end.

Definition alloc (s : store) (v : list Q) : store * loc := (s ++ [v], length s).

(** [f.copy(deepcopy=...)]: a deep copy owns fresh data, a shallow copy
    shares the data of [f]. *)
Definition copy (s : store) (f : loc) (deepcopy : bool) : store * loc :=
  if deepcopy then alloc s (read s f) else (s, f).

(** The notebook's variables: the initial condition [h0] (or [h1]), the
    state [h], the increment [dh] and the constant [dt]. *)
Record Simulation : Type := {
  sim_store : store;
  sim_h0 : loc;
  sim_h : loc;
  sim_dh : loc;
  sim_dt : Q
}.

Definition state_of (st : Simulation) : list Q := read (sim_store st) (sim_h st).

Definition inflow_of (st : Simulation) : list Q := read (sim_store st) (sim_h0 st).

Definition increment_of (st : Simulation) : list Q := read (sim_store st) (sim_dh st).

Section TimeStepping.

Variable solve : linear_solver.
Variable V : FunctionSpace.
Variable deg : degree.

(** [h = h0.copy(deepcopy=True)] ... [dh = firedrake.Function(Q)] *)
Definition setup (init : list Q) (dt : Q) : Simulation :=
  let '(s, h0) := alloc [] init in
  let '(s, h) := copy s h0 true in
  let '(s, dh) := alloc s (repeat 0 (dim V)) in
  {| sim_store := s; sim_h0 := h0; sim_h := h; sim_dh := dh; sim_dt := dt |}.

(** The right-hand side [dt * dh_dt] assembled in the current store. *)
Definition rhs (st : Simulation) (i : nat) : Q :=
  sim_dt st * dh_dt V deg (inflow_of st) (state_of st) i.

(** [firedrake.solve(M == dt * dh_dt, dh)] then [h.assign(h + dh)] *)
Definition step (st : Simulation) : option Simulation :=
  match solve (dim V) (M V) (rhs st) with
  | None => None
  | Some x =>
      let s1 := write (sim_store st) (sim_dh st) x in
      let s2 := write s1 (sim_h st)
                  (vadd (dim V) (read s1 (sim_h st)) (read s1 (sim_dh st))) in
      Some {| sim_store := s2; sim_h0 := sim_h0 st; sim_h := sim_h st;
              sim_dh := sim_dh st; sim_dt := sim_dt st |}
  end.

(** [for step in tqdm.trange(num_steps): ...] *)
Fixpoint time_loop (n : nat) (st : Simulation) : option Simulation :=
  match n with
  | O => Some st
  | S k => match step st with
           | None => None
           | Some st' => time_loop k st'
           end
  end.

End TimeStepping.

(** The three variables name three different objects of the store. *)
Definition sim_wf (st : Simulation) : Prop :=
  (sim_h0 st < length (sim_store st))%nat /\
  (sim_h st < length (sim_store st))%nat /\
  (sim_dh st < length (sim_store st))%nat /\
  sim_h0 st <> sim_h st /\ sim_h0 st <> sim_dh st /\ sim_h st <> sim_dh st.

(** ** Choice of the timestep *)

Definition u_max : Q := 1.

(** [mesh.cell_sizes.dat.data_ro.min()]; the minimum of an empty array is
    an error. *)
Definition dx_min (cell_sizes : list Q) : option Q :=
  match cell_sizes with
  | [] => None
  | x :: l => Some (fold_left Qmin l x)
  end.

(** [timestep = dx_min / u_max / 2], and [/ 16] in the degree-1 part. *)
Definition timestep (deg : degree) (dxm : Q) : Q :=
  match deg with
  | P0 => dxm / u_max / 2
  | P1 => dxm / u_max / 16
  end.

(** The safety factor of the CFL bound, as the text of the notebook gives
    it: 2 for degree 0, "a fudge factor of 16 rather than 2" for degree 1. *)
Definition safety_factor (deg : degree) : Q :=
  match deg with
  | P0 => 2
  | P1 => 16
  end.

(** Python's [int]: truncation toward zero. *)
Definition py_int (x : Q) : Z := Z.quot (Qnum x) (Zpos (Qden x)).

(** *** Division of floats

    [final_time], [timestep] and [dt] are float64, and [/] on them rounds.
    A division is a function that gives the finite float the machine
    produces, or nothing where it produces none: the quotient by zero is
    an error, [inf] or [nan], and a quotient beyond the largest float is
    [inf]; [int] refuses [inf] and [nan].  The divisions by [u_max = 1.]
    and by 2 or 16 in [timestep] are exact in float64 and are written as
    such. *)
Definition float_division : Type := Q -> Q -> option Q.

(** [num_steps = int(final_time / timestep) + 1] *)
Definition num_steps (fdiv : float_division) (final_time ts : Q) : option Z :=
  match fdiv final_time ts with
  | None => None
  | Some q => Some (py_int q + 1)%Z
  end.

(** [dt = firedrake.Constant(final_time / num_steps)]: a float divided by
    an [int], which is converted to a float first (exactly, below 2^53);
    division by the integer 0 is an error. *)
Definition dt_of (fdiv : float_division) (final_time : Q) (n : Z) : option Q :=
  if (n =? 0)%Z then None else fdiv final_time (inject_Z n).

(** One part of the notebook from the choice of the timestep to the end of
    the loop. *)
Definition advect (fdiv : float_division) (solve : linear_solver)
    (V : FunctionSpace) (deg : degree)
    (cell_sizes init : list Q) (final_time : Q) : option Simulation :=
  match dx_min cell_sizes with
  | None => None
  | Some dxm =>
      match num_steps fdiv final_time (timestep deg dxm) with
      | None => None
      | Some n =>
          match dt_of fdiv final_time n with
          | None => None
          | Some dt => time_loop solve V deg (Z.to_nat n) (setup V init dt)
          end
      end
  end.

(** What the theorems ask of a division, at the operands they name.
    Rounding to nearest is monotone and keeps every float, and the whole
    numbers below 2^53 are floats: float64 division has the first two
    properties below wherever the quotient is below 2^53 and [bound] is a
    float, and the third, with [eps] = 2^-53, wherever the quotient is in
    the normal range. *)

(** The quotient is finite and rounding does not cross a whole number. *)
Definition rounds_between_integers (fdiv : float_division) (a b : Q) : Prop :=
  exists q, fdiv a b = Some q /\
            inject_Z (Qfloor (a / b)) <= q <= inject_Z (Qceiling (a / b)).

(** The quotient is finite and rounding does not cross [bound]. *)
Definition rounds_below (fdiv : float_division) (a b bound : Q) : Prop :=
  exists q, fdiv a b = Some q /\ (a / b <= bound -> q <= bound).

(** The quotient is finite, with relative error at most [eps]. *)
Definition rounds_within (fdiv : float_division) (eps a b : Q) : Prop :=
  exists q, fdiv a b = Some q /\ Qabs (q - a / b) <= eps * Qabs (a / b).

(** A quotient by zero is never a finite float. *)
Definition division_by_zero_fails (fdiv : float_division) : Prop :=
  forall a b, b == 0 -> fdiv a b = None.

(** The two divisions of the driver round as above. *)
Definition driver_rounds (fdiv : float_division) (final_time ts : Q) : Prop :=
  rounds_between_integers fdiv final_time ts /\
  forall n, num_steps fdiv final_time ts = Some n ->
            rounds_below fdiv final_time (inject_Z n) ts.

(** Division without rounding. *)
Definition exact_div : float_division :=
  fun a b => if Qeq_bool b 0 then None else Some (a / b).

(** Division of float64, after the IEEE 754 specification of the library
    ([SFdiv] with 53 bits of precision and exponents up to 1024). *)
Definition prec : Z := 53.

Definition emax : Z := 1024.

Definition Z2SF (z : Z) : spec_float :=
  match z with
  | Z0 => S754_zero false
  | Zpos p => S754_finite false p 0
  | Zneg p => S754_finite true p 0
  end.

(** The float nearest to a rational; a rational that is a float is read
    exactly. *)
Definition Q2SF (x : Q) : spec_float :=
  SFdiv prec emax (Z2SF (Qnum x)) (Z2SF (Zpos (Qden x))).

Definition SF2Q (f : spec_float) : option Q :=
  match f with
  | S754_zero _ => Some 0
  | S754_finite s m e =>
      let v := match e with
               | Z0 => Zpos m # 1
               | Zpos k => Zpos (m * 2 ^ k) # 1
               | Zneg k => Zpos m # (2 ^ k)
               end in
      Some (if s then - v else v)
  | _ => None
  end.

Definition binary64_div : float_division :=
  fun a b => SF2Q (SFdiv prec emax (Q2SF a) (Q2SF b)).

(** The floats nearest to 1/10 and to 1/5, the literals [0.1] and [0.2]. *)
Definition tenth : Q := 3602879701896397 # 36028797018963968.

Definition fifth : Q := 3602879701896397 # 18014398509481984.

(** ** Piecewise-constant spaces

    [FunctionSpace(mesh, family='DG', degree=0)]: one basis function per
    cell, equal to 1 in the cell and 0 elsewhere, with zero gradient.  The
    mesh gives, per quadrature point, the cell (or the two cells) it
    belongs to; the velocity is continuous across facets and the normal of
    the "-" side is opposite to the normal of the "+" side. *)

Record MeshCellPoint : Type := {
  mc_cell : nat;
  mc_weight : Q;
  mc_u : vec2
}.

Record MeshInteriorPoint : Type := {
  mi_plus : nat;
  mi_minus : nat;
  mi_weight : Q;
  mi_u : vec2;
  mi_n : vec2
}.

Record MeshExteriorPoint : Type := {
  me_cell : nat;
  me_weight : Q;
  me_u : vec2;
  me_n : vec2
}.

Record Mesh : Type := {
  num_cells : nat;
  mesh_dx : list MeshCellPoint;
  mesh_dS : list MeshInteriorPoint;
  mesh_ds : list MeshExteriorPoint
}.

Definition indicator (n k : nat) : list Q :=
  map (fun i => if Nat.eqb i k then 1 else 0) (dofs n).

Definition DG0_cell (n : nat) (p : MeshCellPoint) : CellPoint :=
  {| cp_weight := mc_weight p; cp_u := mc_u p;
     cp_phi := indicator n (mc_cell p); cp_grad_phi := repeat vzero n |}.

Definition DG0_interior (n : nat) (p : MeshInteriorPoint) : InteriorFacetPoint :=
  {| ip_weight := mi_weight p;
     ip_u_plus := mi_u p; ip_u_minus := mi_u p;
     ip_n_plus := mi_n p; ip_n_minus := vneg (mi_n p);
     ip_phi_plus := indicator n (mi_plus p);
     ip_phi_minus := indicator n (mi_minus p) |}.

Definition DG0_exterior (n : nat) (p : MeshExteriorPoint) : ExteriorFacetPoint :=
  {| ep_weight := me_weight p; ep_u := me_u p; ep_n := me_n p;
     ep_phi := indicator n (me_cell p) |}.

Definition DG0 (m : Mesh) : FunctionSpace :=
  {| dim := num_cells m;
     dx := map (DG0_cell (num_cells m)) (mesh_dx m);
     dS := map (DG0_interior (num_cells m)) (mesh_dS m);
     ds := map (DG0_exterior (num_cells m)) (mesh_ds m) |}.

(** Area of cell [k]: the weights of its quadrature points. *)
Definition cell_volume (m : Mesh) (k : nat) : Q :=
  sum_over (fun p => if Nat.eqb (mc_cell p) k then mc_weight p else 0) (mesh_dx m).

(** Every point lies in a cell of the mesh. *)
Definition mesh_wf (m : Mesh) : Prop :=
  Forall (fun p => (mc_cell p < num_cells m)%nat) (mesh_dx m) /\
  Forall (fun p => (mi_plus p < num_cells m)%nat /\ (mi_minus p < num_cells m)%nat)
         (mesh_dS m) /\
  Forall (fun p => (me_cell p < num_cells m)%nat) (mesh_ds m).

(** No cell is degenerate. *)
Definition nondegenerate (m : Mesh) : Prop :=
  forall k, (k < num_cells m)%nat -> ~ cell_volume m k == 0.

(** A direct solver for diagonal systems, which is what the mass matrix of
    a piecewise-constant space is; it refuses any other matrix. *)
Definition is_diagonal (n : nat) (A : nat -> nat -> Q) : bool :=
  forallb (fun i => forallb (fun j => Nat.eqb j i || Qeq_bool (A j i) 0) (dofs n))
          (dofs n).

Definition diag_solve : linear_solver :=
  fun n A b =>
    if is_diagonal n A && forallb (fun i => negb (Qeq_bool (A i i) 0)) (dofs n)
    then Some (map (fun i => b i / A i i) (dofs n))
    else None.

(** ** Properties of a space and of a velocity field *)

(** The basis functions sum to 1 at every point, and their gradients to 0:
    the constant function 1 belongs to the space. *)
Definition partition_of_unity (V : FunctionSpace) : Prop :=
  (forall p, In p (dx V) ->
     sum_over (coef (cp_phi p)) (dofs (dim V)) == 1 /\
     sum_over (fun i => fst (nth i (cp_grad_phi p) vzero)) (dofs (dim V)) == 0 /\
     sum_over (fun i => snd (nth i (cp_grad_phi p) vzero)) (dofs (dim V)) == 0) /\
  (forall p, In p (dS V) ->
     sum_over (coef (ip_phi_plus p)) (dofs (dim V)) == 1 /\
     sum_over (coef (ip_phi_minus p)) (dofs (dim V)) == 1) /\
  (forall p, In p (ds V) -> sum_over (coef (ep_phi p)) (dofs (dim V)) == 1).

(** The velocity has no normal component on the boundary. *)
Definition zero_normal_velocity (V : FunctionSpace) : Prop :=
  forall p, In p (ds V) -> inner (ep_u p) (ep_n p) == 0.

(** The velocity field is identically zero. *)
Definition zero_velocity (V : FunctionSpace) : Prop :=
  (forall p, In p (dx V) -> veq (cp_u p) vzero) /\
  (forall p, In p (dS V) -> veq (ip_u_plus p) vzero /\ veq (ip_u_minus p) vzero) /\
  (forall p, In p (ds V) -> veq (ep_u p) vzero).

(** The two sides of an interior facet see the same velocity and opposite
    normals. *)
Definition facet_consistent (p : InteriorFacetPoint) : Prop :=
  veq (ip_u_plus p) (ip_u_minus p) /\ veq (ip_n_minus p) (vneg (ip_n_plus p)).

(** The upwind value at a facet seen from one side: the value on this side
    when the flow leaves through the facet ([0 <= u.n]), the value on the
    other side (or the prescribed inflow value) when it enters. *)
Definition upwind_value (h_here h_there un : Q) : Q :=
  if Qle_bool 0 un then h_here else h_there.

(** Exchange of the labels "+" and "-" at a point of an interior facet. *)
Definition swap_sides (p : InteriorFacetPoint) : InteriorFacetPoint :=
  {| ip_weight := ip_weight p;
     ip_u_plus := ip_u_minus p; ip_u_minus := ip_u_plus p;
     ip_n_plus := ip_n_minus p; ip_n_minus := ip_n_plus p;
     ip_phi_plus := ip_phi_minus p; ip_phi_minus := ip_phi_plus p |}.

(** The same space with the labels exchanged on the facets chosen by
    [flip]. *)
Definition relabel (flip : InteriorFacetPoint -> bool) (V : FunctionSpace)
    : FunctionSpace :=
  {| dim := dim V; dx := dx V;
     dS := map (fun p => if flip p then swap_sides p else p) (dS V);
     ds := ds V |}.

(** ** Two small meshes *)

(** A channel of two cells, [0,2]x[0,1] and [2,5]x[0,1], crossed from left
    to right by the velocity (1,0): inflow through the left end, outflow
    through the right end, walls above and below. *)
Definition channel : Mesh :=
  {| num_cells := 2;
     mesh_dx := [ {| mc_cell := 0; mc_weight := 2; mc_u := (1, 0) |};
                  {| mc_cell := 1; mc_weight := 3; mc_u := (1, 0) |} ];
     mesh_dS := [ {| mi_plus := 0; mi_minus := 1; mi_weight := 1;
                     mi_u := (1, 0); mi_n := (1, 0) |} ];
     mesh_ds := [ {| me_cell := 0; me_weight := 1; me_u := (1, 0); me_n := (-1, 0) |};
                  {| me_cell := 1; me_weight := 1; me_u := (1, 0); me_n := (1, 0) |};
                  {| me_cell := 0; me_weight := 2; me_u := (1, 0); me_n := (0, 1) |};
                  {| me_cell := 0; me_weight := 2; me_u := (1, 0); me_n := (0, -1) |};
                  {| me_cell := 1; me_weight := 3; me_u := (1, 0); me_n := (0, 1) |};
                  {| me_cell := 1; me_weight := 3; me_u := (1, 0); me_n := (0, -1) |} ] |}.

(** The facet between the two cells of the channel and the facet of its
    inlet, as the piecewise-constant space sees them. *)
Definition channel_facet : InteriorFacetPoint :=
  DG0_interior 2 {| mi_plus := 0; mi_minus := 1; mi_weight := 1;
                    mi_u := (1, 0); mi_n := (1, 0) |}.

Definition channel_inlet : ExteriorFacetPoint :=
  DG0_exterior 2 {| me_cell := 0; me_weight := 1; me_u := (1, 0); me_n := (-1, 0) |}.

(** A closed ring of two cells: the flow leaves cell 0 into cell 1 through
    one facet and comes back through the other, and is tangent to the
    outer boundary. *)
Definition ring : Mesh :=
  {| num_cells := 2;
     mesh_dx := [ {| mc_cell := 0; mc_weight := 2; mc_u := (1, 0) |};
                  {| mc_cell := 1; mc_weight := 3; mc_u := (-1, 0) |} ];
     mesh_dS := [ {| mi_plus := 0; mi_minus := 1; mi_weight := 1;
                     mi_u := (0, 1); mi_n := (0, 1) |};
                  {| mi_plus := 1; mi_minus := 0; mi_weight := 1;
                     mi_u := (0, -1); mi_n := (0, -1) |} ];
     mesh_ds := [ {| me_cell := 0; me_weight := 4; me_u := (1, 0); me_n := (0, 1) |};
                  {| me_cell := 1; me_weight := 6; me_u := (-1, 0); me_n := (0, -1) |} ] |}.

(** The ring with the fluid at rest. *)
Definition still_ring : Mesh :=
  {| num_cells := 2;
     mesh_dx := [ {| mc_cell := 0; mc_weight := 2; mc_u := (0, 0) |};
                  {| mc_cell := 1; mc_weight := 3; mc_u := (0, 0) |} ];
     mesh_dS := [ {| mi_plus := 0; mi_minus := 1; mi_weight := 1;
                     mi_u := (0, 0); mi_n := (0, 1) |};
                  {| mi_plus := 1; mi_minus := 0; mi_weight := 1;
                     mi_u := (0, 0); mi_n := (0, -1) |} ];
     mesh_ds := [ {| me_cell := 0; me_weight := 4; me_u := (0, 0); me_n := (0, 1) |};
                  {| me_cell := 1; me_weight := 6; me_u := (0, 0); me_n := (0, -1) |} ] |}.

(** ** A space of degree 1

    The triangle with vertices A = (0,0), B = (4,0), C = (0,3) (area 6)
    with its three affine basis functions, 1 - x/4 - y/3, x/4 and y/3.
    The velocity is the constant field (1, 0), which the continuous
    degree-1 velocity space holds; the fluid enters through the edge CA
    (normal (-1, 0)), leaves through BC (normal (3/5, 4/5)) and slides
    along AB (normal (0, -1)).  Cells are integrated with the three
    interior points of barycentric coordinates (2/3, 1/6, 1/6), weight 2
    each, edges with Simpson's rule: with a constant velocity every
    integrand of the forms is a polynomial of degree at most 2, which both
    rules integrate exactly. *)

Definition triangle_grad : list vec2 := [ (-1 # 4, -1 # 3); (1 # 4, 0); (0, 1 # 3) ].

Definition P1_triangle : FunctionSpace :=
  {| dim := 3;
     dx := [ {| cp_weight := 2; cp_u := (1, 0);
                cp_phi := [2 # 3; 1 # 6; 1 # 6]; cp_grad_phi := triangle_grad |};
             {| cp_weight := 2; cp_u := (1, 0);
                cp_phi := [1 # 6; 2 # 3; 1 # 6]; cp_grad_phi := triangle_grad |};
             {| cp_weight := 2; cp_u := (1, 0);
                cp_phi := [1 # 6; 1 # 6; 2 # 3]; cp_grad_phi := triangle_grad |} ];
     dS := [];
     ds := [ {| ep_weight := 4 # 6; ep_u := (1, 0); ep_n := (0, -1);
                ep_phi := [1; 0; 0] |};
             {| ep_weight := 16 # 6; ep_u := (1, 0); ep_n := (0, -1);
                ep_phi := [1 # 2; 1 # 2; 0] |};
             {| ep_weight := 4 # 6; ep_u := (1, 0); ep_n := (0, -1);
                ep_phi := [0; 1; 0] |};
             {| ep_weight := 5 # 6; ep_u := (1, 0); ep_n := (3 # 5, 4 # 5);
                ep_phi := [0; 1; 0] |};
             {| ep_weight := 20 # 6; ep_u := (1, 0); ep_n := (3 # 5, 4 # 5);
                ep_phi := [0; 1 # 2; 1 # 2] |};
             {| ep_weight := 5 # 6; ep_u := (1, 0); ep_n := (3 # 5, 4 # 5);
                ep_phi := [0; 0; 1] |};
             {| ep_weight := 3 # 6; ep_u := (1, 0); ep_n := (-1, 0);
                ep_phi := [0; 0; 1] |};
             {| ep_weight := 12 # 6; ep_u := (1, 0); ep_n := (-1, 0);
                ep_phi := [1 # 2; 0; 1 # 2] |};
             {| ep_weight := 3 # 6; ep_u := (1, 0); ep_n := (-1, 0);
                ep_phi := [1; 0; 0] |} ] |}.

(** A direct solver that is handed a candidate inverse [B] of the matrix:
    it checks that [B] is an inverse and applies it, and refuses any matrix
    of which [B] is not an inverse. *)
Definition entry (B : list (list Q)) (j k : nat) : Q := coef (nth j B []) k.

Definition is_inverse (n : nat) (A : nat -> nat -> Q) (B : list (list Q)) : bool :=
  forallb (fun i =>
    forallb (fun k =>
      Qeq_bool (sum_over (fun j => A j i * entry B j k) (dofs n))
               (if Nat.eqb k i then 1 else 0)) (dofs n)) (dofs n).

Definition inverse_solve (B : list (list Q)) : linear_solver :=
  fun n A b =>
    if is_inverse n A B
    then Some (map (fun j => sum_over (fun k => entry B j k * b k) (dofs n)) (dofs n))
    else None.

(** The inverse of the mass matrix of [P1_triangle]. *)
Definition triangle_inverse : list (list Q) :=
  [ [3 # 2; -1 # 2; -1 # 2]; [-1 # 2; 3 # 2; -1 # 2]; [-1 # 2; -1 # 2; 3 # 2] ].

(** ** The data of the notebook *)

(** [as_vector((-x[1], x[0]))]: solid-body rotation about the origin. *)
Definition rotation (x : vec2) : vec2 := (- snd x, fst x).

(** [x0 = Constant((1/2, 0.))] and [R = Constant(1/4)]. *)
Definition x0 : vec2 := (1 # 2, 0).

Definition R : Q := 1 # 4.

Definition vsub (a b : vec2) : vec2 := (fst a - fst b, snd a - snd b).

(** [sqrt] as the machine evaluates it: a rounded square root. *)
Definition square_root : Type := Q -> Q.

(** What is asked of the square root, all of which a correctly rounded one
    gives: on the non-negative numbers it is non-negative and monotone,
    and it is exact at 0 and at [R * R] = 1/16, whose roots are floats. *)
Definition sqrt_rounds (sqrt : square_root) : Prop :=
  (forall a, 0 <= a -> 0 <= sqrt a) /\
  (forall a b, 0 <= a -> a <= b -> sqrt a <= sqrt b) /\
  sqrt 0 == 0 /\
  sqrt (R * R) == R.

(** [r = sqrt(inner(x - x0, x - x0))] *)
Definition r (sqrt : square_root) (x : vec2) : Q :=
  sqrt (inner (vsub x x0) (vsub x x0)).

(** [max_value(1 - r / R, 0)], the expression that is projected. *)
Definition bump (r : Q) : Q := max_value (1 - r / R) 0.

(** A square root rounded down to 20 binary digits. *)
Definition sqrt_fixed : square_root :=
  fun a => inject_Z (Z.sqrt (Qfloor (a * inject_Z (2 ^ 40)))) / inject_Z (2 ^ 20).

(** [firedrake.project(expr, Q)]: the field of the space whose integrals
    against every test function are those of the expression; [f] gives the
    value of the expression at each quadrature point. *)
Definition project (solve : linear_solver) (V : FunctionSpace)
    (f : CellPoint -> Q) : option (list Q) :=
  solve (dim V) (M V)
        (fun i => sum_over (fun p => cp_weight p * (f p * coef (cp_phi p) i)) (dx V)).

(** The integral of an expression, [assemble(expr * dx)]. *)
Definition integral (V : FunctionSpace) (f : CellPoint -> Q) : Q :=
  sum_over (fun p => cp_weight p * f p) (dx V).

(** [assemble(abs(h - h1) * dx)], the numerator of the relative error in
    the 1-norm. *)
Definition l1_distance (V : FunctionSpace) (h h1 : list Q) : Q :=
  sum_over (fun p => cp_weight p *
              Qabs (eval (dim V) h (cp_phi p) - eval (dim V) h1 (cp_phi p))) (dx V).

(** All quadrature weights of a space are non-negative. *)
Definition nonneg_weights (V : FunctionSpace) : Prop :=
  (forall p, In p (dx V) -> 0 <= cp_weight p) /\
  (forall p, In p (dS V) -> 0 <= ip_weight p) /\
  (forall p, In p (ds V) -> 0 <= ep_weight p).

(** The boundary fluxes met by a run of [n] steps, added up. *)
Fixpoint accumulated_boundary_flux (solve : linear_solver) (V : FunctionSpace)
    (deg : degree) (n : nat) (st : Simulation) : Q :=
  match n with
  | O => 0
  | S k =>
      net_boundary_flux V (inflow_of st) (state_of st)
      + match step solve V deg st with
        | Some st' => accumulated_boundary_flux solve V deg k st'
        | None => 0
        end
  end.

(** ** The finite-volume reading of the degree-0 scheme

    "If we pick some cell K of the mesh and take q = 1 in K and q = 0
    elsewhere, this discretization is the same as the finite volume
    method": one upwind flux per facet, leaving the cell on its "+" side
    and entering the cell on its "-" side. *)

Definition facet_flux (h : list Q) (p : MeshInteriorPoint) : Q :=
  upwind_value (coef h (mi_plus p)) (coef h (mi_minus p)) (inner (mi_u p) (mi_n p))
  * inner (mi_u p) (mi_n p).

Definition boundary_facet_flux (h_in h : list Q) (p : MeshExteriorPoint) : Q :=
  upwind_value (coef h (me_cell p)) (coef h_in (me_cell p)) (inner (me_u p) (me_n p))
  * inner (me_u p) (me_n p).

(** What leaves cell [i] per unit time. *)
Definition fv_outflow (m : Mesh) (h_in h : list Q) (i : nat) : Q :=
  sum_over (fun p => mi_weight p *
              ((if Nat.eqb (mi_plus p) i then facet_flux h p else 0)
               - (if Nat.eqb (mi_minus p) i then facet_flux h p else 0))) (mesh_dS m)
  + sum_over (fun p => me_weight p *
                (if Nat.eqb (me_cell p) i then boundary_facet_flux h_in h p else 0))
             (mesh_ds m).

(** The volume of fluid that leaves cell [i] per unit time. *)
Definition outflow_rate (m : Mesh) (i : nat) : Q :=
  sum_over (fun p => mi_weight p *
              ((if Nat.eqb (mi_plus p) i
                then max_value (inner (mi_u p) (mi_n p)) 0 else 0)
               + (if Nat.eqb (mi_minus p) i
                  then max_value (- inner (mi_u p) (mi_n p)) 0 else 0))) (mesh_dS m)
  + sum_over (fun p => me_weight p *
                (if Nat.eqb (me_cell p) i
                 then max_value (inner (me_u p) (me_n p)) 0 else 0)) (mesh_ds m).

(** The net volume of fluid that leaves cell [i] per unit time: the
    discrete divergence of the velocity, integrated over the cell. *)
Definition net_outflow_rate (m : Mesh) (i : nat) : Q :=
  sum_over (fun p => mi_weight p *
              ((if Nat.eqb (mi_plus p) i then inner (mi_u p) (mi_n p) else 0)
               - (if Nat.eqb (mi_minus p) i then inner (mi_u p) (mi_n p) else 0)))
           (mesh_dS m)
  + sum_over (fun p => me_weight p *
                (if Nat.eqb (me_cell p) i then inner (me_u p) (me_n p) else 0))
             (mesh_ds m).

(** The Courant-Friedrichs-Lewy condition cell by cell: in one step no cell
    loses more fluid than it holds. *)
Definition cfl (m : Mesh) (dt : Q) : Prop :=
  forall i, (i < num_cells m)%nat -> dt * outflow_rate m i <= cell_volume m i.

Definition mesh_nonneg_weights (m : Mesh) : Prop :=
  Forall (fun p => 0 <= mc_weight p) (mesh_dx m) /\
  Forall (fun p => 0 <= mi_weight p) (mesh_dS m) /\
  Forall (fun p => 0 <= me_weight p) (mesh_ds m).

(** The velocity is discretely divergence-free: no cell gains or loses
    volume. *)
Definition divergence_free (m : Mesh) : Prop :=
  forall i, (i < num_cells m)%nat -> net_outflow_rate m i == 0.

(** Fields bounded below, or above, by [c] in each of the [n] cells. *)
Definition bounded_below (n : nat) (c : Q) (h : list Q) : Prop :=
  forall j, (j < n)%nat -> c <= coef h j.

Definition bounded_above (n : nat) (c : Q) (h : list Q) : Prop :=
  forall j, (j < n)%nat -> coef h j <= c.

(** [c * h] on coefficient arrays of a space of dimension [n]. *)
Definition vscale (n : nat) (c : Q) (h : list Q) : list Q :=
  map (fun j => c * coef h j) (dofs n).

(** ** The element stiffness matrix of [00-sympy.ipynb]

    The notebook builds three quadratic shape functions as expressions in
    the symbol [x], and fills a 3 x 3 array with the integrals over [0, 1]
    of the products of their derivatives.  An expression in [x] is
    represented by the polynomial it denotes, as the list of its
    coefficients from the constant term up. *)

Definition poly : Type := list Q.

(** [x = sympy.symbols('x')] and the numbers. *)
Definition X : poly := [0; 1].

Definition const (c : Q) : poly := [c].

Fixpoint padd (p q : poly) : poly :=
  match p, q with
  | [], _ => q
  | _, [] => p
  | a :: p', b :: q' => (a + b) :: padd p' q'
  end.

Definition pscale (c : Q) (p : poly) : poly := map (Qmult c) p.

Definition psub (p q : poly) : poly := padd p (pscale (-1) q).

Fixpoint pmul (p q : poly) : poly :=
  match p with
  | [] => []
  | a :: p' => padd (pscale a q) (0 :: pmul p' q)
  end.

(** [f.subs(x, v)] *)
Fixpoint subs (p : poly) (v : Q) : Q :=
  match p with
  | [] => 0
  | a :: p' => a + v * subs p' v
  end.

(** [sympy.diff]: the derivative of [a_k x^k + a_(k+1) x^(k+1) + ...],
    given from the coefficient of [x^k] on, is [k a_k x^(k-1) + ...]. *)
Fixpoint diff_from (k : nat) (p : poly) : poly :=
  match p with
  | [] => []
  | a :: p' => (inject_Z (Z.of_nat k) * a) :: diff_from (S k) p'
  end.

Definition diff (p : poly) : poly :=
  match p with
  | [] => []
  | _ :: p' => diff_from 1 p'
  end.

(** [sympy.integrate(p, (x, 0., 1.))]: each [a_k x^k] contributes
    [a_k / (k + 1)]. *)
Fixpoint integrate_from (k : nat) (p : poly) : Q :=
  match p with
  | [] => 0
  | a :: p' => a / inject_Z (Z.of_nat (S k)) + integrate_from (S k) p'
  end.

Definition integrate (p : poly) : Q := integrate_from 0 p.

(** [shape_functions = [(1 - x) * (1 - 2 * x), 4 * x * (1 - x),
    x * (2 * x - 1)]] *)
Definition shape_functions : list poly :=
  [ pmul (psub (const 1) X) (psub (const 1) (pmul (const 2) X));
    pmul (pmul (const 4) X) (psub (const 1) X);
    pmul X (psub (pmul (const 2) X) (const 1)) ].

(** [integrand = sympy.diff(phi_i) * sympy.diff(phi_j)] and
    [sympy.integrate(integrand, (x, 0., 1.))] *)
Definition stiffness_entry (phi_i phi_j : poly) : Q :=
  integrate (pmul (diff phi_i) (diff phi_j)).

(** [A = np.zeros((3, 3))] filled by the two nested loops over the shape
    functions; with more than three shape functions the loops write
    outside the array, which is an error. *)
Definition stiffness (shapes : list poly) : option (list (list Q)) :=
  if (3 <? length shapes)%nat then None
  else Some (map (fun i =>
               map (fun j =>
                 match nth_error shapes i, nth_error shapes j with
                 | Some phi_i, Some phi_j => stiffness_entry phi_i phi_j
                 | _, _ => 0
                 end) (seq 0 3)) (seq 0 3)).

(** Two expressions denote the same polynomial. *)
Definition peq (p q : poly) : Prop := forall k, coef p k == coef q k.

(** The sum of a list of polynomials. *)
Definition psum (ps : list poly) : poly := fold_right padd [] ps.

(** * Proofs *)

(** ** Sums *)

Lemma sum_over_ext {A : Type} (f g : A -> Q) (l : list A) :
  (forall a, In a l -> f a == g a) -> sum_over f l == sum_over g l.
Proof.
  induction l as [|a l IH]; intros Hfg; simpl.
  - reflexivity.
  - rewrite (Hfg a) by (left; reflexivity).
    rewrite IH by (intros b Hb; apply Hfg; right; exact Hb).
    reflexivity.
Qed.

Lemma sum_over_zero {A : Type} (f : A -> Q) (l : list A) :
  (forall a, In a l -> f a == 0) -> sum_over f l == 0.
Proof.
  induction l as [|a l IH]; intros Hf; simpl.
  - reflexivity.
  - rewrite (Hf a) by (left; reflexivity).
    rewrite IH by (intros b Hb; apply Hf; right; exact Hb).
    ring.
Qed.

Lemma sum_over_plus {A : Type} (f g : A -> Q) (l : list A) :
  sum_over (fun a => f a + g a) l == sum_over f l + sum_over g l.
Proof.
  induction l as [|a l IH]; simpl; [ring | rewrite IH; ring].
Qed.

Lemma sum_over_minus {A : Type} (f g : A -> Q) (l : list A) :
  sum_over (fun a => f a - g a) l == sum_over f l - sum_over g l.
Proof.
  induction l as [|a l IH]; simpl; [ring | rewrite IH; ring].
Qed.

Lemma sum_over_scal_l {A : Type} (c : Q) (f : A -> Q) (l : list A) :
  sum_over (fun a => c * f a) l == c * sum_over f l.
Proof.
  induction l as [|a l IH]; simpl; [ring | rewrite IH; ring].
Qed.

Lemma sum_over_scal_r {A : Type} (c : Q) (f : A -> Q) (l : list A) :
  sum_over (fun a => f a * c) l == sum_over f l * c.
Proof.
  induction l as [|a l IH]; simpl; [ring | rewrite IH; ring].
Qed.

Lemma sum_over_opp {A : Type} (f : A -> Q) (l : list A) :
  sum_over (fun a => - f a) l == - sum_over f l.
Proof.
  induction l as [|a l IH]; simpl; [ring | rewrite IH; ring].
Qed.

Lemma sum_over_map {A B : Type} (g : A -> B) (f : B -> Q) (l : list A) :
  sum_over f (map g l) = sum_over (fun a => f (g a)) l.
Proof.
  induction l as [|a l IH]; simpl; [reflexivity | rewrite IH; reflexivity].
Qed.

Lemma sum_over_exchange {A B : Type} (f : A -> B -> Q) (la : list A) (lb : list B) :
  sum_over (fun a => sum_over (fun b => f a b) lb) la
  == sum_over (fun b => sum_over (fun a => f a b) la) lb.
Proof.
  induction la as [|a la IH]; simpl.
  - symmetry. apply sum_over_zero. intros; reflexivity.
  - rewrite IH. symmetry. apply sum_over_plus.
Qed.

(** A sum that picks one index. *)
Lemma sum_over_pick (g : nat -> Q) (k a n : nat) :
  sum_over (fun i => if Nat.eqb i k then g i else 0) (seq a n)
  == if (a <=? k)%nat && (k <? a + n)%nat then g k else 0.
Proof.
  revert a. induction n as [|n IH]; intros a; simpl.
  - replace (k <? a + 0)%nat with (k <? a)%nat by (f_equal; lia).
    destruct (Nat.leb_spec a k), (Nat.ltb_spec k a); simpl; try reflexivity; lia.
  - rewrite IH.
    destruct (Nat.eqb_spec a k) as [->|Hne].
    + rewrite Nat.leb_refl.
      replace (S k <=? k)%nat with false by (symmetry; apply Nat.leb_gt; lia).
      replace (k <? k + S n)%nat with true by (symmetry; apply Nat.ltb_lt; lia).
      simpl. ring.
    + replace (k <? a + S n)%nat with (k <? S a + n)%nat by (f_equal; lia).
      destruct (Nat.leb_spec (S a) k), (Nat.leb_spec a k); simpl; try ring; lia.
Qed.

(** ** Coefficient arrays *)

Lemma coef_nil (j : nat) : coef [] j = 0.
Proof. unfold coef. destruct j; reflexivity. Qed.

Lemma coef_map_dofs (g : nat -> Q) (n j : nat) :
  (j < n)%nat -> coef (map g (dofs n)) j = g j.
Proof.
  intros Hj. unfold coef, dofs.
  rewrite (nth_indep _ 0 (g 0%nat)) by (rewrite length_map, length_seq; exact Hj).
  rewrite map_nth, seq_nth by exact Hj. reflexivity.
Qed.

Lemma coef_vadd (n : nat) (c d : list Q) (j : nat) :
  (j < n)%nat -> coef (vadd n c d) j = coef c j + coef d j.
Proof. intros Hj. unfold vadd. rewrite coef_map_dofs by exact Hj. reflexivity. Qed.

Lemma in_dofs (n j : nat) : In j (dofs n) <-> (j < n)%nat.
Proof. unfold dofs. rewrite in_seq. lia. Qed.

Lemma eval_ext (n : nat) (c d phi : list Q) :
  feq n c d -> eval n c phi == eval n d phi.
Proof.
  intros Hcd. unfold eval. apply sum_over_ext.
  intros j Hj. rewrite (Hcd j) by (apply in_dofs; exact Hj). reflexivity.
Qed.

Lemma eval_vadd (n : nat) (c d phi : list Q) :
  eval n (vadd n c d) phi == eval n c phi + eval n d phi.
Proof.
  unfold eval. rewrite <- sum_over_plus. apply sum_over_ext.
  intros j Hj. rewrite coef_vadd by (apply in_dofs; exact Hj). ring.
Qed.

Lemma eval_zero (n : nat) (c phi : list Q) :
  feq n c [] -> eval n c phi == 0.
Proof.
  intros Hc. unfold eval. apply sum_over_zero.
  intros j Hj. rewrite (Hc j) by (apply in_dofs; exact Hj).
  rewrite coef_nil. ring.
Qed.

Lemma coef_indicator (n k i : nat) :
  (i < n)%nat -> coef (indicator n k) i = if Nat.eqb i k then 1 else 0.
Proof. intros Hi. unfold indicator. apply coef_map_dofs. exact Hi. Qed.

Lemma eval_indicator (n k : nat) (c : list Q) :
  (k < n)%nat -> eval n c (indicator n k) == coef c k.
Proof.
  intros Hk. unfold eval.
  rewrite (sum_over_ext _ (fun j => if Nat.eqb j k then coef c j else 0)).
  - unfold dofs. rewrite sum_over_pick. simpl.
    replace (k <? n)%nat with true by (symmetry; apply Nat.ltb_lt; exact Hk).
    reflexivity.
  - intros j Hj. rewrite coef_indicator by (apply in_dofs; exact Hj).
    destruct (Nat.eqb j k); ring.
Qed.

Lemma sum_indicator (n k : nat) :
  (k < n)%nat -> sum_over (coef (indicator n k)) (dofs n) == 1.
Proof.
  intros Hk.
  rewrite (sum_over_ext _ (fun j => if Nat.eqb j k then 1 else 0)).
  - unfold dofs. rewrite sum_over_pick. simpl.
    replace (k <? n)%nat with true by (symmetry; apply Nat.ltb_lt; exact Hk).
    reflexivity.
  - intros j Hj. rewrite coef_indicator by (apply in_dofs; exact Hj). reflexivity.
Qed.

(** ** The store *)

Lemma length_write (s : store) (l : loc) (v : list Q) :
  length (write s l v) = length s.
Proof.
  revert l. induction s as [|x s IH]; intros [|l]; simpl; try reflexivity.
  rewrite IH. reflexivity.
Qed.

Lemma read_write_same (s : store) (l : loc) (v : list Q) :
  (l < length s)%nat -> read (write s l v) l = v.
Proof.
  unfold read. revert l. induction s as [|x s IH]; intros [|l] Hl; simpl in *;
    try lia; try reflexivity.
  apply IH. lia.
Qed.

Lemma read_write_other (s : store) (l l' : loc) (v : list Q) :
  l <> l' -> read (write s l v) l' = read s l'.
Proof.
  unfold read. revert l l'.
  induction s as [|x s IH]; intros [|l] [|l'] Hne; simpl; try reflexivity;
    try congruence.
  apply IH. congruence.
Qed.

Lemma setup_wf (V : FunctionSpace) (init : list Q) (dt : Q) :
  sim_wf (setup V init dt).
Proof. unfold sim_wf, setup. simpl. repeat split; (lia || discriminate). Qed.

Lemma setup_state (V : FunctionSpace) (init : list Q) (dt : Q) :
  state_of (setup V init dt) = init /\ inflow_of (setup V init dt) = init /\
  sim_dt (setup V init dt) = dt.
Proof. repeat split; reflexivity. Qed.

(** ** One step and the loop *)

Section StepFacts.

Variable solve : linear_solver.
Variable V : FunctionSpace.
Variable deg : degree.

(** What one iteration of the loop does to each variable. *)
Lemma step_inv (st st' : Simulation) :
  sim_wf st -> step solve V deg st = Some st' ->
  exists x,
    solve (dim V) (M V) (rhs V deg st) = Some x /\
    increment_of st' = x /\
    state_of st' = vadd (dim V) (state_of st) x /\
    inflow_of st' = inflow_of st /\
    sim_dt st' = sim_dt st /\
    sim_h0 st' = sim_h0 st /\ sim_h st' = sim_h st /\ sim_dh st' = sim_dh st /\
    sim_wf st'.
Proof.
  intros (H0 & H1 & H2 & N01 & N02 & N12) Hstep. unfold step in Hstep.
  destruct (solve (dim V) (M V) (rhs V deg st)) as [x|] eqn:Hx; [|discriminate].
  injection Hstep as <-. exists x.
  unfold increment_of, state_of, inflow_of, sim_wf; simpl.
  rewrite !length_write.
  rewrite (read_write_other _ (sim_h st) (sim_dh st)) by exact N12.
  rewrite (read_write_same _ (sim_h st)) by (rewrite length_write; exact H1).
  rewrite (read_write_other _ (sim_h st) (sim_h0 st)) by congruence.
  rewrite (read_write_other _ (sim_dh st) (sim_h0 st)) by congruence.
  rewrite (read_write_other _ (sim_dh st) (sim_h st)) by congruence.
  rewrite (read_write_same _ (sim_dh st)) by exact H2.
  repeat split; try reflexivity; assumption.
Qed.

Lemma step_total (st : Simulation) :
  solver_succeeds solve V -> exists st', step solve V deg st = Some st'.
Proof.
  intros Hs. unfold step.
  destruct (solve (dim V) (M V) (rhs V deg st)) as [x|] eqn:Hx.
  - eexists; reflexivity.
  - exfalso. exact (Hs _ Hx).
Qed.

Lemma time_loop_total (n : nat) (st : Simulation) :
  solver_succeeds solve V -> exists st', time_loop solve V deg n st = Some st'.
Proof.
  intros Hs. revert st. induction n as [|n IH]; intros st; simpl.
  - eexists; reflexivity.
  - destruct (step_total st Hs) as [st1 ->]. apply IH.
Qed.

(** The loop only ever writes to [h] and [dh]. *)
Lemma time_loop_frame (n : nat) (st st' : Simulation) :
  sim_wf st -> time_loop solve V deg n st = Some st' ->
  inflow_of st' = inflow_of st /\ sim_dt st' = sim_dt st /\
  sim_h0 st' = sim_h0 st /\ sim_h st' = sim_h st /\ sim_dh st' = sim_dh st /\
  sim_wf st'.
Proof.
  revert st. induction n as [|n IH]; intros st Hwf Hrun; simpl in Hrun.
  - injection Hrun as <-. repeat split; try reflexivity; apply Hwf.
  - destruct (step solve V deg st) as [st1|] eqn:Hstep; [|discriminate].
    destruct (step_inv st st1 Hwf Hstep)
      as (x & _ & _ & _ & Hin & Hdt & E0 & E1 & E2 & Hwf1).
    destruct (IH st1 Hwf1 Hrun) as (Hin' & Hdt' & E0' & E1' & E2' & Hwf').
    repeat split; try congruence; apply Hwf'.
Qed.

(** The loop cut after its first [k] iterations. *)
Lemma time_loop_split (k n : nat) (st st' : Simulation) :
  time_loop solve V deg (k + n) st = Some st' ->
  exists st_k, time_loop solve V deg k st = Some st_k /\
               time_loop solve V deg n st_k = Some st'.
Proof.
  revert st. induction k as [|k IH]; intros st Hrun; simpl in *.
  - exists st. split; [reflexivity | exact Hrun].
  - destruct (step solve V deg st) as [st1|]; [|discriminate].
    apply IH. exact Hrun.
Qed.

End StepFacts.

(** ** Testing the forms against the constant function 1 *)

Lemma sum_tests {P : Type} (w c : P -> Q) (g : P -> nat -> Q)
    (pts : list P) (n : nat) :
  sum_over (fun i => sum_over (fun p => w p * (c p * g p i)) pts) (dofs n)
  == sum_over (fun p => w p * (c p * sum_over (g p) (dofs n))) pts.
Proof.
  rewrite sum_over_exchange. apply sum_over_ext. intros p _.
  rewrite (sum_over_ext _ (fun i => (w p * c p) * g p i)) by (intros; ring).
  rewrite sum_over_scal_l. ring.
Qed.

Section Conservation.

Variable V : FunctionSpace.
Hypothesis HV : partition_of_unity V.

Lemma total_edge_flux (h : list Q) :
  sum_over (edge_flux V h) (dofs (dim V)) == 0.
Proof.
  unfold edge_flux, edge_flux_integrand.
  rewrite (sum_tests ip_weight (fun p => F_plus V h p - F_minus V h p)
             (fun p i => coef (ip_phi_plus p) i - coef (ip_phi_minus p) i)).
  apply sum_over_zero. intros p Hp.
  destruct HV as (_ & HS & _). destruct (HS p Hp) as (Hplus & Hminus).
  rewrite sum_over_minus, Hplus, Hminus. ring.
Qed.

Lemma total_in_flux (h_in : list Q) :
  sum_over (in_flux V h_in) (dofs (dim V))
  == sum_over (fun p => ep_weight p *
        (eval (dim V) h_in (ep_phi p) * min_value (inner (ep_u p) (ep_n p)) 0))
      (ds V).
Proof.
  unfold in_flux, in_flux_integrand.
  rewrite (sum_tests ep_weight
             (fun p => eval (dim V) h_in (ep_phi p)
                       * min_value (inner (ep_u p) (ep_n p)) 0)
             (fun p i => coef (ep_phi p) i)).
  apply sum_over_ext. intros p Hp.
  destruct HV as (_ & _ & Hs). rewrite (Hs p Hp). ring.
Qed.

Lemma total_out_flux (h : list Q) :
  sum_over (out_flux V h) (dofs (dim V))
  == sum_over (fun p => ep_weight p *
        (eval (dim V) h (ep_phi p) * max_value (inner (ep_u p) (ep_n p)) 0))
      (ds V).
Proof.
  unfold out_flux, out_flux_integrand.
  rewrite (sum_tests ep_weight
             (fun p => eval (dim V) h (ep_phi p)
                       * max_value (inner (ep_u p) (ep_n p)) 0)
             (fun p i => coef (ep_phi p) i)).
  apply sum_over_ext. intros p Hp.
  destruct HV as (_ & _ & Hs). rewrite (Hs p Hp). ring.
Qed.

Lemma total_cell_flux (h : list Q) :
  sum_over (cell_flux V h) (dofs (dim V)) == 0.
Proof.
  unfold cell_flux, cell_flux_integrand.
  rewrite (sum_tests cp_weight (fun p => - eval (dim V) h (cp_phi p))
             (fun p i => inner (cp_u p) (nth i (cp_grad_phi p) vzero))).
  apply sum_over_zero. intros p Hp.
  destruct HV as (Hx & _ & _). destruct (Hx p Hp) as (_ & Hg1 & Hg2).
  unfold inner. rewrite sum_over_plus, !sum_over_scal_l, Hg1, Hg2. ring.
Qed.

(** The rate of change of the total mass is minus the net boundary flux,
    in both parts of the notebook. *)
Lemma total_dh_dt (deg : degree) (h_in h : list Q) :
  sum_over (dh_dt V deg h_in h) (dofs (dim V)) == - net_boundary_flux V h_in h.
Proof.
  unfold net_boundary_flux.
  rewrite (sum_over_ext _
             (fun p => ep_weight p * (eval (dim V) h_in (ep_phi p)
                                      * min_value (inner (ep_u p) (ep_n p)) 0)
                       + ep_weight p * (eval (dim V) h (ep_phi p)
                                        * max_value (inner (ep_u p) (ep_n p)) 0)))
    by (intros; ring).
  rewrite sum_over_plus, <- total_in_flux, <- total_out_flux.
  destruct deg; unfold dh_dt; rewrite sum_over_opp, !sum_over_plus.
  - rewrite total_edge_flux. ring.
  - rewrite total_edge_flux, total_cell_flux. ring.
Qed.

(** Summing the rows of the mass-matrix system gives the mass of its
    solution. *)
Lemma mass_of_matvec (x : list Q) :
  sum_over (fun i => sum_over (fun j => M V j i * coef x j) (dofs (dim V)))
           (dofs (dim V))
  == mass V x.
Proof.
  unfold M, mass.
  rewrite (sum_over_ext _
             (fun i => sum_over (fun p => cp_weight p *
                         (eval (dim V) x (cp_phi p) * coef (cp_phi p) i)) (dx V))).
  - rewrite (sum_tests cp_weight (fun p => eval (dim V) x (cp_phi p))
               (fun p i => coef (cp_phi p) i)).
    apply sum_over_ext. intros p Hp.
    destruct HV as (Hx & _ & _). destruct (Hx p Hp) as (H1 & _).
    rewrite H1. ring.
  - intros i _.
    rewrite (sum_over_ext _
               (fun j => sum_over (fun p => cp_weight p *
                           (coef (cp_phi p) j * coef (cp_phi p) i) * coef x j) (dx V)))
      by (intros j _; rewrite <- sum_over_scal_r; reflexivity).
    rewrite sum_over_exchange. apply sum_over_ext. intros p _.
    unfold eval. rewrite <- sum_over_scal_r, <- sum_over_scal_l.
    apply sum_over_ext. intros j _. ring.
Qed.

Lemma mass_of_solution (b : nat -> Q) (x : list Q) :
  solves (dim V) (M V) b x -> mass V x == sum_over b (dofs (dim V)).
Proof.
  intros (_ & Hx). rewrite <- mass_of_matvec.
  apply sum_over_ext. intros i Hi. apply Hx. apply in_dofs. exact Hi.
Qed.

End Conservation.

Lemma mass_vadd (V : FunctionSpace) (c d : list Q) :
  mass V (vadd (dim V) c d) == mass V c + mass V d.
Proof.
  unfold mass. rewrite <- sum_over_plus. apply sum_over_ext.
  intros p _. rewrite eval_vadd. ring.
Qed.

Lemma mass_defect_minus (V : FunctionSpace) (h h_init : list Q) :
  mass_defect V h h_init == mass V h - mass V h_init.
Proof.
  unfold mass_defect, mass. rewrite <- sum_over_minus. apply sum_over_ext.
  intros p _. ring.
Qed.

(** Mass balance of one step: the mass changes by [- dt] times the net
    boundary flux of the state the step starts from. *)
Lemma mass_balance_step (solve : linear_solver) (V : FunctionSpace) (deg : degree)
    (st st' : Simulation) :
  solver_sound solve -> partition_of_unity V -> sim_wf st ->
  step solve V deg st = Some st' ->
  mass V (state_of st')
  == mass V (state_of st)
     - sim_dt st * net_boundary_flux V (inflow_of st) (state_of st).
Proof.
  intros Hsound HV Hwf Hstep.
  destruct (step_inv solve V deg st st' Hwf Hstep) as (x & Hx & _ & Hst & _).
  rewrite Hst, mass_vadd.
  rewrite (mass_of_solution V HV _ x (Hsound _ _ _ _ Hx)).
  unfold rhs. rewrite sum_over_scal_l, (total_dh_dt V HV). ring.
Qed.

(** ** Piecewise-constant spaces *)

Lemma DG0_partition_of_unity (m : Mesh) :
  mesh_wf m -> partition_of_unity (DG0 m).
Proof.
  intros (Hx & HS & Hs). unfold partition_of_unity. simpl.
  rewrite Forall_forall in Hx, HS, Hs.
  split; [|split]; intros p Hp; apply in_map_iff in Hp;
    destruct Hp as (p0 & <- & Hp0); simpl.
  - split; [apply sum_indicator, Hx, Hp0 |].
    split; apply sum_over_zero; intros i _; rewrite nth_repeat; reflexivity.
  - destruct (HS p0 Hp0). split; apply sum_indicator; assumption.
  - apply sum_indicator, Hs, Hp0.
Qed.

(** The mass matrix of a piecewise-constant space is diagonal, with the
    cell areas on the diagonal. *)
Lemma DG0_mass_matrix (m : Mesh) (j i : nat) :
  (j < num_cells m)%nat -> (i < num_cells m)%nat ->
  M (DG0 m) j i == if Nat.eqb j i then cell_volume m i else 0.
Proof.
  intros Hj Hi. unfold M, cell_volume. simpl. rewrite sum_over_map. simpl.
  destruct (Nat.eqb_spec j i) as [->|Hne].
  - apply sum_over_ext. intros p _. rewrite coef_indicator by exact Hi.
    rewrite (Nat.eqb_sym (mc_cell p) i). destruct (Nat.eqb i (mc_cell p)); ring.
  - apply sum_over_zero. intros p _. rewrite !coef_indicator by assumption.
    destruct (Nat.eqb_spec j (mc_cell p)), (Nat.eqb_spec i (mc_cell p));
      try ring; congruence.
Qed.

Lemma DG0_matvec (m : Mesh) (x : list Q) (i : nat) :
  (i < num_cells m)%nat ->
  sum_over (fun j => M (DG0 m) j i * coef x j) (dofs (num_cells m))
  == cell_volume m i * coef x i.
Proof.
  intros Hi.
  rewrite (sum_over_ext _
             (fun j => if Nat.eqb j i then cell_volume m i * coef x j else 0)).
  - unfold dofs. rewrite sum_over_pick. simpl.
    replace (i <? num_cells m)%nat with true by (symmetry; apply Nat.ltb_lt; exact Hi).
    reflexivity.
  - intros j Hj. apply in_dofs in Hj. rewrite DG0_mass_matrix by assumption.
    destruct (Nat.eqb j i); ring.
Qed.

Lemma DG0_nonsingular (m : Mesh) :
  nondegenerate m -> mass_nonsingular (DG0 m).
Proof.
  intros Hm x Hx j Hj. simpl in *.
  specialize (Hx j Hj). rewrite DG0_matvec in Hx by exact Hj.
  rewrite coef_nil.
  destruct (Qmult_integral _ _ Hx) as [Hv|Hc]; [|exact Hc].
  exfalso. exact (Hm j Hj Hv).
Qed.

(** ** The diagonal solver *)

Lemma is_diagonal_spec (n : nat) (A : nat -> nat -> Q) :
  is_diagonal n A = true <->
  (forall i j, (i < n)%nat -> (j < n)%nat -> j <> i -> A j i == 0).
Proof.
  unfold is_diagonal. rewrite forallb_forall. split.
  - intros H i j Hi Hj Hne.
    specialize (H i (proj2 (in_dofs n i) Hi)).
    rewrite forallb_forall in H. specialize (H j (proj2 (in_dofs n j) Hj)).
    apply orb_true_iff in H. destruct H as [H|H].
    + apply Nat.eqb_eq in H. contradiction.
    + apply Qeq_bool_iff. exact H.
  - intros H i Hi. apply in_dofs in Hi. apply forallb_forall. intros j Hj.
    apply in_dofs in Hj. apply orb_true_iff.
    destruct (Nat.eqb_spec j i) as [|Hne]; [left; reflexivity | right].
    apply Qeq_bool_iff. apply H; assumption.
Qed.

Lemma diag_solve_sound : solver_sound diag_solve.
Proof.
  intros n A b x Hsolve. unfold diag_solve in Hsolve.
  destruct (is_diagonal n A) eqn:Hdiag; simpl in Hsolve; [|discriminate].
  destruct (forallb (fun i => negb (Qeq_bool (A i i) 0)) (dofs n)) eqn:Hnz;
    [|discriminate].
  injection Hsolve as <-.
  rewrite is_diagonal_spec in Hdiag. rewrite forallb_forall in Hnz.
  split.
  - unfold dofs. rewrite length_map, length_seq. reflexivity.
  - intros i Hi.
    rewrite (sum_over_ext _ (fun j => if Nat.eqb j i then b j else 0)).
    + unfold dofs. rewrite sum_over_pick. simpl.
      replace (i <? n)%nat with true by (symmetry; apply Nat.ltb_lt; exact Hi).
      reflexivity.
    + intros j Hj. apply in_dofs in Hj. rewrite coef_map_dofs by exact Hj.
      destruct (Nat.eqb_spec j i) as [->|Hne].
      * specialize (Hnz i (proj2 (in_dofs n i) Hi)).
        apply negb_true_iff in Hnz.
        assert (Hd : ~ A i i == 0).
        { intros E. apply Qeq_bool_iff in E. congruence. }
        field. exact Hd.
      * rewrite (Hdiag i j Hi Hj Hne). ring.
Qed.

Lemma diag_solve_succeeds (m : Mesh) :
  nondegenerate m -> solver_succeeds diag_solve (DG0 m).
Proof.
  intros Hm b. unfold diag_solve. simpl.
  assert (Hdiag : is_diagonal (num_cells m) (M (DG0 m)) = true).
  { apply is_diagonal_spec. intros i j Hi Hj Hne.
    rewrite DG0_mass_matrix by assumption.
    destruct (Nat.eqb_spec j i); [contradiction | reflexivity]. }
  assert (Hnz : forallb (fun i => negb (Qeq_bool (M (DG0 m) i i) 0))
                        (dofs (num_cells m)) = true).
  { apply forallb_forall. intros i Hi. apply in_dofs in Hi.
    apply negb_true_iff. destruct (Qeq_bool (M (DG0 m) i i) 0) eqn:E; [|reflexivity].
    apply Qeq_bool_iff in E. rewrite DG0_mass_matrix in E by assumption.
    rewrite Nat.eqb_refl in E. exfalso. exact (Hm i Hi E). }
  rewrite Hdiag, Hnz. simpl. discriminate.
Qed.

(** ** The example meshes *)

Lemma channel_wf : mesh_wf channel.
Proof. unfold mesh_wf, channel; simpl. repeat constructor. Qed.

Lemma ring_wf : mesh_wf ring.
Proof. unfold mesh_wf, ring; simpl. repeat constructor. Qed.

Lemma still_ring_wf : mesh_wf still_ring.
Proof. unfold mesh_wf, still_ring; simpl. repeat constructor. Qed.

Ltac two_cells k Hk :=
  destruct k as [|[|k]]; [ vm_compute; discriminate | vm_compute; discriminate
                         | simpl in Hk; lia ].

Lemma channel_nondegenerate : nondegenerate channel.
Proof. intros k Hk. two_cells k Hk. Qed.

Lemma ring_nondegenerate : nondegenerate ring.
Proof. intros k Hk. two_cells k Hk. Qed.

Lemma still_ring_nondegenerate : nondegenerate still_ring.
Proof. intros k Hk. two_cells k Hk. Qed.

Lemma ring_closed : zero_normal_velocity (DG0 ring).
Proof.
  intros p Hp. simpl in Hp.
  destruct Hp as [<-|[<-|[]]]; vm_compute; reflexivity.
Qed.

Lemma still_ring_at_rest : zero_velocity (DG0 still_ring).
Proof.
  unfold zero_velocity. simpl. repeat split;
    repeat match goal with
           | H : _ \/ _ |- _ => destruct H as [<-|H]
           | H : False |- _ => destruct H
           end; reflexivity.
Qed.

(** ** Conservation of mass *)

Lemma closed_no_boundary_flux (V : FunctionSpace) (h_in h : list Q) :
  zero_normal_velocity V -> net_boundary_flux V h_in h == 0.
Proof.
  intros Hz. unfold net_boundary_flux. apply sum_over_zero. intros p Hp.
  unfold min_value, max_value. rewrite (Hz p Hp).
  rewrite Q.max_id, Q.min_id. ring.
Qed.

Lemma mass_conserved_loop (solve : linear_solver) (V : FunctionSpace) (deg : degree)
    (N : nat) (st st' : Simulation) :
  solver_sound solve -> partition_of_unity V -> sim_wf st ->
  (forall k st_k, (k < N)%nat -> time_loop solve V deg k st = Some st_k ->
     net_boundary_flux V (inflow_of st_k) (state_of st_k) == 0) ->
  time_loop solve V deg N st = Some st' ->
  mass V (state_of st') == mass V (state_of st).
Proof.
  intros Hsound HV. revert st.
  induction N as [|N IH]; intros st Hwf Hbal Hrun; simpl in Hrun.
  - injection Hrun as <-. reflexivity.
  - destruct (step solve V deg st) as [st1|] eqn:Hstep; [|discriminate].
    destruct (step_inv solve V deg st st1 Hwf Hstep)
      as (x & _ & _ & _ & _ & _ & _ & _ & _ & Hwf1).
    rewrite (IH st1 Hwf1).
    + rewrite (mass_balance_step solve V deg st st1 Hsound HV Hwf Hstep).
      rewrite (Hbal 0%nat st) by (try lia; reflexivity). ring.
    + intros k st_k Hk Hrun_k. apply (Hbal (S k)); [lia|].
      simpl. rewrite Hstep. exact Hrun_k.
    + exact Hrun.
Qed.

(** C1. Mass conservation.  When the net boundary flux vanishes in every
    state the loop goes through (inflow balancing outflow), or when the
    velocity has no normal component on the boundary, the loop runs to its
    end and the integral of the state after [N] steps equals the integral
    of the initial state, for every [N]; the notebook's smoke test
    [assemble((h - h0) * dx)] is zero. *)
Theorem mass_conservation (solve : linear_solver) (V : FunctionSpace) (deg : degree)
    (init : list Q) (dt : Q) (N : nat) :
  solver_sound solve -> solver_succeeds solve V -> partition_of_unity V ->
  (zero_normal_velocity V \/
   forall k st_k, (k < N)%nat ->
     time_loop solve V deg k (setup V init dt) = Some st_k ->
     net_boundary_flux V (inflow_of st_k) (state_of st_k) == 0) ->
  exists st',
    time_loop solve V deg N (setup V init dt) = Some st' /\
    mass V (state_of st') == mass V init /\
    mass_defect V (state_of st') (inflow_of st') == 0.
Proof.
  intros Hsound Hsucc HV Hflux.
  destruct (time_loop_total solve V deg N (setup V init dt) Hsucc) as [st' Hrun].
  exists st'. split; [exact Hrun|].
  assert (Hmass : mass V (state_of st') == mass V init).
  { apply (mass_conserved_loop solve V deg N (setup V init dt) st' Hsound HV
             (setup_wf V init dt)); [|exact Hrun].
    destruct Hflux as [Hz|Hbal].
    - intros k st_k _ _. apply closed_no_boundary_flux. exact Hz.
    - exact Hbal. }
  split; [exact Hmass|].
  destruct (time_loop_frame solve V deg N _ st' (setup_wf V init dt) Hrun)
    as (Hin & _).
  rewrite mass_defect_minus, Hin, Hmass.
  change (inflow_of (setup V init dt)) with init. ring.
Qed.

Lemma mass_conservation_witness :
  exists st',
    time_loop diag_solve (DG0 ring) P0 3 (setup (DG0 ring) [4; 1] (1 # 2)) = Some st' /\
    mass (DG0 ring) (state_of st') == mass (DG0 ring) [4; 1] /\
    mass_defect (DG0 ring) (state_of st') (inflow_of st') == 0.
Proof.
  apply (mass_conservation diag_solve (DG0 ring) P0 [4; 1] (1 # 2) 3).
  - exact diag_solve_sound.
  - exact (diag_solve_succeeds ring ring_nondegenerate).
  - exact (DG0_partition_of_unity ring ring_wf).
  - left. exact ring_closed.
Defined.

(** ** The upwind flux *)

Lemma max_value_nonneg (a : Q) : 0 <= a -> max_value a 0 == a.
Proof. intros Ha. unfold max_value. apply Q.max_l. exact Ha. Qed.

Lemma max_value_nonpos (a : Q) : a <= 0 -> max_value a 0 == 0.
Proof. intros Ha. unfold max_value. apply Q.max_r. exact Ha. Qed.

Lemma min_value_nonneg (a : Q) : 0 <= a -> min_value a 0 == 0.
Proof. intros Ha. unfold min_value. apply Q.min_r. exact Ha. Qed.

Lemma min_value_nonpos (a : Q) : a <= 0 -> min_value a 0 == a.
Proof. intros Ha. unfold min_value. apply Q.min_l. exact Ha. Qed.

Lemma Qle_bool_false (a b : Q) : Qle_bool a b = false -> b < a.
Proof.
  intros E. apply Qnot_le_lt. intros Hle.
  apply Qle_bool_iff in Hle. congruence.
Qed.

(** One-sided flux: the value of this side when the flow leaves, nothing
    when it enters. *)
Lemma F_upwind (h_here h_there : Q) (u n : vec2) :
  F h_here u n == upwind_value h_here h_there (inner u n) * max_value (inner u n) 0.
Proof.
  unfold F, upwind_value.
  destruct (Qle_bool 0 (inner u n)) eqn:E; [reflexivity|].
  apply Qle_bool_false in E.
  rewrite max_value_nonpos by (apply Qlt_le_weak; exact E). ring.
Qed.

Lemma inner_opposite (u u' n n' : vec2) :
  veq u u' -> veq n' (vneg n) -> inner u' n' == - inner u n.
Proof.
  intros (Hu1 & Hu2) (Hn1 & Hn2). unfold inner.
  rewrite Hn1, Hn2, <- Hu1, <- Hu2. simpl. ring.
Qed.

(** C2. Upwind numerical flux.  On each side of an interior facet, and on
    the interior side of a boundary facet, the flux [F] is the upwind value
    times [max(u.n, 0)], the upwind value being the one of the cell the
    flow leaves; across an interior facet whose two sides see the same
    velocity and opposite normals, the difference [F('+') - F('-')] is the
    upwind value times the normal velocity. *)
Theorem upwind_flux (V : FunctionSpace) (h h_in : list Q)
    (p : InteriorFacetPoint) (e : ExteriorFacetPoint) :
  facet_consistent p ->
  let h_plus := eval (dim V) h (ip_phi_plus p) in
  let h_minus := eval (dim V) h (ip_phi_minus p) in
  let un_plus := inner (ip_u_plus p) (ip_n_plus p) in
  let un_minus := inner (ip_u_minus p) (ip_n_minus p) in
  let h_e := eval (dim V) h (ep_phi e) in
  let un_e := inner (ep_u e) (ep_n e) in
  F_plus V h p == upwind_value h_plus h_minus un_plus * max_value un_plus 0 /\
  F_minus V h p == upwind_value h_minus h_plus un_minus * max_value un_minus 0 /\
  F_plus V h p - F_minus V h p == upwind_value h_plus h_minus un_plus * un_plus /\
  F h_e (ep_u e) (ep_n e)
  == upwind_value h_e (eval (dim V) h_in (ep_phi e)) un_e * max_value un_e 0.
Proof.
  intros (Hu & Hn). cbv zeta.
  split; [apply F_upwind|]. split; [apply F_upwind|]. split; [|apply F_upwind].
  unfold F_plus, F_minus, F, upwind_value.
  rewrite (inner_opposite _ _ _ _ Hu Hn).
  destruct (Qle_bool 0 (inner (ip_u_plus p) (ip_n_plus p))) eqn:E.
  - apply Qle_bool_iff in E.
    rewrite (max_value_nonneg _ E).
    rewrite max_value_nonpos by lra. ring.
  - apply Qle_bool_false in E.
    rewrite (max_value_nonpos (inner (ip_u_plus p) (ip_n_plus p))) by lra.
    rewrite max_value_nonneg by lra. ring.
Qed.

Lemma upwind_flux_witness :
  F_plus (DG0 channel) [4; 1] channel_facet == upwind_value 4 1 1 * max_value 1 0 /\
  F_plus (DG0 channel) [4; 1] channel_facet - F_minus (DG0 channel) [4; 1] channel_facet
  == 4 * 1.
Proof.
  destruct (upwind_flux (DG0 channel) [4; 1] [4; 1] channel_facet channel_inlet)
    as (H1 & _ & H3 & _).
  - split; split; reflexivity.
  - split; [exact H1 | exact H3].
Defined.

(** ** Exchanging the labels of the two sides *)

Lemma swap_sides_integrand (V : FunctionSpace) (h : list Q) (i : nat)
    (p : InteriorFacetPoint) :
  edge_flux_integrand V h i (swap_sides p) == edge_flux_integrand V h i p.
Proof. unfold edge_flux_integrand, F_plus, F_minus. simpl. ring. Qed.

(** C3. Edge-label invariance.  Exchanging "+" and "-" at a facet changes
    the sign of the flux difference and of the jump of the test function,
    so their product is unchanged; the assembled edge flux, and with it the
    whole right-hand side, is the same for every labelling of the
    facets. *)
Theorem edge_label_invariance (flip : InteriorFacetPoint -> bool)
    (V : FunctionSpace) (deg : degree) (h_in h : list Q) (i : nat)
    (p : InteriorFacetPoint) :
  F_plus V h (swap_sides p) - F_minus V h (swap_sides p)
  == - (F_plus V h p - F_minus V h p) /\
  coef (ip_phi_plus (swap_sides p)) i - coef (ip_phi_minus (swap_sides p)) i
  == - (coef (ip_phi_plus p) i - coef (ip_phi_minus p) i) /\
  edge_flux_integrand V h i (swap_sides p) == edge_flux_integrand V h i p /\
  edge_flux (relabel flip V) h i == edge_flux V h i /\
  dh_dt (relabel flip V) deg h_in h i == dh_dt V deg h_in h i.
Proof.
  assert (Hedge : edge_flux (relabel flip V) h i == edge_flux V h i).
  { unfold edge_flux. simpl. rewrite sum_over_map. apply sum_over_ext.
    intros p0 _. destruct (flip p0); [|reflexivity].
    change (edge_flux_integrand (relabel flip V) h i (swap_sides p0))
      with (edge_flux_integrand V h i (swap_sides p0)).
    change (edge_flux_integrand (relabel flip V) h i p0)
      with (edge_flux_integrand V h i p0).
    rewrite swap_sides_integrand. reflexivity. }
  split; [unfold F_plus, F_minus; simpl; ring|].
  split; [simpl; ring|].
  split; [apply swap_sides_integrand|].
  split; [exact Hedge|].
  destruct deg; unfold dh_dt; rewrite Hedge; reflexivity.
Qed.

(** ** Boundary terms *)

(** C7. Boundary flux.  At a boundary point the inflow term is the
    prescribed value times [min(u.n, 0)] and the outflow term the interior
    value times [max(u.n, 0)], both times the test function; their sum is
    the prescribed value times [u.n] where [u.n < 0] and the interior value
    times [u.n] where [0 <= u.n], and the assembled boundary terms are the
    integral of that upwind choice. *)
Theorem boundary_flux (V : FunctionSpace) (h_in h : list Q) (i : nat)
    (p : ExteriorFacetPoint) :
  let un := inner (ep_u p) (ep_n p) in
  let q := coef (ep_phi p) i in
  let h_prescribed := eval (dim V) h_in (ep_phi p) in
  let h_interior := eval (dim V) h (ep_phi p) in
  in_flux_integrand V h_in i p == h_prescribed * min_value un 0 * q /\
  out_flux_integrand V h i p == h_interior * max_value un 0 * q /\
  (un < 0 ->
     in_flux_integrand V h_in i p + out_flux_integrand V h i p
     == h_prescribed * un * q) /\
  (0 <= un ->
     in_flux_integrand V h_in i p + out_flux_integrand V h i p
     == h_interior * un * q) /\
  in_flux V h_in i + out_flux V h i
  == sum_over (fun e => ep_weight e *
        (upwind_value (eval (dim V) h (ep_phi e)) (eval (dim V) h_in (ep_phi e))
                      (inner (ep_u e) (ep_n e))
         * inner (ep_u e) (ep_n e) * coef (ep_phi e) i)) (ds V).
Proof.
  cbv zeta. unfold in_flux_integrand, out_flux_integrand.
  split; [reflexivity|]. split; [reflexivity|]. split; [|split].
  - intros Hneg.
    rewrite min_value_nonpos, max_value_nonpos by lra. ring.
  - intros Hpos.
    rewrite min_value_nonneg, max_value_nonneg by lra. ring.
  - unfold in_flux, out_flux. rewrite <- sum_over_plus.
    apply sum_over_ext. intros e _.
    unfold in_flux_integrand, out_flux_integrand, upwind_value.
    destruct (Qle_bool 0 (inner (ep_u e) (ep_n e))) eqn:E.
    + apply Qle_bool_iff in E.
      rewrite min_value_nonneg, max_value_nonneg by lra. ring.
    + apply Qle_bool_false in E.
      rewrite min_value_nonpos, max_value_nonpos by lra. ring.
Qed.

(** ** The cell flux of a piecewise-constant space *)

(** C8. Degree-0 reduction.  In a piecewise-constant space the cell-flux
    integrand vanishes at every point, because the gradient of every test
    function is zero; so the cell flux is zero and the degree-1 form of
    [dh_dt] reduces to the degree-0 form. *)
Theorem cell_flux_DG0 (m : Mesh) (h_in h : list Q) (i : nat) :
  (forall p, In p (dx (DG0 m)) ->
     nth i (cp_grad_phi p) vzero = vzero /\
     cell_flux_integrand (DG0 m) h i p == 0) /\
  cell_flux (DG0 m) h i == 0 /\
  dh_dt (DG0 m) P1 h_in h i == dh_dt (DG0 m) P0 h_in h i.
Proof.
  assert (Hpt : forall p, In p (dx (DG0 m)) ->
            nth i (cp_grad_phi p) vzero = vzero /\
            cell_flux_integrand (DG0 m) h i p == 0).
  { intros p Hp. simpl in Hp. apply in_map_iff in Hp.
    destruct Hp as (p0 & <- & _). unfold cell_flux_integrand. simpl.
    rewrite nth_repeat. split; [reflexivity|]. unfold inner. simpl. ring. }
  assert (Hcell : cell_flux (DG0 m) h i == 0).
  { unfold cell_flux. apply sum_over_zero. intros p Hp.
    destruct (Hpt p Hp) as (_ & ->). ring. }
  split; [exact Hpt|]. split; [exact Hcell|].
  unfold dh_dt. rewrite Hcell. ring.
Qed.

Lemma boundary_flux_witness :
  in_flux_integrand (DG0 channel) [4; 1] 0 channel_inlet
  + out_flux_integrand (DG0 channel) [7; 1] 0 channel_inlet
  == 4 * (-1) * 1.
Proof.
  destruct (boundary_flux (DG0 channel) [4; 1] [7; 1] 0 channel_inlet)
    as (_ & _ & Hin & _).
  apply Hin. reflexivity.
Defined.

Lemma cell_flux_DG0_witness :
  cell_flux (DG0 channel) [4; 1] 0 == 0 /\
  dh_dt (DG0 channel) P1 [4; 1] [4; 1] 1 == dh_dt (DG0 channel) P0 [4; 1] [4; 1] 1.
Proof.
  split.
  - exact (proj1 (proj2 (cell_flux_DG0 channel [4; 1] [4; 1] 0))).
  - exact (proj2 (proj2 (cell_flux_DG0 channel [4; 1] [4; 1] 1))).
Defined.

(** ** A fluid at rest *)

Lemma inner_zero_velocity (u n : vec2) : veq u vzero -> inner u n == 0.
Proof. intros (H1 & H2). unfold inner. rewrite H1, H2. simpl. ring. Qed.

Lemma zero_velocity_dh_dt (V : FunctionSpace) (deg : degree) (h_in h : list Q)
    (i : nat) :
  zero_velocity V -> dh_dt V deg h_in h i == 0.
Proof.
  intros (Hx & HS & Hs).
  assert (Hedge : edge_flux V h i == 0).
  { unfold edge_flux. apply sum_over_zero. intros p Hp.
    destruct (HS p Hp) as (Hp1 & Hp2).
    unfold edge_flux_integrand, F_plus, F_minus, F, max_value.
    rewrite (inner_zero_velocity _ (ip_n_plus p) Hp1).
    rewrite (inner_zero_velocity _ (ip_n_minus p) Hp2).
    rewrite Q.max_id. ring. }
  assert (Hin : in_flux V h_in i == 0).
  { unfold in_flux. apply sum_over_zero. intros p Hp.
    unfold in_flux_integrand, min_value.
    rewrite (inner_zero_velocity _ (ep_n p) (Hs p Hp)), Q.min_id. ring. }
  assert (Hout : out_flux V h i == 0).
  { unfold out_flux. apply sum_over_zero. intros p Hp.
    unfold out_flux_integrand, max_value.
    rewrite (inner_zero_velocity _ (ep_n p) (Hs p Hp)), Q.max_id. ring. }
  assert (Hcell : cell_flux V h i == 0).
  { unfold cell_flux. apply sum_over_zero. intros p Hp.
    unfold cell_flux_integrand.
    rewrite (inner_zero_velocity _ (nth i (cp_grad_phi p) vzero) (Hx p Hp)). ring. }
  destruct deg; unfold dh_dt; rewrite Hedge, Hin, Hout; try rewrite Hcell; ring.
Qed.

Lemma feq_trans (n : nat) (a b c : list Q) : feq n a b -> feq n b c -> feq n a c.
Proof. intros Hab Hbc j Hj. rewrite (Hab j Hj). apply Hbc. exact Hj. Qed.

Lemma feq_refl (n : nat) (a : list Q) : feq n a a.
Proof. intros j _. reflexivity. Qed.

Lemma zero_velocity_step (solve : linear_solver) (V : FunctionSpace) (deg : degree)
    (st st' : Simulation) :
  solver_sound solve -> mass_nonsingular V -> zero_velocity V -> sim_wf st ->
  step solve V deg st = Some st' ->
  feq (dim V) (increment_of st') [] /\ feq (dim V) (state_of st') (state_of st).
Proof.
  intros Hsound Hns Hz Hwf Hstep.
  destruct (step_inv solve V deg st st' Hwf Hstep) as (x & Hx & Hinc & Hst & _).
  destruct (Hsound _ _ _ _ Hx) as (_ & Hsol).
  assert (Hx0 : feq (dim V) x []).
  { apply Hns. intros i Hi. rewrite (Hsol i Hi). unfold rhs.
    rewrite (zero_velocity_dh_dt V deg _ _ i Hz). ring. }
  split; [rewrite Hinc; exact Hx0|].
  intros j Hj. rewrite Hst, coef_vadd by exact Hj.
  rewrite (Hx0 j Hj), coef_nil. ring.
Qed.

(** C9. Zero velocity.  When the velocity field is identically zero, the
    loop runs to its end for every initial state and every number of
    steps, and the state it leaves equals the initial state in every
    coefficient. *)
Theorem zero_velocity_unchanged (solve : linear_solver) (V : FunctionSpace)
    (deg : degree) (init : list Q) (dt : Q) (N : nat) :
  solver_sound solve -> solver_succeeds solve V -> mass_nonsingular V ->
  zero_velocity V ->
  exists st',
    time_loop solve V deg N (setup V init dt) = Some st' /\
    feq (dim V) (state_of st') init.
Proof.
  intros Hsound Hsucc Hns Hz.
  destruct (time_loop_total solve V deg N (setup V init dt) Hsucc) as [st' Hrun].
  exists st'. split; [exact Hrun|].
  change (feq (dim V) (state_of st') (state_of (setup V init dt))).
  generalize (setup_wf V init dt). revert Hrun.
  generalize (setup V init dt) as st.
  induction N as [|N IH]; intros st Hrun Hwf; simpl in Hrun.
  - injection Hrun as <-. apply feq_refl.
  - destruct (step solve V deg st) as [st1|] eqn:Hstep; [|discriminate].
    destruct (step_inv solve V deg st st1 Hwf Hstep)
      as (x & _ & _ & _ & _ & _ & _ & _ & _ & Hwf1).
    apply (feq_trans _ _ (state_of st1)).
    + apply IH; assumption.
    + apply (zero_velocity_step solve V deg st st1); assumption.
Qed.

Lemma zero_velocity_unchanged_witness :
  exists st',
    time_loop diag_solve (DG0 still_ring) P0 5 (setup (DG0 still_ring) [4; 1] (1 # 2))
    = Some st' /\
    feq 2 (state_of st') [4; 1].
Proof.
  apply (zero_velocity_unchanged diag_solve (DG0 still_ring) P0 [4; 1] (1 # 2) 5).
  - exact diag_solve_sound.
  - exact (diag_solve_succeeds still_ring still_ring_nondegenerate).
  - exact (DG0_nonsingular still_ring still_ring_nondegenerate).
  - exact still_ring_at_rest.
Defined.

(** ** The prescribed inflow value *)

(** C10. The inflow value is the initial condition.  In every state the
    loop reaches, whatever the number of steps taken and in both parts of
    the notebook, the object that [in_flux] reads is not the object of the
    state and still holds the projected initial condition; the right-hand
    side of the next solve is assembled with it. *)
Theorem inflow_value_fixed (solve : linear_solver) (V : FunctionSpace)
    (deg : degree) (init : list Q) (dt : Q) (k : nat) (st_k : Simulation) :
  time_loop solve V deg k (setup V init dt) = Some st_k ->
  sim_h0 st_k <> sim_h st_k /\
  inflow_of st_k = init /\
  (forall i, in_flux V (inflow_of st_k) i = in_flux V init i) /\
  (forall i, rhs V deg st_k i = dt * dh_dt V deg init (state_of st_k) i).
Proof.
  intros Hrun.
  destruct (time_loop_frame solve V deg k _ st_k (setup_wf V init dt) Hrun)
    as (Hin & Hdt & _ & _ & _ & Hwf).
  change (inflow_of (setup V init dt)) with init in Hin.
  change (sim_dt (setup V init dt)) with dt in Hdt.
  split; [apply Hwf|]. split; [exact Hin|].
  split; intros i; unfold rhs; rewrite Hin; [reflexivity|].
  rewrite Hdt. reflexivity.
Qed.

Lemma inflow_value_fixed_witness :
  exists st,
    time_loop diag_solve (DG0 channel) P0 2 (setup (DG0 channel) [4; 1] (1 # 2))
    = Some st /\
    inflow_of st = [4; 1].
Proof.
  destruct (time_loop_total diag_solve (DG0 channel) P0 2
              (setup (DG0 channel) [4; 1] (1 # 2))
              (diag_solve_succeeds channel channel_nondegenerate)) as [st Hrun].
  exists st. split; [exact Hrun|].
  exact (proj1 (proj2 (inflow_value_fixed diag_solve (DG0 channel) P0 [4; 1]
                         (1 # 2) 2 st Hrun))).
Defined.

(** ** The increment of one step *)

(** C4, as the code has it.  Each step runs to its end when the solve
    succeeds, and the increment it adds to the state solves the
    mass-matrix system whose right-hand side is MINUS [dt] times the sum of
    the cell flux (degree 1 only), the edge flux and the two boundary
    terms; in a piecewise-constant space with no degenerate cell this is a
    division by the cell area, cell by cell. *)
Theorem increment_system (solve : linear_solver) (V : FunctionSpace)
    (deg : degree) (st : Simulation) :
  solver_sound solve -> solver_succeeds solve V -> sim_wf st ->
  exists st',
    step solve V deg st = Some st' /\
    state_of st' = vadd (dim V) (state_of st) (increment_of st') /\
    length (increment_of st') = dim V /\
    (forall i, (i < dim V)%nat ->
       sum_over (fun j => M V j i * coef (increment_of st') j) (dofs (dim V))
       == - (sim_dt st *
             ((match deg with P0 => 0 | P1 => cell_flux V (state_of st) i end)
              + edge_flux V (state_of st) i
              + (in_flux V (inflow_of st) i + out_flux V (state_of st) i)))) /\
    (forall m, V = DG0 m -> nondegenerate m ->
       forall i, (i < num_cells m)%nat ->
         coef (increment_of st') i
         == - (sim_dt st *
               (edge_flux V (state_of st) i
                + (in_flux V (inflow_of st) i + out_flux V (state_of st) i)))
            / cell_volume m i).
Proof.
  intros Hsound Hsucc Hwf.
  destruct (step_total solve V deg st Hsucc) as [st' Hstep].
  exists st'. split; [exact Hstep|].
  destruct (step_inv solve V deg st st' Hwf Hstep) as (x & Hx & Hinc & Hst & _).
  destruct (Hsound _ _ _ _ Hx) as (Hlen & Hsol).
  rewrite Hinc.
  assert (Hsys : forall i, (i < dim V)%nat ->
            sum_over (fun j => M V j i * coef x j) (dofs (dim V))
            == - (sim_dt st *
                  ((match deg with P0 => 0 | P1 => cell_flux V (state_of st) i end)
                   + edge_flux V (state_of st) i
                   + (in_flux V (inflow_of st) i + out_flux V (state_of st) i)))).
  { intros i Hi. rewrite (Hsol i Hi). unfold rhs, dh_dt. destruct deg; ring. }
  split; [exact Hst|]. split; [exact Hlen|]. split; [exact Hsys|].
  intros m -> Hm i Hi.
  specialize (Hsys i Hi). simpl dim in Hsys.
  rewrite DG0_matvec in Hsys by exact Hi.
  assert (Hcell : cell_flux (DG0 m) (state_of st) i == 0).
  { unfold cell_flux. apply sum_over_zero. intros p Hp. simpl in Hp.
    apply in_map_iff in Hp. destruct Hp as (p0 & <- & _).
    unfold cell_flux_integrand, inner. simpl. rewrite nth_repeat. simpl. ring. }
  assert (Hrhs : cell_volume m i * coef x i
                 == - (sim_dt st *
                       (edge_flux (DG0 m) (state_of st) i
                        + (in_flux (DG0 m) (inflow_of st) i
                           + out_flux (DG0 m) (state_of st) i)))).
  { rewrite Hsys. destruct deg; [|rewrite Hcell]; ring. }
  rewrite <- Hrhs. field. exact (Hm i Hi).
Qed.

Lemma increment_system_witness :
  exists st',
    step diag_solve (DG0 channel) P0 (setup (DG0 channel) [4; 1] (1 # 2)) = Some st' /\
    coef (increment_of st') 1
    == - ((1 # 2) *
          (edge_flux (DG0 channel) [4; 1] 1
           + (in_flux (DG0 channel) [4; 1] 1 + out_flux (DG0 channel) [4; 1] 1)))
       / cell_volume channel 1.
Proof.
  destruct (increment_system diag_solve (DG0 channel) P0
              (setup (DG0 channel) [4; 1] (1 # 2))
              diag_solve_sound
              (diag_solve_succeeds channel channel_nondegenerate)
              (setup_wf (DG0 channel) [4; 1] (1 # 2)))
    as (st' & Hstep & _ & _ & _ & Hcell).
  exists st'. split; [exact Hstep|].
  apply (Hcell channel eq_refl channel_nondegenerate 1%nat). simpl. lia.
Defined.

(** The claim's sign fails: in the channel, with state (4, 1) and
    [dt = 1/2], the increment of the first step is (0, 1/2), while the
    system [M x = dt * (cell_flux + edge_flux + in_flux + out_flux)] has
    the solution (0, -1/2). *)
Lemma increment_sign_counterexample :
  exists st',
    step diag_solve (DG0 channel) P1 (setup (DG0 channel) [4; 1] (1 # 2)) = Some st' /\
    coef (increment_of st') 1 == 1 # 2 /\
    ~ solves 2 (M (DG0 channel))
        (fun i => (1 # 2) *
           (cell_flux (DG0 channel) [4; 1] i + edge_flux (DG0 channel) [4; 1] i
            + (in_flux (DG0 channel) [4; 1] i + out_flux (DG0 channel) [4; 1] i)))
        (increment_of st').
Proof.
  eexists. split; [vm_compute; reflexivity|].
  split; [vm_compute; reflexivity|].
  intros (_ & Hsol). specialize (Hsol 1%nat (Nat.lt_succ_diag_r 1)).
  vm_compute in Hsol. discriminate Hsol.
Qed.

(** ** The number of steps *)

Lemma py_int_floor (x : Q) : 0 <= x -> py_int x = Qfloor x.
Proof.
  destruct x as [n d]. unfold py_int, Qfloor, Qle. simpl. intros Hn.
  apply Z.quot_div_nonneg; lia.
Qed.

Lemma Qceiling_floor (x : Q) :
  Qceiling x = if Qeq_bool x (inject_Z (Qfloor x)) then Qfloor x
               else (Qfloor x + 1)%Z.
Proof.
  destruct (Qeq_bool x (inject_Z (Qfloor x))) eqn:E.
  - apply Qeq_bool_iff in E. rewrite (Qceiling_comp _ _ E) at 1.
    apply Qceiling_Z.
  - assert (Hne : ~ x == inject_Z (Qfloor x)).
    { intros H. apply Qeq_bool_iff in H. congruence. }
    pose proof (Qfloor_le x) as H1. pose proof (Qlt_floor x) as H2.
    pose proof (Qle_ceiling x) as H3. pose proof (Qceiling_lt x) as H4.
    assert (Hlt : inject_Z (Qfloor x) < x).
    { apply Qle_lteq in H1. destruct H1 as [H1|H1]; [exact H1|].
      exfalso. apply Hne. symmetry. exact H1. }
    assert (Ha : (Qfloor x < Qceiling x)%Z).
    { rewrite Zlt_Qlt. apply (Qlt_le_trans _ x); assumption. }
    assert (Hb : (Qceiling x - 1 < Qfloor x + 1)%Z).
    { rewrite Zlt_Qlt. apply (Qlt_trans _ x); assumption. }
    lia.
Qed.

Lemma Qfloor_lt (x : Q) (k : Z) : x < inject_Z k -> (Qfloor x < k)%Z.
Proof.
  intros H. rewrite Zlt_Qlt.
  apply (Qle_lt_trans _ x); [apply Qfloor_le | exact H].
Qed.

Lemma Qfloor_ge (x : Q) (k : Z) : inject_Z k <= x -> (k <= Qfloor x)%Z.
Proof.
  intros H. rewrite <- (Qfloor_Z k). apply Qfloor_resp_le. exact H.
Qed.

Lemma Qceiling_le_succ_floor (x : Q) : (Qceiling x <= Qfloor x + 1)%Z.
Proof.
  rewrite (Qceiling_floor x).
  destruct (Qeq_bool x (inject_Z (Qfloor x))); lia.
Qed.

Lemma floor_between (x q : Q) :
  inject_Z (Qfloor x) <= q <= inject_Z (Qceiling x) ->
  (Qfloor x <= Qfloor q <= Qceiling x)%Z.
Proof.
  intros (H1 & H2). split.
  - apply Qfloor_ge. exact H1.
  - rewrite <- (Qfloor_Z (Qceiling x)). apply Qfloor_resp_le. exact H2.
Qed.

Lemma ratio_nonneg (final_time ts : Q) :
  0 <= final_time -> 0 < ts -> 0 <= final_time / ts.
Proof.
  intros Hft Hts. apply Qle_shift_div_l; [exact Hts | lra].
Qed.

Lemma ratio_times (final_time ts : Q) :
  0 < ts -> final_time == final_time / ts * ts.
Proof.
  intros Hts. field. lra.
Qed.

Lemma inject_Z_pos (n : Z) : (1 <= n)%Z -> 0 < inject_Z n.
Proof.
  intros Hn. change 0 with (inject_Z 0). rewrite <- Zlt_Qlt. lia.
Qed.

(** The first division of the driver: for a non-negative final time and a
    positive timestep, a quotient that is not rounded across a whole
    number gives a step count of at least 1 that overshoots the final
    time. *)
Lemma num_steps_rounded (fdiv : float_division) (final_time ts : Q) :
  0 <= final_time -> 0 < ts ->
  rounds_between_integers fdiv final_time ts ->
  exists q n,
    fdiv final_time ts = Some q /\
    num_steps fdiv final_time ts = Some n /\
    0 <= q /\
    n = (Qfloor q + 1)%Z /\
    (Qfloor (final_time / ts) <= Qfloor q <= Qceiling (final_time / ts))%Z /\
    (1 <= n)%Z /\
    final_time < inject_Z n * ts.
Proof.
  intros Hft Hts (q & Hq & Hbetween).
  pose proof (ratio_nonneg _ _ Hft Hts) as Hr.
  assert (Hfl : (0 <= Qfloor (final_time / ts))%Z).
  { apply (Qfloor_ge _ 0). exact Hr. }
  assert (Hq0 : 0 <= q).
  { apply (Qle_trans _ (inject_Z (Qfloor (final_time / ts)))); [|apply Hbetween].
    change 0 with (inject_Z 0). rewrite <- Zle_Qle. exact Hfl. }
  pose proof (floor_between _ _ Hbetween) as Hfq.
  exists q, (Qfloor q + 1)%Z.
  split; [exact Hq|].
  split; [unfold num_steps; rewrite Hq, (py_int_floor q Hq0); reflexivity|].
  split; [exact Hq0|]. split; [reflexivity|]. split; [exact Hfq|].
  split; [lia|].
  pose proof (Qlt_floor (final_time / ts)) as Hlt.
  rewrite (ratio_times final_time ts Hts) at 1.
  apply Qmult_lt_compat_r; [exact Hts|].
  apply (Qlt_le_trans _ _ _ Hlt). rewrite <- Zle_Qle. lia.
Qed.

(** The second division: with a step count that overshoots, a quotient
    that is not rounded across the timestep does not exceed it. *)
Lemma dt_rounded (fdiv : float_division) (final_time ts : Q) (n : Z) :
  (1 <= n)%Z -> final_time < inject_Z n * ts ->
  rounds_below fdiv final_time (inject_Z n) ts ->
  exists dt,
    dt_of fdiv final_time n = Some dt /\
    fdiv final_time (inject_Z n) = Some dt /\
    dt <= ts.
Proof.
  intros Hn Hlt (dt & Hdt & Hbound).
  exists dt. split; [|split; [exact Hdt|]].
  - unfold dt_of. destruct (Z.eqb_spec n 0) as [E|_]; [lia | exact Hdt].
  - apply Hbound. apply Qle_shift_div_r; [apply inject_Z_pos; exact Hn|].
    apply Qlt_le_weak. rewrite (Qmult_comm ts). exact Hlt.
Qed.

(** Division without rounding has all the properties asked. *)
Lemma exact_div_some (a b : Q) : ~ b == 0 -> exact_div a b = Some (a / b).
Proof.
  intros H. unfold exact_div. destruct (Qeq_bool b 0) eqn:E; [|reflexivity].
  apply Qeq_bool_iff in E. contradiction.
Qed.

Lemma exact_div_rounds_between_integers (a b : Q) :
  ~ b == 0 -> rounds_between_integers exact_div a b.
Proof.
  intros H. exists (a / b). split; [apply exact_div_some; exact H|].
  split; [apply Qfloor_le | apply Qle_ceiling].
Qed.

Lemma exact_div_rounds_within (eps a b : Q) :
  0 <= eps -> ~ b == 0 -> rounds_within exact_div eps a b.
Proof.
  intros He H. exists (a / b). split; [apply exact_div_some; exact H|].
  assert (E : a / b - a / b == 0) by ring.
  rewrite E. change (Qabs 0) with 0.
  apply Qmult_le_0_compat; [exact He | apply Qabs_nonneg].
Qed.

Lemma exact_div_driver_rounds (final_time ts : Q) :
  0 <= final_time -> 0 < ts -> driver_rounds exact_div final_time ts.
Proof.
  intros Hft Hts.
  assert (Hne : ~ ts == 0) by lra.
  pose proof (exact_div_rounds_between_integers final_time ts Hne) as H1.
  split; [exact H1|].
  intros n Hn.
  destruct (num_steps_rounded exact_div final_time ts Hft Hts H1)
    as (q & n' & _ & Hn' & _ & _ & _ & Hpos & _).
  rewrite Hn in Hn'. injection Hn' as <-.
  pose proof (inject_Z_pos n Hpos) as Hnp.
  exists (final_time / inject_Z n).
  split; [apply exact_div_some; lra | intros H; exact H].
Qed.

Lemma exact_div_by_zero : division_by_zero_fails exact_div.
Proof.
  intros a b Hb. unfold exact_div.
  destruct (Qeq_bool b 0) eqn:E; [reflexivity|].
  exfalso. apply Qeq_bool_neq in E. contradiction.
Qed.

(** In float64 a quotient by zero is [inf] or [nan]. *)
Lemma binary64_div_by_zero : division_by_zero_fails binary64_div.
Proof.
  intros a b Hb. unfold binary64_div.
  assert (E : Q2SF b = S754_zero false).
  { unfold Q2SF. destruct b as [n d]. unfold Qeq in Hb. simpl in Hb.
    assert (Hn : n = 0%Z) by lia. subst n. reflexivity. }
  rewrite E. destruct (Q2SF a); reflexivity.
Qed.




(** ** The timestep *)

Lemma Qmin_cases (x y : Q) : (Qmin x y = x /\ x <= y) \/ (Qmin x y = y /\ y <= x).
Proof.
  unfold Qmin, GenericMinMax.gmin.
  destruct (x ?= y) eqn:E.
  - left. split; [reflexivity|]. apply Qeq_alt in E. rewrite E. apply Qle_refl.
  - left. split; [reflexivity|]. apply Qlt_alt in E. apply Qlt_le_weak. exact E.
  - right. split; [reflexivity|]. apply Qgt_alt in E. apply Qlt_le_weak. exact E.
Qed.

Lemma fold_min_spec (l : list Q) (x : Q) :
  In (fold_left Qmin l x) (x :: l) /\
  forall y, In y (x :: l) -> fold_left Qmin l x <= y.
Proof.
  revert x. induction l as [|a l IH]; intros x; simpl.
  - split; [left; reflexivity|]. intros y [<-|[]]. apply Qle_refl.
  - destruct (IH (Qmin x a)) as (Hin & Hle).
    destruct (Qmin_cases x a) as [(E & Hxa)|(E & Hax)]; rewrite E in *.
    + split.
      * destruct Hin as [Hin|Hin]; [left; exact Hin | right; right; exact Hin].
      * intros y [<-|[<-|Hy]].
        -- apply Hle. left. reflexivity.
        -- apply (Qle_trans _ x); [apply Hle; left; reflexivity | exact Hxa].
        -- apply Hle. right. exact Hy.
    + split.
      * right. exact Hin.
      * intros y [<-|[<-|Hy]].
        -- apply (Qle_trans _ a); [apply Hle; left; reflexivity | exact Hax].
        -- apply Hle. left. reflexivity.
        -- apply Hle. right. exact Hy.
Qed.

Lemma dx_min_spec (cell_sizes : list Q) :
  cell_sizes <> [] ->
  exists dxm, dx_min cell_sizes = Some dxm /\ In dxm cell_sizes /\
              forall x, In x cell_sizes -> dxm <= x.
Proof.
  destruct cell_sizes as [|x l]; [congruence|]. intros _.
  exists (fold_left Qmin l x). split; [reflexivity|]. apply fold_min_spec.
Qed.

Lemma timestep_pos (deg : degree) (dxm : Q) : 0 < dxm -> 0 < timestep deg dxm.
Proof.
  intros H. destruct deg; unfold timestep, u_max;
    repeat (apply Qlt_shift_div_l; [reflexivity|]); lra.
Qed.

(** C6. The timestep.  For a mesh with cells of positive size, a
    non-negative final time, a solve that succeeds and the two divisions
    of the driver rounded as float64 division rounds them, the run ends;
    the timestep is computed once, before the loop, as the smallest cell
    size divided by [u_max] and by the safety factor (2 for degree 0, 16
    for degree 1), so it satisfies the bound; the [dt] the loop steps with
    does not exceed it and is the same in every state the loop reaches. *)
Theorem cfl_timestep (fdiv : float_division) (solve : linear_solver)
    (V : FunctionSpace) (deg : degree)
    (cell_sizes init : list Q) (final_time : Q) :
  solver_succeeds solve V -> cell_sizes <> [] ->
  (forall x, In x cell_sizes -> 0 < x) -> 0 <= final_time ->
  (forall dxm, dx_min cell_sizes = Some dxm ->
               driver_rounds fdiv final_time (timestep deg dxm)) ->
  exists dxm st',
    dx_min cell_sizes = Some dxm /\
    In dxm cell_sizes /\ (forall x, In x cell_sizes -> dxm <= x) /\
    timestep deg dxm <= dxm / u_max / safety_factor deg /\
    advect fdiv solve V deg cell_sizes init final_time = Some st' /\
    sim_dt st' <= timestep deg dxm /\
    forall k st_k,
      time_loop solve V deg k (setup V init (sim_dt st')) = Some st_k ->
      sim_dt st_k = sim_dt st'.
Proof.
  intros Hsucc Hne Hpos Hft Hround.
  destruct (dx_min_spec cell_sizes Hne) as (dxm & Hdx & Hin & Hmin).
  pose proof (timestep_pos deg dxm (Hpos dxm Hin)) as Hts.
  destruct (Hround dxm Hdx) as (Hint & Hbelow).
  destruct (num_steps_rounded fdiv final_time (timestep deg dxm) Hft Hts Hint)
    as (q & n & _ & Hn & _ & _ & _ & Hn1 & Hover).
  destruct (dt_rounded fdiv final_time (timestep deg dxm) n Hn1 Hover (Hbelow n Hn))
    as (dt & Hdt & _ & Hle).
  destruct (time_loop_total solve V deg (Z.to_nat n) (setup V init dt) Hsucc)
    as [st' Hrun].
  assert (Hdt' : sim_dt st' = dt).
  { apply (time_loop_frame solve V deg _ _ st' (setup_wf V init dt) Hrun). }
  exists dxm, st'.
  split; [exact Hdx|]. split; [exact Hin|]. split; [exact Hmin|].
  split; [destruct deg; apply Qle_refl|].
  split; [unfold advect; rewrite Hdx, Hn, Hdt; exact Hrun|].
  split; [rewrite Hdt'; exact Hle|].
  intros k st_k Hk. rewrite Hdt' in *.
  apply (time_loop_frame solve V deg k _ st_k (setup_wf V init dt) Hk).
Qed.

Lemma cfl_timestep_witness :
  exists dxm st',
    dx_min [fifth; 3] = Some dxm /\
    advect binary64_div diag_solve (DG0 channel) P0 [fifth; 3] [4; 1] 1 = Some st' /\
    sim_dt st' <= timestep P0 dxm.
Proof.
  destruct (cfl_timestep binary64_div diag_solve (DG0 channel) P0 [fifth; 3] [4; 1] 1)
    as (dxm & st' & H1 & _ & _ & _ & H5 & H6 & _).
  - exact (diag_solve_succeeds channel channel_nondegenerate).
  - discriminate.
  - intros x [<-|[<-|[]]]; reflexivity.
  - discriminate.
  - intros dxm Hdxm. injection Hdxm as <-. split.
    + eexists. split; [vm_compute; reflexivity|]. split; vm_compute; discriminate.
    + intros n Hn. vm_compute in Hn. injection Hn as <-.
      eexists. split; [vm_compute; reflexivity|]. intros _. vm_compute. discriminate.
  - exists dxm, st'. repeat split; assumption.
Defined.

(** * Further properties of the notebook *)

(** ** The solver with a candidate inverse, and the degree-1 triangle *)

Lemma is_inverse_spec (n : nat) (A : nat -> nat -> Q) (B : list (list Q)) :
  is_inverse n A B = true ->
  forall i k, (i < n)%nat -> (k < n)%nat ->
    sum_over (fun j => A j i * entry B j k) (dofs n) == if Nat.eqb k i then 1 else 0.
Proof.
  unfold is_inverse. rewrite forallb_forall. intros H i k Hi Hk.
  specialize (H i (proj2 (in_dofs n i) Hi)). rewrite forallb_forall in H.
  apply Qeq_bool_iff. apply H. apply in_dofs. exact Hk.
Qed.

Lemma inverse_solve_sound (B : list (list Q)) : solver_sound (inverse_solve B).
Proof.
  intros n A b x Hsolve. unfold inverse_solve in Hsolve.
  destruct (is_inverse n A B) eqn:Hinv; [|discriminate].
  injection Hsolve as <-. split.
  - unfold dofs. rewrite length_map, length_seq. reflexivity.
  - intros i Hi.
    rewrite (sum_over_ext _
               (fun j => sum_over (fun k => A j i * entry B j k * b k) (dofs n))).
    + rewrite sum_over_exchange.
      rewrite (sum_over_ext _ (fun k => if Nat.eqb k i then b k else 0)).
      * unfold dofs. rewrite sum_over_pick. simpl.
        replace (i <? n)%nat with true by (symmetry; apply Nat.ltb_lt; exact Hi).
        reflexivity.
      * intros k Hk. apply in_dofs in Hk. rewrite sum_over_scal_r.
        rewrite (is_inverse_spec n A B Hinv i k Hi Hk).
        destruct (Nat.eqb k i); ring.
    + intros j Hj. apply in_dofs in Hj. rewrite coef_map_dofs by exact Hj.
      rewrite <- sum_over_scal_l. apply sum_over_ext. intros k _. ring.
Qed.

Lemma triangle_solver_succeeds :
  solver_succeeds (inverse_solve triangle_inverse) P1_triangle.
Proof.
  intros b. unfold inverse_solve.
  replace (is_inverse (dim P1_triangle) (M P1_triangle) triangle_inverse) with true
    by (vm_compute; reflexivity).
  discriminate.
Qed.

Lemma triangle_partition_of_unity : partition_of_unity P1_triangle.
Proof.
  unfold partition_of_unity. simpl.
  split; [|split]; intros p Hp;
    repeat match goal with
           | H : _ \/ _ |- _ => destruct H as [<-|H]
           | H : False |- _ => destruct H
           end; repeat split; vm_compute; reflexivity.
Qed.

(** ** Mass balance *)

Lemma mass_balance_loop (solve : linear_solver) (V : FunctionSpace) (deg : degree)
    (N : nat) (st st' : Simulation) :
  solver_sound solve -> partition_of_unity V -> sim_wf st ->
  time_loop solve V deg N st = Some st' ->
  mass V (state_of st')
  == mass V (state_of st) - sim_dt st * accumulated_boundary_flux solve V deg N st.
Proof.
  intros Hsound HV. revert st.
  induction N as [|N IH]; intros st Hwf Hrun; simpl in *.
  - injection Hrun as <-. ring.
  - destruct (step solve V deg st) as [st1|] eqn:Hstep; [|discriminate].
    destruct (step_inv solve V deg st st1 Hwf Hstep)
      as (x & _ & _ & _ & _ & Hdt & _ & _ & _ & Hwf1).
    rewrite (IH st1 Hwf1 Hrun), Hdt.
    rewrite (mass_balance_step solve V deg st st1 Hsound HV Hwf Hstep). ring.
Qed.

(** X1. Mass balance.  Whatever the boundary conditions and the degree, the
    loop changes the integral of the state by exactly [- dt] times the
    boundary fluxes ([in_flux + out_flux] tested against 1) added up over
    the steps taken: interior facets and the cell flux never create or
    destroy mass. *)
Theorem mass_balance (solve : linear_solver) (V : FunctionSpace) (deg : degree)
    (init : list Q) (dt : Q) (N : nat) :
  solver_sound solve -> solver_succeeds solve V -> partition_of_unity V ->
  exists st',
    time_loop solve V deg N (setup V init dt) = Some st' /\
    mass V (state_of st')
    == mass V init
       - dt * accumulated_boundary_flux solve V deg N (setup V init dt).
Proof.
  intros Hsound Hsucc HV.
  destruct (time_loop_total solve V deg N (setup V init dt) Hsucc) as [st' Hrun].
  exists st'. split; [exact Hrun|].
  exact (mass_balance_loop solve V deg N _ st' Hsound HV (setup_wf V init dt) Hrun).
Qed.

Lemma mass_balance_witness :
  exists st',
    time_loop diag_solve (DG0 channel) P0 2 (setup (DG0 channel) [4; 1] (1 # 2))
    = Some st' /\
    mass (DG0 channel) (state_of st')
    == mass (DG0 channel) [4; 1]
       - (1 # 2) * accumulated_boundary_flux diag_solve (DG0 channel) P0 2
                     (setup (DG0 channel) [4; 1] (1 # 2)).
Proof.
  apply (mass_balance diag_solve (DG0 channel) P0 [4; 1] (1 # 2) 2).
  - exact diag_solve_sound.
  - exact (diag_solve_succeeds channel channel_nondegenerate).
  - exact (DG0_partition_of_unity channel channel_wf).
Defined.

(** ** The degree-0 scheme cell by cell *)

Lemma sum_over_le {A : Type} (f g : A -> Q) (l : list A) :
  (forall a, In a l -> f a <= g a) -> sum_over f l <= sum_over g l.
Proof.
  induction l as [|a l IH]; intros Hfg; simpl.
  - apply Qle_refl.
  - apply Qplus_le_compat.
    + apply Hfg. left. reflexivity.
    + apply IH. intros b Hb. apply Hfg. right. exact Hb.
Qed.

Lemma F_ext (h h' : Q) (u n : vec2) : h == h' -> F h u n == F h' u n.
Proof. intros E. unfold F. rewrite E. reflexivity. Qed.

Lemma inner_vneg (u n : vec2) : inner u (vneg n) == - inner u n.
Proof. unfold inner, vneg. simpl. ring. Qed.

Lemma max_value_ext (a b : Q) : a == b -> max_value a 0 == max_value b 0.
Proof. intros E. unfold max_value. rewrite E. reflexivity. Qed.

(** Across a facet the difference of the two one-sided fluxes is the upwind
    value times the normal velocity. *)
Lemma F_jump (h_plus h_minus : Q) (u n : vec2) :
  F h_plus u n - F h_minus u (vneg n)
  == upwind_value h_plus h_minus (inner u n) * inner u n.
Proof.
  unfold F, upwind_value.
  rewrite (max_value_ext _ _ (inner_vneg u n)).
  destruct (Qle_bool 0 (inner u n)) eqn:E.
  - apply Qle_bool_iff in E.
    rewrite (max_value_nonneg _ E), max_value_nonpos by lra. ring.
  - apply Qle_bool_false in E.
    rewrite (max_value_nonpos (inner u n)), max_value_nonneg by lra. ring.
Qed.

Lemma DG0_cell_flux_zero (m : Mesh) (h : list Q) (i : nat) :
  cell_flux (DG0 m) h i == 0.
Proof.
  unfold cell_flux. apply sum_over_zero. intros p Hp. simpl in Hp.
  apply in_map_iff in Hp. destruct Hp as (p0 & <- & _).
  unfold cell_flux_integrand, inner. simpl. rewrite nth_repeat. simpl. ring.
Qed.

Lemma DG0_edge_flux (m : Mesh) (h : list Q) (i : nat) :
  mesh_wf m -> (i < num_cells m)%nat ->
  edge_flux (DG0 m) h i
  == sum_over (fun p => mi_weight p *
        ((if Nat.eqb (mi_plus p) i then facet_flux h p else 0)
         - (if Nat.eqb (mi_minus p) i then facet_flux h p else 0))) (mesh_dS m).
Proof.
  intros (_ & HS & _) Hi. rewrite Forall_forall in HS.
  unfold edge_flux. simpl. rewrite sum_over_map. apply sum_over_ext.
  intros p Hp. destruct (HS p Hp) as (Hplus & Hminus).
  unfold edge_flux_integrand, F_plus, F_minus. simpl.
  rewrite (F_ext _ _ _ _ (eval_indicator _ _ h Hplus)).
  rewrite (F_ext _ _ _ _ (eval_indicator _ _ h Hminus)).
  rewrite F_jump. rewrite !coef_indicator by exact Hi.
  fold (facet_flux h p).
  rewrite (Nat.eqb_sym i (mi_plus p)), (Nat.eqb_sym i (mi_minus p)).
  destruct (Nat.eqb (mi_plus p) i), (Nat.eqb (mi_minus p) i); ring.
Qed.

Lemma DG0_boundary_terms (m : Mesh) (h_in h : list Q) (i : nat) :
  mesh_wf m -> (i < num_cells m)%nat ->
  in_flux (DG0 m) h_in i + out_flux (DG0 m) h i
  == sum_over (fun p => me_weight p *
        (if Nat.eqb (me_cell p) i then boundary_facet_flux h_in h p else 0))
       (mesh_ds m).
Proof.
  intros (_ & _ & Hs) Hi. rewrite Forall_forall in Hs.
  unfold in_flux, out_flux. simpl. rewrite !sum_over_map, <- sum_over_plus.
  apply sum_over_ext. intros p Hp. specialize (Hs p Hp).
  unfold in_flux_integrand, out_flux_integrand. simpl.
  rewrite !eval_indicator by exact Hs. rewrite coef_indicator by exact Hi.
  rewrite (Nat.eqb_sym i (me_cell p)).
  unfold boundary_facet_flux, upwind_value.
  destruct (Nat.eqb (me_cell p) i); [|ring].
  destruct (Qle_bool 0 (inner (me_u p) (me_n p))) eqn:E.
  - apply Qle_bool_iff in E.
    rewrite min_value_nonneg, max_value_nonneg by lra. ring.
  - apply Qle_bool_false in E.
    rewrite min_value_nonpos, max_value_nonpos by lra. ring.
Qed.

Lemma DG0_dh_dt (m : Mesh) (deg : degree) (h_in h : list Q) (i : nat) :
  mesh_wf m -> (i < num_cells m)%nat ->
  dh_dt (DG0 m) deg h_in h i == - fv_outflow m h_in h i.
Proof.
  intros Hwf Hi. unfold fv_outflow.
  rewrite <- (DG0_edge_flux m h i Hwf Hi).
  rewrite <- (DG0_boundary_terms m h_in h i Hwf Hi).
  destruct deg; unfold dh_dt; [|rewrite DG0_cell_flux_zero]; ring.
Qed.

(** The increment of one step in a piecewise-constant space. *)
Lemma DG0_step (solve : linear_solver) (m : Mesh) (deg : degree)
    (st st' : Simulation) (i : nat) :
  solver_sound solve -> mesh_wf m -> sim_wf st -> (i < num_cells m)%nat ->
  step solve (DG0 m) deg st = Some st' ->
  cell_volume m i * coef (state_of st') i
  == cell_volume m i * coef (state_of st) i
     - sim_dt st * fv_outflow m (inflow_of st) (state_of st) i.
Proof.
  intros Hsound Hwf Hst Hi Hstep.
  destruct (step_inv solve (DG0 m) deg st st' Hst Hstep) as (x & Hx & _ & Hs' & _).
  destruct (Hsound _ _ _ _ Hx) as (_ & Hsol).
  specialize (Hsol i Hi). simpl dim in Hsol.
  rewrite DG0_matvec in Hsol by exact Hi.
  unfold rhs in Hsol. rewrite (DG0_dh_dt m deg _ _ i Hwf Hi) in Hsol.
  rewrite Hs'. simpl dim. rewrite coef_vadd by exact Hi.
  rewrite Qmult_plus_distr_r, Hsol. ring.
Qed.

(** ** Bounds on what leaves a cell *)

Lemma triple_nonneg (a b c : Q) : 0 <= a -> 0 <= b -> 0 <= c -> 0 <= a * b * c.
Proof. intros Ha Hb Hc. repeat apply Qmult_le_0_compat; assumption. Qed.

(** Seen from the side the normal leaves. *)
Lemma upwind_out_lower (w c h_here h_there un : Q) :
  0 <= w -> c <= h_here -> c <= h_there ->
  w * (upwind_value h_here h_there un * un)
  <= (h_here - c) * (w * max_value un 0) + c * (w * un).
Proof.
  intros Hw Hh Ht. unfold upwind_value.
  destruct (Qle_bool 0 un) eqn:E.
  - apply Qle_bool_iff in E. rewrite (max_value_nonneg _ E).
    apply Qle_lteq. right. ring.
  - apply Qle_bool_false in E. rewrite max_value_nonpos by lra.
    pose proof (triple_nonneg w (h_there - c) (- un) Hw) as H.
    assert (0 <= w * (h_there - c) * - un) by (apply H; lra). lra.
Qed.

Lemma upwind_out_upper (w c h_here h_there un : Q) :
  0 <= w -> h_here <= c -> h_there <= c ->
  (h_here - c) * (w * max_value un 0) + c * (w * un)
  <= w * (upwind_value h_here h_there un * un).
Proof.
  intros Hw Hh Ht. unfold upwind_value.
  destruct (Qle_bool 0 un) eqn:E.
  - apply Qle_bool_iff in E. rewrite (max_value_nonneg _ E).
    apply Qle_lteq. right. ring.
  - apply Qle_bool_false in E. rewrite max_value_nonpos by lra.
    pose proof (triple_nonneg w (c - h_there) (- un) Hw) as H.
    assert (0 <= w * (c - h_there) * - un) by (apply H; lra). lra.
Qed.

(** Seen from the side the normal enters. *)
Lemma upwind_in_lower (w c h_here h_there un : Q) :
  0 <= w -> c <= h_here -> c <= h_there ->
  - (w * (upwind_value h_there h_here un * un))
  <= (h_here - c) * (w * max_value (- un) 0) - c * (w * un).
Proof.
  intros Hw Hh Ht. unfold upwind_value.
  destruct (Qle_bool 0 un) eqn:E.
  - apply Qle_bool_iff in E. rewrite max_value_nonpos by lra.
    pose proof (triple_nonneg w (h_there - c) un Hw) as H.
    assert (0 <= w * (h_there - c) * un) by (apply H; lra). lra.
  - apply Qle_bool_false in E. rewrite max_value_nonneg by lra.
    apply Qle_lteq. right. ring.
Qed.

Lemma upwind_in_upper (w c h_here h_there un : Q) :
  0 <= w -> h_here <= c -> h_there <= c ->
  (h_here - c) * (w * max_value (- un) 0) - c * (w * un)
  <= - (w * (upwind_value h_there h_here un * un)).
Proof.
  intros Hw Hh Ht. unfold upwind_value.
  destruct (Qle_bool 0 un) eqn:E.
  - apply Qle_bool_iff in E. rewrite max_value_nonpos by lra.
    pose proof (triple_nonneg w (c - h_there) un Hw) as H.
    assert (0 <= w * (c - h_there) * un) by (apply H; lra). lra.
  - apply Qle_bool_false in E. rewrite max_value_nonneg by lra.
    apply Qle_lteq. right. ring.
Qed.

(** The right-hand side of the two bounds, cell by cell. *)
Lemma bound_rhs (m : Mesh) (c h_i : Q) (i : nat) :
  (h_i - c) * outflow_rate m i + c * net_outflow_rate m i
  == sum_over (fun p =>
        (h_i - c) * (mi_weight p *
           ((if Nat.eqb (mi_plus p) i
             then max_value (inner (mi_u p) (mi_n p)) 0 else 0)
            + (if Nat.eqb (mi_minus p) i
               then max_value (- inner (mi_u p) (mi_n p)) 0 else 0)))
        + c * (mi_weight p *
           ((if Nat.eqb (mi_plus p) i then inner (mi_u p) (mi_n p) else 0)
            - (if Nat.eqb (mi_minus p) i then inner (mi_u p) (mi_n p) else 0))))
       (mesh_dS m)
     + sum_over (fun p =>
        (h_i - c) * (me_weight p *
           (if Nat.eqb (me_cell p) i
            then max_value (inner (me_u p) (me_n p)) 0 else 0))
        + c * (me_weight p *
           (if Nat.eqb (me_cell p) i then inner (me_u p) (me_n p) else 0)))
       (mesh_ds m).
Proof.
  unfold outflow_rate, net_outflow_rate.
  rewrite !sum_over_plus, !sum_over_scal_l. ring.
Qed.

Lemma fv_outflow_lower (m : Mesh) (c : Q) (h_in h : list Q) (i : nat) :
  mesh_wf m -> mesh_nonneg_weights m -> (i < num_cells m)%nat ->
  bounded_below (num_cells m) c h -> bounded_below (num_cells m) c h_in ->
  fv_outflow m h_in h i
  <= (coef h i - c) * outflow_rate m i + c * net_outflow_rate m i.
Proof.
  intros (_ & HS & Hs) (_ & WS & Ws) Hi Hh Hin.
  rewrite Forall_forall in HS, Hs, WS, Ws.
  rewrite bound_rhs. unfold fv_outflow.
  apply Qplus_le_compat; apply sum_over_le; intros p Hp.
  - destruct (HS p Hp) as (Hplus & Hminus). specialize (WS p Hp). simpl in WS.
    unfold facet_flux.
    pose proof (upwind_out_lower (mi_weight p) c (coef h (mi_plus p))
                  (coef h (mi_minus p)) (inner (mi_u p) (mi_n p)) WS
                  (Hh _ Hplus) (Hh _ Hminus)) as Hout.
    pose proof (upwind_in_lower (mi_weight p) c (coef h (mi_minus p))
                  (coef h (mi_plus p)) (inner (mi_u p) (mi_n p)) WS
                  (Hh _ Hminus) (Hh _ Hplus)) as Hinn.
    destruct (Nat.eqb_spec (mi_plus p) i) as [E1|_];
      destruct (Nat.eqb_spec (mi_minus p) i) as [E2|_];
      try rewrite E1 in *; try rewrite E2 in *; lra.
  - specialize (Hs p Hp). specialize (Ws p Hp). simpl in Hs, Ws.
    unfold boundary_facet_flux.
    pose proof (upwind_out_lower (me_weight p) c (coef h (me_cell p))
                  (coef h_in (me_cell p)) (inner (me_u p) (me_n p)) Ws
                  (Hh _ Hs) (Hin _ Hs)) as Hout.
    destruct (Nat.eqb_spec (me_cell p) i) as [E|_]; [rewrite E in *|]; lra.
Qed.

Lemma fv_outflow_upper (m : Mesh) (c : Q) (h_in h : list Q) (i : nat) :
  mesh_wf m -> mesh_nonneg_weights m -> (i < num_cells m)%nat ->
  bounded_above (num_cells m) c h -> bounded_above (num_cells m) c h_in ->
  (coef h i - c) * outflow_rate m i + c * net_outflow_rate m i
  <= fv_outflow m h_in h i.
Proof.
  intros (_ & HS & Hs) (_ & WS & Ws) Hi Hh Hin.
  rewrite Forall_forall in HS, Hs, WS, Ws.
  rewrite bound_rhs. unfold fv_outflow.
  apply Qplus_le_compat; apply sum_over_le; intros p Hp.
  - destruct (HS p Hp) as (Hplus & Hminus). specialize (WS p Hp). simpl in WS.
    unfold facet_flux.
    pose proof (upwind_out_upper (mi_weight p) c (coef h (mi_plus p))
                  (coef h (mi_minus p)) (inner (mi_u p) (mi_n p)) WS
                  (Hh _ Hplus) (Hh _ Hminus)) as Hout.
    pose proof (upwind_in_upper (mi_weight p) c (coef h (mi_minus p))
                  (coef h (mi_plus p)) (inner (mi_u p) (mi_n p)) WS
                  (Hh _ Hminus) (Hh _ Hplus)) as Hinn.
    destruct (Nat.eqb_spec (mi_plus p) i) as [E1|_];
      destruct (Nat.eqb_spec (mi_minus p) i) as [E2|_];
      try rewrite E1 in *; try rewrite E2 in *; lra.
  - specialize (Hs p Hp). specialize (Ws p Hp). simpl in Hs, Ws.
    unfold boundary_facet_flux.
    pose proof (upwind_out_upper (me_weight p) c (coef h (me_cell p))
                  (coef h_in (me_cell p)) (inner (me_u p) (me_n p)) Ws
                  (Hh _ Hs) (Hin _ Hs)) as Hout.
    destruct (Nat.eqb_spec (me_cell p) i) as [E|_]; [rewrite E in *|]; lra.
Qed.

(** X2. Finite-volume form of the degree-0 scheme.  In a piecewise-constant
    space on a well-formed mesh both forms of [dh_dt] are, for the test
    function of cell [i], minus the upwind fluxes through the facets of the
    cell, each facet flux counted once as leaving its "+" cell and
    entering its "-" cell; one step changes the content of the cell,
    area times value, by [- dt] times that outflow. *)
Theorem finite_volume_scheme (solve : linear_solver) (m : Mesh) (deg : degree)
    (st : Simulation) :
  solver_sound solve -> solver_succeeds solve (DG0 m) -> mesh_wf m -> sim_wf st ->
  exists st',
    step solve (DG0 m) deg st = Some st' /\
    forall i, (i < num_cells m)%nat ->
      dh_dt (DG0 m) deg (inflow_of st) (state_of st) i
      == - fv_outflow m (inflow_of st) (state_of st) i /\
      cell_volume m i * coef (state_of st') i
      == cell_volume m i * coef (state_of st) i
         - sim_dt st * fv_outflow m (inflow_of st) (state_of st) i.
Proof.
  intros Hsound Hsucc Hwf Hst.
  destruct (step_total solve (DG0 m) deg st Hsucc) as [st' Hstep].
  exists st'. split; [exact Hstep|]. intros i Hi. split.
  - apply DG0_dh_dt; assumption.
  - apply (DG0_step solve m deg st st' i); assumption.
Qed.

Lemma finite_volume_scheme_witness :
  exists st',
    step diag_solve (DG0 channel) P0 (setup (DG0 channel) [4; 1] (1 # 2)) = Some st' /\
    cell_volume channel 1 * coef (state_of st') 1
    == cell_volume channel 1 * coef [4; 1] 1
       - (1 # 2) * fv_outflow channel [4; 1] [4; 1] 1.
Proof.
  destruct (finite_volume_scheme diag_solve channel P0
              (setup (DG0 channel) [4; 1] (1 # 2))
              diag_solve_sound
              (diag_solve_succeeds channel channel_nondegenerate)
              channel_wf (setup_wf (DG0 channel) [4; 1] (1 # 2)))
    as (st' & Hstep & Hcells).
  exists st'. split; [exact Hstep|].
  apply (Hcells 1%nat). simpl. lia.
Defined.

(** ** Positivity and the maximum principle in degree 0 *)

Lemma DG0_step_lower (solve : linear_solver) (m : Mesh) (deg : degree) (c : Q)
    (st st' : Simulation) (i : nat) :
  solver_sound solve -> mesh_wf m -> mesh_nonneg_weights m -> sim_wf st ->
  (i < num_cells m)%nat -> 0 < cell_volume m i -> 0 <= sim_dt st ->
  sim_dt st * outflow_rate m i <= cell_volume m i ->
  c * net_outflow_rate m i == 0 ->
  bounded_below (num_cells m) c (state_of st) ->
  bounded_below (num_cells m) c (inflow_of st) ->
  step solve (DG0 m) deg st = Some st' ->
  c <= coef (state_of st') i.
Proof.
  intros Hsound Hwf Hw Hst Hi Hvol Hdt Hcfl Hdiv Hh Hin Hstep.
  pose proof (DG0_step solve m deg st st' i Hsound Hwf Hst Hi Hstep) as Hnew.
  pose proof (fv_outflow_lower m c _ _ i Hwf Hw Hi Hh Hin) as Hfv.
  specialize (Hh i Hi).
  set (dt := sim_dt st) in *. set (vol := cell_volume m i) in *.
  set (fv := fv_outflow m (inflow_of st) (state_of st) i) in *.
  set (out := outflow_rate m i) in *. set (D := net_outflow_rate m i) in *.
  set (h_i := coef (state_of st) i) in *.
  assert (H1 : 0 <= dt * ((h_i - c) * out + c * D - fv))
    by (apply Qmult_le_0_compat; lra).
  assert (H2 : 0 <= (h_i - c) * (vol - dt * out))
    by (apply Qmult_le_0_compat; lra).
  assert (H3 : dt * (c * D) == 0) by (rewrite Hdiv; ring).
  apply (Qmult_le_l _ _ vol Hvol). rewrite Hnew. lra.
Qed.

Lemma DG0_step_upper (solve : linear_solver) (m : Mesh) (deg : degree) (c : Q)
    (st st' : Simulation) (i : nat) :
  solver_sound solve -> mesh_wf m -> mesh_nonneg_weights m -> sim_wf st ->
  (i < num_cells m)%nat -> 0 < cell_volume m i -> 0 <= sim_dt st ->
  sim_dt st * outflow_rate m i <= cell_volume m i ->
  c * net_outflow_rate m i == 0 ->
  bounded_above (num_cells m) c (state_of st) ->
  bounded_above (num_cells m) c (inflow_of st) ->
  step solve (DG0 m) deg st = Some st' ->
  coef (state_of st') i <= c.
Proof.
  intros Hsound Hwf Hw Hst Hi Hvol Hdt Hcfl Hdiv Hh Hin Hstep.
  pose proof (DG0_step solve m deg st st' i Hsound Hwf Hst Hi Hstep) as Hnew.
  pose proof (fv_outflow_upper m c _ _ i Hwf Hw Hi Hh Hin) as Hfv.
  specialize (Hh i Hi).
  set (dt := sim_dt st) in *. set (vol := cell_volume m i) in *.
  set (fv := fv_outflow m (inflow_of st) (state_of st) i) in *.
  set (out := outflow_rate m i) in *. set (D := net_outflow_rate m i) in *.
  set (h_i := coef (state_of st) i) in *.
  assert (H1 : 0 <= dt * (fv - ((h_i - c) * out + c * D)))
    by (apply Qmult_le_0_compat; lra).
  assert (H2 : 0 <= (c - h_i) * (vol - dt * out))
    by (apply Qmult_le_0_compat; lra).
  assert (H3 : dt * (c * D) == 0) by (rewrite Hdiv; ring).
  apply (Qmult_le_l _ _ vol Hvol). rewrite Hnew. lra.
Qed.

Lemma DG0_loop_lower (solve : linear_solver) (m : Mesh) (deg : degree) (c : Q)
    (N : nat) (st st' : Simulation) :
  solver_sound solve -> mesh_wf m -> mesh_nonneg_weights m ->
  (forall i, (i < num_cells m)%nat -> 0 < cell_volume m i) ->
  (forall i, (i < num_cells m)%nat -> c * net_outflow_rate m i == 0) ->
  0 <= sim_dt st -> cfl m (sim_dt st) -> sim_wf st ->
  bounded_below (num_cells m) c (state_of st) ->
  bounded_below (num_cells m) c (inflow_of st) ->
  time_loop solve (DG0 m) deg N st = Some st' ->
  bounded_below (num_cells m) c (state_of st').
Proof.
  intros Hsound Hwf Hw Hvol Hdiv. revert st.
  induction N as [|N IH]; intros st Hdt Hcfl Hst Hh Hin Hrun; simpl in Hrun.
  - injection Hrun as <-. exact Hh.
  - destruct (step solve (DG0 m) deg st) as [st1|] eqn:Hstep; [|discriminate].
    destruct (step_inv solve (DG0 m) deg st st1 Hst Hstep)
      as (x & _ & _ & _ & Hin1 & Hdt1 & _ & _ & _ & Hst1).
    apply (IH st1); try assumption.
    + rewrite Hdt1. exact Hdt.
    + rewrite Hdt1. exact Hcfl.
    + intros i Hi.
      apply (DG0_step_lower solve m deg c st st1 i); auto.
    + rewrite Hin1. exact Hin.
Qed.

Lemma DG0_loop_upper (solve : linear_solver) (m : Mesh) (deg : degree) (c : Q)
    (N : nat) (st st' : Simulation) :
  solver_sound solve -> mesh_wf m -> mesh_nonneg_weights m ->
  (forall i, (i < num_cells m)%nat -> 0 < cell_volume m i) ->
  (forall i, (i < num_cells m)%nat -> c * net_outflow_rate m i == 0) ->
  0 <= sim_dt st -> cfl m (sim_dt st) -> sim_wf st ->
  bounded_above (num_cells m) c (state_of st) ->
  bounded_above (num_cells m) c (inflow_of st) ->
  time_loop solve (DG0 m) deg N st = Some st' ->
  bounded_above (num_cells m) c (state_of st').
Proof.
  intros Hsound Hwf Hw Hvol Hdiv. revert st.
  induction N as [|N IH]; intros st Hdt Hcfl Hst Hh Hin Hrun; simpl in Hrun.
  - injection Hrun as <-. exact Hh.
  - destruct (step solve (DG0 m) deg st) as [st1|] eqn:Hstep; [|discriminate].
    destruct (step_inv solve (DG0 m) deg st st1 Hst Hstep)
      as (x & _ & _ & _ & Hin1 & Hdt1 & _ & _ & _ & Hst1).
    apply (IH st1); try assumption.
    + rewrite Hdt1. exact Hdt.
    + rewrite Hdt1. exact Hcfl.
    + intros i Hi.
      apply (DG0_step_upper solve m deg c st st1 i); auto.
    + rewrite Hin1. exact Hin.
Qed.

(** X3. Positivity in degree 0.  On a mesh with non-negative weights and
    cells of positive area, with [0 <= dt] and the CFL condition (in one
    step no cell loses more than its content), a non-negative initial
    condition gives a non-negative state after every number of steps: the
    undershoot the notebook observes in degree 1 cannot happen in degree
    0. *)
Theorem positivity_DG0 (solve : linear_solver) (m : Mesh) (deg : degree)
    (init : list Q) (dt : Q) (N : nat) :
  solver_sound solve -> solver_succeeds solve (DG0 m) ->
  mesh_wf m -> mesh_nonneg_weights m ->
  (forall i, (i < num_cells m)%nat -> 0 < cell_volume m i) ->
  0 <= dt -> cfl m dt ->
  bounded_below (num_cells m) 0 init ->
  exists st',
    time_loop solve (DG0 m) deg N (setup (DG0 m) init dt) = Some st' /\
    bounded_below (num_cells m) 0 (state_of st').
Proof.
  intros Hsound Hsucc Hwf Hw Hvol Hdt Hcfl Hinit.
  destruct (time_loop_total solve (DG0 m) deg N (setup (DG0 m) init dt) Hsucc)
    as [st' Hrun].
  exists st'. split; [exact Hrun|].
  apply (DG0_loop_lower solve m deg 0 N (setup (DG0 m) init dt) st');
    try assumption.
  - intros i _. ring.
  - apply setup_wf.
Qed.

(** X4. Maximum principle in degree 0.  If moreover the velocity is
    discretely divergence-free (the normal velocities over the facets of
    each cell add up to zero), the state stays between any two constants
    that bound the initial condition; in particular a constant state is
    left unchanged. *)
Theorem maximum_principle_DG0 (solve : linear_solver) (m : Mesh) (deg : degree)
    (init : list Q) (dt lo hi : Q) (N : nat) :
  solver_sound solve -> solver_succeeds solve (DG0 m) ->
  mesh_wf m -> mesh_nonneg_weights m ->
  (forall i, (i < num_cells m)%nat -> 0 < cell_volume m i) ->
  divergence_free m ->
  0 <= dt -> cfl m dt ->
  bounded_below (num_cells m) lo init -> bounded_above (num_cells m) hi init ->
  exists st',
    time_loop solve (DG0 m) deg N (setup (DG0 m) init dt) = Some st' /\
    bounded_below (num_cells m) lo (state_of st') /\
    bounded_above (num_cells m) hi (state_of st').
Proof.
  intros Hsound Hsucc Hwf Hw Hvol Hdiv Hdt Hcfl Hlo Hhi.
  destruct (time_loop_total solve (DG0 m) deg N (setup (DG0 m) init dt) Hsucc)
    as [st' Hrun].
  exists st'. split; [exact Hrun|]. split.
  - apply (DG0_loop_lower solve m deg lo N (setup (DG0 m) init dt) st');
      try assumption.
    + intros i Hi. rewrite (Hdiv i Hi). ring.
    + apply setup_wf.
  - apply (DG0_loop_upper solve m deg hi N (setup (DG0 m) init dt) st');
      try assumption.
    + intros i Hi. rewrite (Hdiv i Hi). ring.
    + apply setup_wf.
Qed.

Ltac two_cells_Q i Hi :=
  destruct i as [|[|i]]; [ vm_compute | vm_compute | simpl in Hi; lia ].

Lemma channel_nonneg_weights : mesh_nonneg_weights channel.
Proof.
  unfold mesh_nonneg_weights, channel; simpl.
  repeat split; repeat constructor; simpl; discriminate.
Qed.

Lemma ring_nonneg_weights : mesh_nonneg_weights ring.
Proof.
  unfold mesh_nonneg_weights, ring; simpl.
  repeat split; repeat constructor; simpl; discriminate.
Qed.

Lemma channel_volumes (i : nat) : (i < num_cells channel)%nat -> 0 < cell_volume channel i.
Proof. intros Hi. two_cells_Q i Hi; reflexivity. Qed.

Lemma ring_volumes (i : nat) : (i < num_cells ring)%nat -> 0 < cell_volume ring i.
Proof. intros Hi. two_cells_Q i Hi; reflexivity. Qed.

Lemma channel_cfl : cfl channel (1 # 2).
Proof. intros i Hi. two_cells_Q i Hi; discriminate. Qed.

Lemma ring_cfl : cfl ring (1 # 2).
Proof. intros i Hi. two_cells_Q i Hi; discriminate. Qed.

Lemma ring_divergence_free : divergence_free ring.
Proof. intros i Hi. two_cells_Q i Hi; reflexivity. Qed.

Lemma positivity_DG0_witness :
  exists st',
    time_loop diag_solve (DG0 channel) P0 3 (setup (DG0 channel) [4; 0] (1 # 2))
    = Some st' /\
    bounded_below 2 0 (state_of st').
Proof.
  apply (positivity_DG0 diag_solve channel P0 [4; 0] (1 # 2) 3).
  - exact diag_solve_sound.
  - exact (diag_solve_succeeds channel channel_nondegenerate).
  - exact channel_wf.
  - exact channel_nonneg_weights.
  - exact channel_volumes.
  - discriminate.
  - exact channel_cfl.
  - intros j Hj. two_cells_Q j Hj; discriminate.
Defined.

Lemma maximum_principle_DG0_witness :
  exists st',
    time_loop diag_solve (DG0 ring) P0 3 (setup (DG0 ring) [4; 1] (1 # 2))
    = Some st' /\
    bounded_below 2 1 (state_of st') /\ bounded_above 2 4 (state_of st').
Proof.
  apply (maximum_principle_DG0 diag_solve ring P0 [4; 1] (1 # 2) 1 4 3).
  - exact diag_solve_sound.
  - exact (diag_solve_succeeds ring ring_nondegenerate).
  - exact ring_wf.
  - exact ring_nonneg_weights.
  - exact ring_volumes.
  - exact ring_divergence_free.
  - discriminate.
  - exact ring_cfl.
  - intros j Hj. two_cells_Q j Hj; discriminate.
  - intros j Hj. two_cells_Q j Hj; discriminate.
Defined.

(** ** Undershoot in degree 1 *)

Lemma triangle_mass_matrix (j i : nat) :
  (j < 3)%nat -> (i < 3)%nat ->
  M P1_triangle j i == if Nat.eqb j i then 1 else 1 # 2.
Proof.
  intros Hj Hi.
  destruct j as [|[|[|j]]]; try lia; destruct i as [|[|[|i]]]; try lia;
    vm_compute; reflexivity.
Qed.

Lemma triangle_rate (i : nat) :
  (i < 3)%nat ->
  dh_dt P1_triangle P1 [0; 1; 0] [0; 1; 0] i == - (1 # 2).
Proof.
  intros Hi. destruct i as [|[|[|i]]]; try lia; vm_compute; reflexivity.
Qed.

(** X5. Undershoot in degree 1.  On the degree-1 triangle with the
    constant velocity (1, 0), take the non-negative initial condition x/4
    (0 at A and C, 1 at B), which is 0 on the inflow edge.  One step takes
    it, for every positive [dt], to the state with coefficients
    [- dt/4], [1 - dt/4], [- dt/4]: the values at A and C are negative, so
    no choice of the timestep keeps the degree-1 scheme non-negative. *)
Theorem degree1_undershoot (dt : Q) :
  0 < dt ->
  bounded_below 3 0 [0; 1; 0] /\
  exists st',
    step (inverse_solve triangle_inverse) P1_triangle P1
         (setup P1_triangle [0; 1; 0] dt) = Some st' /\
    coef (state_of st') 0 == - (dt / 4) /\
    coef (state_of st') 1 == 1 - dt / 4 /\
    coef (state_of st') 2 == - (dt / 4) /\
    coef (state_of st') 0 < 0 /\
    coef (state_of st') 2 < 0.
Proof.
  intros Hdt. split.
  { intros j Hj. destruct j as [|[|[|j]]]; try lia; discriminate. }
  destruct (step_total (inverse_solve triangle_inverse) P1_triangle P1
              (setup P1_triangle [0; 1; 0] dt) triangle_solver_succeeds)
    as [st' Hstep].
  exists st'. split; [exact Hstep|].
  destruct (step_inv _ _ _ _ st' (setup_wf P1_triangle [0; 1; 0] dt) Hstep)
    as (x & Hx & _ & Hst & _).
  destruct (inverse_solve_sound triangle_inverse _ _ _ _ Hx) as (_ & Hsol).
  assert (Hrhs : forall i, (i < 3)%nat ->
            rhs P1_triangle P1 (setup P1_triangle [0; 1; 0] dt) i
            == dt * - (1 # 2)).
  { intros i Hi. unfold rhs.
    change (inflow_of (setup P1_triangle [0; 1; 0] dt)) with [0; 1; 0].
    change (state_of (setup P1_triangle [0; 1; 0] dt)) with [0; 1; 0].
    change (sim_dt (setup P1_triangle [0; 1; 0] dt)) with dt.
    rewrite (triangle_rate i Hi). reflexivity. }
  assert (Hrow : forall i, (i < 3)%nat ->
            M P1_triangle 0 i * coef x 0 + M P1_triangle 1 i * coef x 1
            + M P1_triangle 2 i * coef x 2
            == dt * - (1 # 2)).
  { intros i Hi. rewrite <- (Hrhs i Hi), <- (Hsol i Hi).
    change (dim P1_triangle) with 3%nat. unfold dofs. simpl seq. simpl sum_over.
    ring. }
  pose proof (Hrow 0%nat ltac:(lia)) as R0.
  pose proof (Hrow 1%nat ltac:(lia)) as R1.
  pose proof (Hrow 2%nat ltac:(lia)) as R2.
  rewrite !triangle_mass_matrix in R0, R1, R2 by lia. simpl Nat.eqb in R0, R1, R2.
  cbv iota in R0, R1, R2.
  assert (Hc : forall j, (j < 3)%nat ->
            coef (state_of st') j == coef [0; 1; 0] j - dt / 4).
  { intros j Hj. rewrite Hst. change (dim P1_triangle) with 3%nat.
    rewrite coef_vadd by lia.
    change (state_of (setup P1_triangle [0; 1; 0] dt)) with [0; 1; 0].
    assert (E : dt / 4 == dt * (1 # 4)) by (field; discriminate).
    rewrite E.
    destruct j as [|[|[|j]]]; try lia; lra. }
  pose proof (Hc 0%nat ltac:(lia)) as C0.
  pose proof (Hc 1%nat ltac:(lia)) as C1.
  pose proof (Hc 2%nat ltac:(lia)) as C2.
  change (coef [0; 1; 0] 0) with 0 in C0.
  change (coef [0; 1; 0] 1) with 1 in C1.
  change (coef [0; 1; 0] 2) with 0 in C2.
  assert (E : dt / 4 == dt * (1 # 4)) by (field; discriminate).
  split; [rewrite C0; ring|]. split; [exact C1|]. split; [rewrite C2; ring|].
  split; [rewrite C0, E; lra | rewrite C2, E; lra].
Qed.

Lemma degree1_undershoot_witness :
  exists st',
    step (inverse_solve triangle_inverse) P1_triangle P1
         (setup P1_triangle [0; 1; 0] (1 # 10)) = Some st' /\
    coef (state_of st') 0 < 0.
Proof.
  destruct (degree1_undershoot (1 # 10)) as (_ & st' & Hstep & _ & _ & _ & Hneg & _).
  - reflexivity.
  - exists st'. split; [exact Hstep | exact Hneg].
Defined.

(** ** Projection of the initial condition *)

Lemma matvec_as_integral (V : FunctionSpace) (x : list Q) (i : nat) :
  sum_over (fun j => M V j i * coef x j) (dofs (dim V))
  == sum_over (fun p => cp_weight p * (eval (dim V) x (cp_phi p) * coef (cp_phi p) i))
       (dx V).
Proof.
  unfold M.
  rewrite (sum_over_ext _
             (fun j => sum_over (fun p => cp_weight p *
                         (coef (cp_phi p) j * coef (cp_phi p) i) * coef x j) (dx V)))
    by (intros j _; rewrite <- sum_over_scal_r; reflexivity).
  rewrite sum_over_exchange. apply sum_over_ext. intros p _.
  unfold eval. rewrite <- sum_over_scal_r, <- sum_over_scal_l.
  apply sum_over_ext. intros j _. ring.
Qed.

Lemma project_total (solve : linear_solver) (V : FunctionSpace) (f : CellPoint -> Q) :
  solver_succeeds solve V -> exists c, project solve V f = Some c.
Proof.
  intros Hsucc. unfold project.
  destruct (solve (dim V) (M V) _) as [c|] eqn:E.
  - exists c. reflexivity.
  - exfalso. exact (Hsucc _ E).
Qed.

(** X6. Projection keeps the integral.  In a space that contains the
    constants, the field that [project] returns has the same integral as
    the projected expression, whatever the degree. *)
Theorem project_mass (solve : linear_solver) (V : FunctionSpace)
    (f : CellPoint -> Q) :
  solver_sound solve -> solver_succeeds solve V -> partition_of_unity V ->
  exists c, project solve V f = Some c /\ mass V c == integral V f.
Proof.
  intros Hsound Hsucc HV.
  destruct (project_total solve V f Hsucc) as [c Hc].
  exists c. split; [exact Hc|].
  rewrite (mass_of_solution V HV _ c (Hsound _ _ _ _ Hc)).
  rewrite (sum_tests cp_weight f (fun p i => coef (cp_phi p) i)).
  unfold integral. apply sum_over_ext. intros p Hp.
  destruct HV as (Hx & _ & _). destruct (Hx p Hp) as (H1 & _).
  rewrite H1. ring.
Qed.

Lemma project_mass_witness :
  exists c,
    project (inverse_solve triangle_inverse) P1_triangle
            (fun p => coef (cp_phi p) 1 * coef (cp_phi p) 1)
    = Some c /\
    mass P1_triangle c
    == integral P1_triangle (fun p => coef (cp_phi p) 1 * coef (cp_phi p) 1).
Proof.
  apply (project_mass (inverse_solve triangle_inverse) P1_triangle).
  - exact (inverse_solve_sound triangle_inverse).
  - exact triangle_solver_succeeds.
  - exact triangle_partition_of_unity.
Defined.

(** X7. Projection of a field of the space.  When the mass matrix is
    nonsingular, projecting the expression of a field that already belongs
    to the space gives that field back, coefficient by coefficient. *)
Theorem project_field (solve : linear_solver) (V : FunctionSpace) (h : list Q) :
  solver_sound solve -> solver_succeeds solve V -> mass_nonsingular V ->
  exists c,
    project solve V (fun p => eval (dim V) h (cp_phi p)) = Some c /\
    feq (dim V) c h.
Proof.
  intros Hsound Hsucc Hns.
  destruct (project_total solve V (fun p => eval (dim V) h (cp_phi p)) Hsucc)
    as [c Hc].
  exists c. split; [exact Hc|].
  destruct (Hsound _ _ _ _ Hc) as (_ & Hsol).
  set (d := map (fun j => coef c j - coef h j) (dofs (dim V))).
  assert (Hd : feq (dim V) d []).
  { apply Hns. intros i Hi.
    rewrite (sum_over_ext _
               (fun j => M V j i * coef c j - M V j i * coef h j)).
    - rewrite sum_over_minus, (Hsol i Hi), (matvec_as_integral V h i). ring.
    - intros j Hj. apply in_dofs in Hj. unfold d.
      rewrite coef_map_dofs by exact Hj. ring. }
  intros j Hj. specialize (Hd j Hj). unfold d in Hd.
  rewrite coef_map_dofs, coef_nil in Hd by exact Hj. lra.
Qed.

Lemma project_field_witness :
  exists c,
    project diag_solve (DG0 channel) (fun p => eval 2 [4; 1] (cp_phi p)) = Some c /\
    feq 2 c [4; 1].
Proof.
  apply (project_field diag_solve (DG0 channel) [4; 1]).
  - exact diag_solve_sound.
  - exact (diag_solve_succeeds channel channel_nondegenerate).
  - exact (DG0_nonsingular channel channel_nondegenerate).
Defined.

(** X8. Projection in degree 0.  In a piecewise-constant space the
    projection is the cell average: the coefficient of cell [i] times the
    area of the cell is the integral of the expression over the cell; so
    on a mesh with non-negative weights and cells of positive area a
    non-negative expression is projected to a non-negative field. *)
Theorem project_DG0 (solve : linear_solver) (m : Mesh) (f : CellPoint -> Q) :
  solver_sound solve -> solver_succeeds solve (DG0 m) ->
  exists c,
    project solve (DG0 m) f = Some c /\
    (forall i, (i < num_cells m)%nat ->
       cell_volume m i * coef c i
       == sum_over (fun p => if Nat.eqb (mc_cell p) i
                             then mc_weight p * f (DG0_cell (num_cells m) p)
                             else 0) (mesh_dx m)) /\
    (mesh_nonneg_weights m ->
     (forall i, (i < num_cells m)%nat -> 0 < cell_volume m i) ->
     (forall p, 0 <= f p) ->
     bounded_below (num_cells m) 0 c).
Proof.
  intros Hsound Hsucc.
  destruct (project_total solve (DG0 m) f Hsucc) as [c Hc].
  exists c. split; [exact Hc|].
  destruct (Hsound _ _ _ _ Hc) as (_ & Hsol). simpl dim in Hsol.
  assert (Havg : forall i, (i < num_cells m)%nat ->
            cell_volume m i * coef c i
            == sum_over (fun p => if Nat.eqb (mc_cell p) i
                                  then mc_weight p * f (DG0_cell (num_cells m) p)
                                  else 0) (mesh_dx m)).
  { intros i Hi. rewrite <- (DG0_matvec m c i Hi), (Hsol i Hi).
    simpl dx. rewrite sum_over_map. apply sum_over_ext. intros p _.
    simpl. rewrite coef_indicator by exact Hi.
    rewrite (Nat.eqb_sym i (mc_cell p)).
    destruct (Nat.eqb (mc_cell p) i); ring. }
  split; [exact Havg|].
  intros (Wx & _ & _) Hvol Hf i Hi. rewrite Forall_forall in Wx.
  apply (Qmult_le_l _ _ (cell_volume m i) (Hvol i Hi)).
  rewrite (Havg i Hi), Qmult_0_r.
  rewrite <- (sum_over_zero (fun _ : MeshCellPoint => 0) (mesh_dx m))
    by (intros; reflexivity).
  apply sum_over_le. intros p Hp.
  destruct (Nat.eqb (mc_cell p) i); [|apply Qle_refl].
  apply Qmult_le_0_compat; [apply (Wx p Hp) | apply Hf].
Qed.

Lemma project_DG0_witness :
  exists c,
    project diag_solve (DG0 channel) (fun p => fst (cp_u p)) = Some c /\
    cell_volume channel 0 * coef c 0
    == sum_over (fun p => if Nat.eqb (mc_cell p) 0
                          then mc_weight p * fst (cp_u (DG0_cell 2 p)) else 0)
         (mesh_dx channel).
Proof.
  destruct (project_DG0 diag_solve channel (fun p => fst (cp_u p))
              diag_solve_sound (diag_solve_succeeds channel channel_nondegenerate))
    as (c & Hc & Havg & _).
  exists c. split; [exact Hc|]. apply (Havg 0%nat). simpl. lia.
Defined.

(** ** Mass can only leave *)

Lemma outflow_only (m : Mesh) (h_in h : list Q) :
  mesh_wf m -> mesh_nonneg_weights m ->
  (forall p, In p (mesh_ds m) -> inner (me_u p) (me_n p) < 0 ->
     coef h_in (me_cell p) == 0) ->
  bounded_below (num_cells m) 0 h ->
  0 <= net_boundary_flux (DG0 m) h_in h.
Proof.
  intros (_ & _ & Hs) (_ & _ & Ws) Hzero Hh.
  rewrite Forall_forall in Hs, Ws.
  unfold net_boundary_flux. simpl. rewrite sum_over_map.
  rewrite <- (sum_over_zero (fun _ : MeshExteriorPoint => 0) (mesh_ds m))
    by (intros; reflexivity).
  apply sum_over_le. intros p Hp. simpl.
  rewrite !eval_indicator by (apply Hs; exact Hp).
  apply Qmult_le_0_compat; [apply (Ws p Hp)|].
  assert (Hout : 0 <= coef h (me_cell p) * max_value (inner (me_u p) (me_n p)) 0).
  { apply Qmult_le_0_compat; [apply Hh, Hs, Hp|].
    unfold max_value. apply Q.le_max_r. }
  destruct (Qlt_le_dec (inner (me_u p) (me_n p)) 0) as [Hneg|Hpos].
  - rewrite (Hzero p Hp Hneg). lra.
  - rewrite (min_value_nonneg _ Hpos). lra.
Qed.

Lemma DG0_loop_mass_decreases (solve : linear_solver) (m : Mesh) (deg : degree)
    (N : nat) (st st' : Simulation) :
  solver_sound solve -> mesh_wf m -> mesh_nonneg_weights m ->
  (forall i, (i < num_cells m)%nat -> 0 < cell_volume m i) ->
  0 <= sim_dt st -> cfl m (sim_dt st) -> sim_wf st ->
  bounded_below (num_cells m) 0 (state_of st) ->
  bounded_below (num_cells m) 0 (inflow_of st) ->
  (forall p, In p (mesh_ds m) -> inner (me_u p) (me_n p) < 0 ->
     coef (inflow_of st) (me_cell p) == 0) ->
  time_loop solve (DG0 m) deg N st = Some st' ->
  mass (DG0 m) (state_of st') <= mass (DG0 m) (state_of st).
Proof.
  intros Hsound Hwf Hw Hvol. revert st.
  induction N as [|N IH]; intros st Hdt Hcfl Hst Hh Hin Hzero Hrun; simpl in Hrun.
  - injection Hrun as <-. apply Qle_refl.
  - destruct (step solve (DG0 m) deg st) as [st1|] eqn:Hstep; [|discriminate].
    destruct (step_inv solve (DG0 m) deg st st1 Hst Hstep)
      as (x & _ & _ & _ & Hin1 & Hdt1 & _ & _ & _ & Hst1).
    apply (Qle_trans _ (mass (DG0 m) (state_of st1))).
    + apply (IH st1); try assumption.
      * rewrite Hdt1. exact Hdt.
      * rewrite Hdt1. exact Hcfl.
      * intros i Hi.
        apply (DG0_step_lower solve m deg 0 st st1 i); auto. ring.
      * rewrite Hin1. exact Hin.
      * rewrite Hin1. exact Hzero.
    + rewrite (mass_balance_step solve (DG0 m) deg st st1 Hsound
                 (DG0_partition_of_unity m Hwf) Hst Hstep).
      pose proof (outflow_only m (inflow_of st) (state_of st) Hwf Hw Hzero Hh) as Hout.
      assert (0 <= sim_dt st * net_boundary_flux (DG0 m) (inflow_of st) (state_of st))
        by (apply Qmult_le_0_compat; assumption).
      lra.
Qed.

(** X9. Mass can only leave.  In degree 0 under the CFL condition, when
    the initial condition is non-negative and vanishes in every cell into
    which the flow enters through the boundary (the bump of the notebook
    sits inside the disk), nothing enters the domain: the integral of the
    state after any number of steps is at most the integral of the initial
    condition, so the smoke test [assemble((h - h0) * dx)] is never
    positive. *)
Theorem mass_never_grows (solve : linear_solver) (m : Mesh) (deg : degree)
    (init : list Q) (dt : Q) (N : nat) :
  solver_sound solve -> solver_succeeds solve (DG0 m) ->
  mesh_wf m -> mesh_nonneg_weights m ->
  (forall i, (i < num_cells m)%nat -> 0 < cell_volume m i) ->
  0 <= dt -> cfl m dt ->
  bounded_below (num_cells m) 0 init ->
  (forall p, In p (mesh_ds m) -> inner (me_u p) (me_n p) < 0 ->
     coef init (me_cell p) == 0) ->
  exists st',
    time_loop solve (DG0 m) deg N (setup (DG0 m) init dt) = Some st' /\
    mass (DG0 m) (state_of st') <= mass (DG0 m) init /\
    mass_defect (DG0 m) (state_of st') (inflow_of st') <= 0.
Proof.
  intros Hsound Hsucc Hwf Hw Hvol Hdt Hcfl Hinit Hzero.
  destruct (time_loop_total solve (DG0 m) deg N (setup (DG0 m) init dt) Hsucc)
    as [st' Hrun].
  exists st'. split; [exact Hrun|].
  assert (Hle : mass (DG0 m) (state_of st') <= mass (DG0 m) init).
  { apply (DG0_loop_mass_decreases solve m deg N (setup (DG0 m) init dt) st');
      try assumption. apply setup_wf. }
  split; [exact Hle|].
  destruct (time_loop_frame solve (DG0 m) deg N _ st'
              (setup_wf (DG0 m) init dt) Hrun) as (Hin & _).
  rewrite mass_defect_minus, Hin.
  change (inflow_of (setup (DG0 m) init dt)) with init. lra.
Qed.

Lemma mass_never_grows_witness :
  exists st',
    time_loop diag_solve (DG0 channel) P0 3 (setup (DG0 channel) [0; 1] (1 # 2))
    = Some st' /\
    mass (DG0 channel) (state_of st') <= mass (DG0 channel) [0; 1] /\
    mass_defect (DG0 channel) (state_of st') (inflow_of st') <= 0.
Proof.
  apply (mass_never_grows diag_solve channel P0 [0; 1] (1 # 2) 3).
  - exact diag_solve_sound.
  - exact (diag_solve_succeeds channel channel_nondegenerate).
  - exact channel_wf.
  - exact channel_nonneg_weights.
  - exact channel_volumes.
  - discriminate.
  - exact channel_cfl.
  - intros j Hj. two_cells_Q j Hj; discriminate.
  - intros p Hp Hneg. simpl in Hp.
    destruct Hp as [<-|[<-|[<-|[<-|[<-|[<-|[]]]]]]];
      first [reflexivity | vm_compute in Hneg; discriminate Hneg].
Defined.

(** ** The velocity and the initial bump of the notebook *)

(** X10. Solid-body rotation.  The velocity [(-y, x)] is orthogonal to the
    position and as fast as the position is far from the origin, so inside
    the unit disk its speed is at most [u_max]; on a chord of a circle
    about the origin it has no normal component at the midpoint, and its
    normal components at the two ends are opposite. *)
Theorem rotation_velocity (x a b : vec2) :
  inner a a == inner b b ->
  let normal := rotation (vsub a b) in
  let midpoint := ((fst a + fst b) / 2, (snd a + snd b) / 2) in
  inner (rotation x) x == 0 /\
  inner (rotation x) (rotation x) == inner x x /\
  (inner x x <= 1 -> inner (rotation x) (rotation x) <= u_max * u_max) /\
  inner (rotation midpoint) normal == 0 /\
  inner (rotation a) normal == - inner (rotation b) normal.
Proof.
  intros Hab. cbv zeta. unfold inner, rotation, vsub, u_max in *. simpl in *.
  split; [ring|]. split; [ring|]. split; [intros Hx; lra|].
  split.
  - assert (E : (fst a + fst b) / 2 == (1 # 2) * (fst a + fst b)) by field.
    assert (E' : (snd a + snd b) / 2 == (1 # 2) * (snd a + snd b)) by field.
    rewrite E, E'. lra.
  - lra.
Qed.

Lemma rotation_velocity_witness :
  inner (rotation (3 # 5, 4 # 5)) (3 # 5, 4 # 5) == 0 /\
  inner (rotation (1, 0)) (rotation (vsub (1, 0) (0, 1)))
  == - inner (rotation (0, 1)) (rotation (vsub (1, 0) (0, 1))).
Proof.
  destruct (rotation_velocity (3 # 5, 4 # 5) (1, 0) (0, 1)) as (H1 & _ & _ & _ & H5).
  - reflexivity.
  - split; [exact H1 | exact H5].
Defined.

Lemma square_nonneg (a : Q) : 0 <= a * a.
Proof.
  destruct (Qlt_le_dec a 0) as [Hn|Hp].
  - assert (0 <= (- a) * (- a)) by (apply Qmult_le_0_compat; lra). lra.
  - apply Qmult_le_0_compat; assumption.
Qed.

Lemma inner_self_nonneg (a : vec2) : 0 <= inner a a.
Proof.
  unfold inner. pose proof (square_nonneg (fst a)). pose proof (square_nonneg (snd a)).
  lra.
Qed.

(** Away from the origin by 3/4, a point is at least [R] away from [x0]. *)
Lemma far_from_x0 (x : vec2) :
  (9 # 16) <= inner x x -> R * R <= inner (vsub x x0) (vsub x x0).
Proof.
  unfold inner, vsub, x0, R. simpl.
  set (a := fst x). set (b := snd x). intros Hx.
  pose proof (square_nonneg b) as Hb.
  destruct (Qlt_le_dec (3 # 4) a) as [Ha|Ha].
  - assert (0 <= (a - (1 # 4)) * (a - (3 # 4))) by (apply Qmult_le_0_compat; lra).
    lra.
  - lra.
Qed.

Lemma sqrt_fixed_rounds : sqrt_rounds sqrt_fixed.
Proof.
  assert (Hpos : 0 < inject_Z (2 ^ 20)) by reflexivity.
  split; [|split; [|split]].
  - intros a _. unfold sqrt_fixed. apply Qle_shift_div_l; [exact Hpos|].
    rewrite Qmult_0_l. change 0 with (inject_Z 0). rewrite <- Zle_Qle.
    apply Z.sqrt_nonneg.
  - intros a b _ Hab. unfold sqrt_fixed.
    apply Qmult_le_compat_r; [|apply Qinv_le_0_compat; apply Qlt_le_weak; exact Hpos].
    rewrite <- Zle_Qle. apply Z.sqrt_le_mono. apply Qfloor_resp_le.
    apply Qmult_le_compat_r; [exact Hab | discriminate].
  - reflexivity.
  - reflexivity.
Qed.

(** X11. The initial bump.  For every point [x] and every square root
    that rounds as above, with [r] the computed distance to
    [x0 = (1/2, 0)], the expression [max_value(1 - r / R, 0)] lies between
    0 and 1, is 1 where [r] is 0 and so at [x0], vanishes exactly where
    [R <= r], and vanishes at every point whose distance to the origin is
    at least 3/4: the projected initial condition is non-negative and is
    zero near the boundary of the disk. *)
Theorem bump_support (sqrt : square_root) (x : vec2) :
  sqrt_rounds sqrt ->
  0 <= r sqrt x /\
  0 <= bump (r sqrt x) /\ bump (r sqrt x) <= 1 /\
  (bump (r sqrt x) == 0 <-> R <= r sqrt x) /\
  (r sqrt x == 0 -> bump (r sqrt x) == 1) /\
  (veq x x0 -> r sqrt x == 0 /\ bump (r sqrt x) == 1) /\
  ((9 # 16) <= inner x x -> R <= r sqrt x /\ bump (r sqrt x) == 0).
Proof.
  intros (Hnn & Hmono & Hzero0 & HR).
  pose proof (inner_self_nonneg (vsub x x0)) as Hs.
  assert (Hr : 0 <= r sqrt x) by (apply Hnn; exact Hs).
  set (d := r sqrt x) in *.
  unfold bump.
  assert (Hdiv : 1 - d / R == 1 - 4 * d) by (unfold R; field).
  rewrite (max_value_ext _ _ Hdiv).
  assert (Hzero : R <= d -> max_value (1 - 4 * d) 0 == 0).
  { unfold R. intros H. apply max_value_nonpos. lra. }
  assert (Hone : d == 0 -> max_value (1 - 4 * d) 0 == 1).
  { intros H0. rewrite max_value_nonneg by lra. lra. }
  split; [exact Hr|].
  split; [unfold max_value; apply Q.le_max_r|].
  split; [unfold max_value; apply Q.max_lub; lra|].
  split; [split; [|exact Hzero]|].
  { unfold R. intros H0. destruct (Qlt_le_dec d (1 # 4)) as [Hlt|Hge]; [|exact Hge].
    exfalso. rewrite max_value_nonneg in H0 by lra. lra. }
  split; [exact Hone|].
  split.
  { intros (E1 & E2).
    assert (Hd0 : d == 0).
    { assert (Hle : inner (vsub x x0) (vsub x x0) <= 0).
      { assert (E : inner (vsub x x0) (vsub x x0) == 0).
        { unfold inner, vsub. cbn [fst snd]. rewrite E1, E2. ring. }
        rewrite E. apply Qle_refl. }
      pose proof (Hmono _ _ Hs Hle) as Hup. fold (r sqrt x) in Hup. fold d in Hup.
      lra. }
    split; [exact Hd0 | exact (Hone Hd0)]. }
  intros Hx.
  assert (HRd : R <= d).
  { pose proof (far_from_x0 x Hx) as Hfar.
    assert (HRR : 0 <= R * R) by discriminate.
    pose proof (Hmono _ _ HRR Hfar) as Hlow. fold (r sqrt x) in Hlow. fold d in Hlow.
    lra. }
  split; [exact HRd | exact (Hzero HRd)].
Qed.

Lemma bump_support_witness :
  bump (r sqrt_fixed (1, 0)) == 0 /\ bump (r sqrt_fixed x0) == 1 /\
  r sqrt_fixed (0, 1) == 1172343 # 1048576.
Proof.
  split; [|split].
  - apply (bump_support sqrt_fixed (1, 0) sqrt_fixed_rounds). discriminate.
  - apply (bump_support sqrt_fixed x0 sqrt_fixed_rounds). split; reflexivity.
  - vm_compute. reflexivity.
Defined.

(** ** The two diagnostics of the notebook *)

Lemma Qabs_sum_over {A : Type} (f : A -> Q) (l : list A) :
  Qabs (sum_over f l) <= sum_over (fun a => Qabs (f a)) l.
Proof.
  induction l as [|a l IH]; simpl.
  - discriminate.
  - apply (Qle_trans _ (Qabs (f a) + Qabs (sum_over f l))).
    + apply Qabs_triangle.
    + apply Qplus_le_compat; [apply Qle_refl | exact IH].
Qed.

(** X12. The smoke test and the error in the 1-norm.  With non-negative
    quadrature weights [assemble(abs(h - h1) * dx)] is non-negative, bounds
    the absolute value of the smoke test [assemble((h - h1) * dx)], and is
    zero when the two fields have the same coefficients. *)
Theorem l1_distance_bounds (V : FunctionSpace) (h h1 : list Q) :
  nonneg_weights V ->
  0 <= l1_distance V h h1 /\
  Qabs (mass_defect V h h1) <= l1_distance V h h1 /\
  (feq (dim V) h h1 -> l1_distance V h h1 == 0).
Proof.
  intros (Wx & _ & _).
  assert (Hterm : forall p, In p (dx V) ->
            Qabs (cp_weight p *
                  (eval (dim V) h (cp_phi p) - eval (dim V) h1 (cp_phi p)))
            == cp_weight p *
               Qabs (eval (dim V) h (cp_phi p) - eval (dim V) h1 (cp_phi p))).
  { intros p Hp. rewrite Qabs_Qmult, (Qabs_pos _ (Wx p Hp)). reflexivity. }
  split; [|split].
  - unfold l1_distance.
    rewrite <- (sum_over_zero (fun _ : CellPoint => 0) (dx V)) by (intros; reflexivity).
    apply sum_over_le. intros p Hp.
    apply Qmult_le_0_compat; [apply (Wx p Hp) | apply Qabs_nonneg].
  - unfold mass_defect, l1_distance.
    apply (Qle_trans _ _ _ (Qabs_sum_over _ _)).
    apply Qle_lteq. right. apply sum_over_ext. exact Hterm.
  - intros Hfeq. unfold l1_distance. apply sum_over_zero. intros p _.
    rewrite (eval_ext _ _ _ (cp_phi p) Hfeq).
    setoid_replace (eval (dim V) h1 (cp_phi p) - eval (dim V) h1 (cp_phi p))
      with 0 by ring.
    change (Qabs 0) with 0. ring.
Qed.

Lemma triangle_nonneg_weights : nonneg_weights P1_triangle.
Proof.
  unfold nonneg_weights. simpl.
  split; [|split]; intros p Hp;
    repeat match goal with
           | H : _ \/ _ |- _ => destruct H as [<-|H]
           | H : False |- _ => destruct H
           end; discriminate.
Qed.

Lemma l1_distance_bounds_witness :
  Qabs (mass_defect P1_triangle [1; 0; 2] [0; 3; 1])
  <= l1_distance P1_triangle [1; 0; 2] [0; 3; 1].
Proof.
  exact (proj1 (proj2 (l1_distance_bounds P1_triangle [1; 0; 2] [0; 3; 1]
                         triangle_nonneg_weights))).
Defined.

(** ** The mass matrix *)

(** X13. The mass matrix.  [M = p * q * dx] is symmetric, its quadratic
    form at a coefficient array is the integral of the square of the
    field, and with non-negative weights that is non-negative: the matrix
    is positive semi-definite. *)
Theorem mass_matrix_psd (V : FunctionSpace) (x : list Q) :
  nonneg_weights V ->
  (forall i j, M V j i == M V i j) /\
  sum_over (fun i => coef x i *
              sum_over (fun j => M V j i * coef x j) (dofs (dim V))) (dofs (dim V))
  == sum_over (fun p => cp_weight p *
                 (eval (dim V) x (cp_phi p) * eval (dim V) x (cp_phi p))) (dx V) /\
  0 <= sum_over (fun i => coef x i *
                   sum_over (fun j => M V j i * coef x j) (dofs (dim V)))
         (dofs (dim V)).
Proof.
  intros (Wx & _ & _).
  assert (Hquad :
    sum_over (fun i => coef x i *
                sum_over (fun j => M V j i * coef x j) (dofs (dim V))) (dofs (dim V))
    == sum_over (fun p => cp_weight p *
                   (eval (dim V) x (cp_phi p) * eval (dim V) x (cp_phi p))) (dx V)).
  { rewrite (sum_over_ext _
               (fun i => sum_over (fun p => cp_weight p *
                           (eval (dim V) x (cp_phi p)
                            * (coef x i * coef (cp_phi p) i))) (dx V))).
    - rewrite (sum_tests cp_weight (fun p => eval (dim V) x (cp_phi p))
                 (fun p i => coef x i * coef (cp_phi p) i)).
      apply sum_over_ext. intros p _. reflexivity.
    - intros i _. rewrite matvec_as_integral, <- sum_over_scal_l.
      apply sum_over_ext. intros p _. ring. }
  split; [|split].
  - intros i j. unfold M. apply sum_over_ext. intros p _. ring.
  - exact Hquad.
  - rewrite Hquad.
    rewrite <- (sum_over_zero (fun _ : CellPoint => 0) (dx V)) by (intros; reflexivity).
    apply sum_over_le. intros p Hp.
    apply Qmult_le_0_compat; [apply (Wx p Hp)|].
    set (e := eval (dim V) x (cp_phi p)).
    destruct (Qlt_le_dec e 0) as [Hn|Hp0].
    + assert (0 <= (- e) * (- e)) by (apply Qmult_le_0_compat; lra). lra.
    + apply Qmult_le_0_compat; assumption.
Qed.

Lemma mass_matrix_psd_witness :
  M P1_triangle 1 0 == M P1_triangle 0 1 /\
  0 <= sum_over (fun i => coef [1; -2; 1] i *
                   sum_over (fun j => M P1_triangle j i * coef [1; -2; 1] j) (dofs 3))
         (dofs 3).
Proof.
  destruct (mass_matrix_psd P1_triangle [1; -2; 1] triangle_nonneg_weights)
    as (Hsym & _ & Hpos).
  split; [apply Hsym | exact Hpos].
Defined.

(** ** Edge cases of the driver *)

Lemma zero_dt_step (solve : linear_solver) (V : FunctionSpace) (deg : degree)
    (st st' : Simulation) :
  solver_sound solve -> mass_nonsingular V -> sim_wf st -> sim_dt st == 0 ->
  step solve V deg st = Some st' ->
  feq (dim V) (state_of st') (state_of st).
Proof.
  intros Hsound Hns Hwf Hdt Hstep.
  destruct (step_inv solve V deg st st' Hwf Hstep) as (x & Hx & _ & Hst & _).
  destruct (Hsound _ _ _ _ Hx) as (_ & Hsol).
  assert (Hx0 : feq (dim V) x []).
  { apply Hns. intros i Hi. rewrite (Hsol i Hi). unfold rhs. rewrite Hdt. ring. }
  intros j Hj. rewrite Hst, coef_vadd by exact Hj.
  rewrite (Hx0 j Hj), coef_nil. ring.
Qed.

(** X14. A final time of zero.  With [final_time = 0], whose quotients
    are computed without rounding, the driver still takes
    [int(0) + 1 = 1] step, with [dt = 0]; the solve runs once, its
    right-hand side is zero, and the state it leaves equals the initial
    condition. *)
Theorem zero_final_time (fdiv : float_division) (solve : linear_solver)
    (V : FunctionSpace) (deg : degree) (cell_sizes init : list Q) :
  solver_sound solve -> solver_succeeds solve V -> mass_nonsingular V ->
  cell_sizes <> [] -> (forall x, In x cell_sizes -> 0 < x) ->
  (forall dxm, dx_min cell_sizes = Some dxm ->
               rounds_between_integers fdiv 0 (timestep deg dxm)) ->
  rounds_between_integers fdiv 0 (inject_Z 1) ->
  exists dxm dt st',
    dx_min cell_sizes = Some dxm /\
    num_steps fdiv 0 (timestep deg dxm) = Some 1%Z /\
    dt_of fdiv 0 1 = Some dt /\
    dt == 0 /\
    advect fdiv solve V deg cell_sizes init 0 = Some st' /\
    step solve V deg (setup V init dt) = Some st' /\
    sim_dt st' == 0 /\
    feq (dim V) (state_of st') init.
Proof.
  intros Hsound Hsucc Hns Hne Hpos Hround Hone.
  destruct (dx_min_spec cell_sizes Hne) as (dxm & Hdx & Hin & _).
  pose proof (timestep_pos deg dxm (Hpos dxm Hin)) as Hts.
  destruct (num_steps_rounded fdiv 0 (timestep deg dxm) (Qle_refl 0) Hts
              (Hround dxm Hdx))
    as (q & n & _ & Hn & _ & Hnq & Hfq & _).
  assert (Hn1 : n = 1%Z).
  { assert (E : 0 / timestep deg dxm == 0) by (field; lra).
    rewrite (Qfloor_comp _ _ E), (Qceiling_comp _ _ E) in Hfq.
    change (Qfloor 0) with 0%Z in Hfq. change (Qceiling 0) with 0%Z in Hfq. lia. }
  rewrite Hn1 in Hn. clear Hnq Hn1.
  destruct Hone as (dt & Hdiv & Hlo & Hhi).
  assert (Hdt0 : dt == 0).
  { assert (E0 : Qfloor (0 / inject_Z 1) = 0%Z) by reflexivity.
    assert (E1 : Qceiling (0 / inject_Z 1) = 0%Z) by reflexivity.
    rewrite E0 in Hlo. rewrite E1 in Hhi.
    change (inject_Z 0) with 0 in *. lra. }
  assert (Hdt : dt_of fdiv 0 1 = Some dt) by exact Hdiv.
  destruct (step_total solve V deg (setup V init dt) Hsucc) as [st' Hstep].
  exists dxm, dt, st'.
  split; [exact Hdx|]. split; [exact Hn|]. split; [exact Hdt|].
  split; [exact Hdt0|].
  assert (Hadv : advect fdiv solve V deg cell_sizes init 0 = Some st').
  { unfold advect. rewrite Hdx, Hn, Hdt. simpl. rewrite Hstep. reflexivity. }
  split; [exact Hadv|]. split; [exact Hstep|].
  destruct (step_inv solve V deg _ st' (setup_wf V init dt) Hstep)
    as (_ & _ & _ & _ & _ & Hdt' & _).
  split.
  - rewrite Hdt'. exact Hdt0.
  - apply (zero_dt_step solve V deg (setup V init dt) st');
      solve [assumption | apply setup_wf].
Qed.

Lemma zero_final_time_witness :
  exists dxm dt st',
    dx_min [fifth; 3] = Some dxm /\
    dt_of binary64_div 0 1 = Some dt /\
    advect binary64_div diag_solve (DG0 channel) P0 [fifth; 3] [4; 1] 0 = Some st' /\
    feq 2 (state_of st') [4; 1].
Proof.
  destruct (zero_final_time binary64_div diag_solve (DG0 channel) P0 [fifth; 3] [4; 1])
    as (dxm & dt & st' & H1 & _ & H3 & _ & H5 & _ & _ & H8).
  - exact diag_solve_sound.
  - exact (diag_solve_succeeds channel channel_nondegenerate).
  - exact (DG0_nonsingular channel channel_nondegenerate).
  - discriminate.
  - intros x [<-|[<-|[]]]; reflexivity.
  - intros dxm Hdxm. injection Hdxm as <-.
    eexists. split; [vm_compute; reflexivity|]. split; vm_compute; discriminate.
  - eexists. split; [vm_compute; reflexivity|]. split; vm_compute; discriminate.
  - exists dxm, dt, st'. repeat split; assumption.
Defined.

(** X15. A mesh without cells, or with a cell of size zero.  The minimum
    of no cell sizes is an error, and a smallest cell size of zero makes
    the timestep zero and the quotient [final_time / timestep] [inf] or
    [nan], which [int] refuses: in both cases the driver fails before the
    loop, whatever the solver, the space and the final time. *)
Theorem degenerate_mesh_fails (fdiv : float_division) (solve : linear_solver)
    (V : FunctionSpace) (deg : degree) (cell_sizes init : list Q) (final_time : Q) :
  division_by_zero_fails fdiv ->
  cell_sizes = [] \/ (exists dxm, dx_min cell_sizes = Some dxm /\ dxm == 0) ->
  advect fdiv solve V deg cell_sizes init final_time = None.
Proof.
  intros Hz [->|(dxm & Hdx & Hzero)]; [reflexivity|].
  unfold advect. rewrite Hdx.
  assert (Hts : timestep deg dxm == 0).
  { destruct deg; unfold timestep, u_max; rewrite Hzero; reflexivity. }
  unfold num_steps. rewrite (Hz final_time _ Hts). reflexivity.
Qed.

Lemma degenerate_mesh_fails_witness :
  advect binary64_div diag_solve (DG0 channel) P1 [2; 0; 3] [4; 1] 7 = None.
Proof.
  apply (degenerate_mesh_fails binary64_div).
  - exact binary64_div_by_zero.
  - right. exists 0. split; reflexivity.
Defined.

(** ** The run does not depend on the solver or on the labels *)

Lemma edge_flux_ext (V : FunctionSpace) (h h' : list Q) (i : nat) :
  feq (dim V) h h' -> edge_flux V h i == edge_flux V h' i.
Proof.
  intros Hh. unfold edge_flux. apply sum_over_ext. intros p _.
  unfold edge_flux_integrand, F_plus, F_minus.
  rewrite (F_ext _ _ _ _ (eval_ext _ _ _ (ip_phi_plus p) Hh)).
  rewrite (F_ext _ _ _ _ (eval_ext _ _ _ (ip_phi_minus p) Hh)).
  reflexivity.
Qed.

Lemma in_flux_ext (V : FunctionSpace) (h h' : list Q) (i : nat) :
  feq (dim V) h h' -> in_flux V h i == in_flux V h' i.
Proof.
  intros Hh. unfold in_flux. apply sum_over_ext. intros p _.
  unfold in_flux_integrand. rewrite (eval_ext _ _ _ (ep_phi p) Hh). reflexivity.
Qed.

Lemma out_flux_ext (V : FunctionSpace) (h h' : list Q) (i : nat) :
  feq (dim V) h h' -> out_flux V h i == out_flux V h' i.
Proof.
  intros Hh. unfold out_flux. apply sum_over_ext. intros p _.
  unfold out_flux_integrand. rewrite (eval_ext _ _ _ (ep_phi p) Hh). reflexivity.
Qed.

Lemma cell_flux_ext (V : FunctionSpace) (h h' : list Q) (i : nat) :
  feq (dim V) h h' -> cell_flux V h i == cell_flux V h' i.
Proof.
  intros Hh. unfold cell_flux. apply sum_over_ext. intros p _.
  unfold cell_flux_integrand. rewrite (eval_ext _ _ _ (cp_phi p) Hh). reflexivity.
Qed.

Lemma dh_dt_ext (V : FunctionSpace) (deg : degree) (h_in h_in' h h' : list Q)
    (i : nat) :
  feq (dim V) h_in h_in' -> feq (dim V) h h' ->
  dh_dt V deg h_in h i == dh_dt V deg h_in' h' i.
Proof.
  intros Hin Hh. destruct deg; unfold dh_dt;
    rewrite (edge_flux_ext V h h' i Hh), (in_flux_ext V h_in h_in' i Hin),
      (out_flux_ext V h h' i Hh); try rewrite (cell_flux_ext V h h' i Hh);
    reflexivity.
Qed.

Lemma edge_flux_relabel (flip : InteriorFacetPoint -> bool) (V : FunctionSpace)
    (h : list Q) (i : nat) :
  edge_flux (relabel flip V) h i == edge_flux V h i.
Proof.
  unfold edge_flux. simpl. rewrite sum_over_map. apply sum_over_ext.
  intros p _. destruct (flip p); [|reflexivity].
  change (edge_flux_integrand (relabel flip V) h i (swap_sides p))
    with (edge_flux_integrand V h i (swap_sides p)).
  change (edge_flux_integrand (relabel flip V) h i p)
    with (edge_flux_integrand V h i p).
  rewrite swap_sides_integrand. reflexivity.
Qed.

Lemma dh_dt_relabel (flip : InteriorFacetPoint -> bool) (V : FunctionSpace)
    (deg : degree) (h_in h : list Q) (i : nat) :
  dh_dt (relabel flip V) deg h_in h i == dh_dt V deg h_in h i.
Proof.
  destruct deg; unfold dh_dt; rewrite edge_flux_relabel; reflexivity.
Qed.

(** Two solutions of the mass-matrix system for the same right-hand side
    are the same field. *)
Lemma solution_unique (V : FunctionSpace) (b b' : nat -> Q) (x x' : list Q) :
  mass_nonsingular V ->
  solves (dim V) (M V) b x -> solves (dim V) (M V) b' x' ->
  (forall i, (i < dim V)%nat -> b i == b' i) ->
  feq (dim V) x x'.
Proof.
  intros Hns (_ & Hx) (_ & Hx') Hb.
  set (d := map (fun j => coef x j - coef x' j) (dofs (dim V))).
  assert (Hd : feq (dim V) d []).
  { apply Hns. intros i Hi.
    rewrite (sum_over_ext _ (fun j => M V j i * coef x j - M V j i * coef x' j)).
    - rewrite sum_over_minus, (Hx i Hi), (Hx' i Hi), (Hb i Hi). ring.
    - intros j Hj. apply in_dofs in Hj. unfold d.
      rewrite coef_map_dofs by exact Hj. ring. }
  intros j Hj. specialize (Hd j Hj). unfold d in Hd.
  rewrite coef_map_dofs, coef_nil in Hd by exact Hj. lra.
Qed.

Lemma step_independent (solve1 solve2 : linear_solver)
    (flip : InteriorFacetPoint -> bool) (V : FunctionSpace) (deg : degree)
    (st1 st2 st1' st2' : Simulation) :
  solver_sound solve1 -> solver_sound solve2 -> mass_nonsingular V ->
  sim_wf st1 -> sim_wf st2 -> sim_dt st1 == sim_dt st2 ->
  feq (dim V) (inflow_of st1) (inflow_of st2) ->
  feq (dim V) (state_of st1) (state_of st2) ->
  step solve1 V deg st1 = Some st1' ->
  step solve2 (relabel flip V) deg st2 = Some st2' ->
  feq (dim V) (state_of st1') (state_of st2').
Proof.
  intros Hs1 Hs2 Hns Hwf1 Hwf2 Hdt Hin Hh Hstep1 Hstep2.
  destruct (step_inv solve1 V deg st1 st1' Hwf1 Hstep1) as (x1 & Hx1 & _ & E1 & _).
  destruct (step_inv solve2 (relabel flip V) deg st2 st2' Hwf2 Hstep2)
    as (x2 & Hx2 & _ & E2 & _).
  assert (Hx : feq (dim V) x1 x2).
  { apply (solution_unique V _ _ x1 x2 Hns (Hs1 _ _ _ _ Hx1) (Hs2 _ _ _ _ Hx2)).
    intros i Hi. unfold rhs.
    rewrite dh_dt_relabel, Hdt.
    rewrite (dh_dt_ext V deg _ _ _ _ i Hin Hh). reflexivity. }
  intros j Hj. rewrite E1, E2. simpl dim.
  rewrite !coef_vadd by exact Hj. rewrite (Hh j Hj), (Hx j Hj). reflexivity.
Qed.

(** X16. The run is determined by the forms.  With a nonsingular mass
    matrix, two runs of the loop from the same initial condition, one with
    any solver that returns solutions and one with any other such solver
    and the labels "+" and "-" exchanged on any set of facets, leave the
    same state after every number of steps. *)
Theorem run_independent (solve1 solve2 : linear_solver)
    (flip : InteriorFacetPoint -> bool) (V : FunctionSpace) (deg : degree)
    (init : list Q) (dt : Q) (N : nat) :
  solver_sound solve1 -> solver_sound solve2 ->
  solver_succeeds solve1 V -> solver_succeeds solve2 V ->
  mass_nonsingular V ->
  exists st1 st2,
    time_loop solve1 V deg N (setup V init dt) = Some st1 /\
    time_loop solve2 (relabel flip V) deg N (setup (relabel flip V) init dt)
    = Some st2 /\
    feq (dim V) (state_of st1) (state_of st2).
Proof.
  intros Hs1 Hs2 Hsucc1 Hsucc2 Hns.
  destruct (time_loop_total solve1 V deg N (setup V init dt) Hsucc1) as [st1 Hrun1].
  destruct (time_loop_total solve2 (relabel flip V) deg N
              (setup (relabel flip V) init dt) Hsucc2) as [st2 Hrun2].
  exists st1, st2. split; [exact Hrun1|]. split; [exact Hrun2|].
  assert (Hgen : forall n s1 s2 s1' s2',
            sim_wf s1 -> sim_wf s2 -> sim_dt s1 == sim_dt s2 ->
            feq (dim V) (inflow_of s1) (inflow_of s2) ->
            feq (dim V) (state_of s1) (state_of s2) ->
            time_loop solve1 V deg n s1 = Some s1' ->
            time_loop solve2 (relabel flip V) deg n s2 = Some s2' ->
            feq (dim V) (state_of s1') (state_of s2')).
  { induction n as [|n IH]; intros s1 s2 s1' s2' W1 W2 Hdt Hin Hh R1 R2;
      simpl in R1, R2.
    - injection R1 as <-. injection R2 as <-. exact Hh.
    - destruct (step solve1 V deg s1) as [t1|] eqn:T1; [|discriminate].
      destruct (step solve2 (relabel flip V) deg s2) as [t2|] eqn:T2; [|discriminate].
      destruct (step_inv solve1 V deg s1 t1 W1 T1)
        as (_ & _ & _ & _ & I1 & D1 & _ & _ & _ & W1').
      destruct (step_inv solve2 (relabel flip V) deg s2 t2 W2 T2)
        as (_ & _ & _ & _ & I2 & D2 & _ & _ & _ & W2').
      apply (IH t1 t2 s1' s2'); try assumption.
      + rewrite D1, D2. exact Hdt.
      + rewrite I1, I2. exact Hin.
      + apply (step_independent solve1 solve2 flip V deg s1 s2 t1 t2);
          assumption. }
  apply (Hgen N (setup V init dt) (setup (relabel flip V) init dt) st1 st2);
    try assumption; try apply setup_wf; try reflexivity; apply feq_refl.
Qed.

Lemma triangle_nonsingular : mass_nonsingular P1_triangle.
Proof.
  intros x Hx.
  pose proof (Hx 0%nat ltac:(simpl; lia)) as R0.
  pose proof (Hx 1%nat ltac:(simpl; lia)) as R1.
  pose proof (Hx 2%nat ltac:(simpl; lia)) as R2.
  change (dim P1_triangle) with 3%nat in *. unfold dofs in *.
  simpl seq in *. simpl sum_over in *.
  rewrite !triangle_mass_matrix in R0, R1, R2 by lia.
  simpl Nat.eqb in R0, R1, R2. cbv iota in R0, R1, R2.
  intros j Hj. rewrite coef_nil.
  destruct j as [|[|[|j]]]; try lia; lra.
Qed.

Lemma run_independent_witness :
  exists st1 st2,
    time_loop diag_solve (DG0 channel) P0 2 (setup (DG0 channel) [4; 1] (1 # 2))
    = Some st1 /\
    time_loop (inverse_solve [[1 # 2; 0]; [0; 1 # 3]])
              (relabel (fun _ => true) (DG0 channel)) P0 2
              (setup (relabel (fun _ => true) (DG0 channel)) [4; 1] (1 # 2))
    = Some st2 /\
    feq 2 (state_of st1) (state_of st2).
Proof.
  apply (run_independent diag_solve (inverse_solve [[1 # 2; 0]; [0; 1 # 3]])
           (fun _ => true) (DG0 channel) P0 [4; 1] (1 # 2) 2).
  - exact diag_solve_sound.
  - exact (inverse_solve_sound _).
  - exact (diag_solve_succeeds channel channel_nondegenerate).
  - intros b. unfold inverse_solve.
    replace (is_inverse (dim (DG0 channel)) (M (DG0 channel))
               [[1 # 2; 0]; [0; 1 # 3]]) with true by (vm_compute; reflexivity).
    discriminate.
  - exact (DG0_nonsingular channel channel_nondegenerate).
Defined.

(** ** How many steps *)

(** X17. The step count overshoots, by at most one step.  For a
    non-negative final time and a positive timestep, with the quotient
    [q = final_time / timestep] not rounded across a whole number,
    [num_steps] steps of length [timestep] go strictly beyond
    [final_time] and [num_steps - 2] steps do not; [num_steps] is the
    least such count or one more.  It is the least whenever [q] is not
    above the exact ratio, and it is one more, so that already
    [num_steps - 1] steps go beyond [final_time], exactly when the
    quotient is rounded up to the next whole number. *)
Theorem num_steps_least (fdiv : float_division) (final_time ts : Q) :
  0 <= final_time -> 0 < ts ->
  rounds_between_integers fdiv final_time ts ->
  exists q n,
    fdiv final_time ts = Some q /\
    num_steps fdiv final_time ts = Some n /\
    final_time < inject_Z n * ts /\
    inject_Z (n - 2) * ts <= final_time /\
    (forall k, final_time < inject_Z k * ts -> (n - 1 <= k)%Z) /\
    (q <= final_time / ts ->
     inject_Z (n - 1) * ts <= final_time /\
     forall k, final_time < inject_Z k * ts -> (n <= k)%Z) /\
    (final_time < inject_Z (n - 1) * ts
     <-> inject_Z (Qfloor (final_time / ts) + 1) <= q).
Proof.
  intros Hft Hts Hround.
  destruct (num_steps_rounded fdiv final_time ts Hft Hts Hround)
    as (q & n & Hq & Hn & Hq0 & Hnq & Hfq & Hn1 & Hover).
  exists q, n. split; [exact Hq|]. split; [exact Hn|]. split; [exact Hover|].
  pose proof (Qceiling_le_succ_floor (final_time / ts)) as Hc.
  pose proof (ratio_times final_time ts Hts) as E.
  pose proof (Qfloor_le (final_time / ts)) as Hlo.
  pose proof (Qlt_floor (final_time / ts)) as Hhi.
  set (x := final_time / ts) in *.
  assert (Hk : forall k, final_time < inject_Z k * ts -> (Qfloor x < k)%Z).
  { intros k Hk. apply Qfloor_lt. apply Qlt_shift_div_r; assumption. }
  assert (Hbelow : forall m, (m <= Qfloor x)%Z -> inject_Z m * ts <= final_time).
  { intros m Hm. rewrite E at 1. apply Qmult_le_compat_r; [|lra].
    apply (Qle_trans _ (inject_Z (Qfloor x))); [|exact Hlo].
    rewrite <- Zle_Qle. exact Hm. }
  split; [apply Hbelow; lia|].
  split; [intros k Hk'; pose proof (Hk k Hk'); lia|].
  split.
  { intros Hqx.
    assert (Hfl : (Qfloor q <= Qfloor x)%Z) by (apply Qfloor_resp_le; exact Hqx).
    split; [apply Hbelow; lia|].
    intros k Hk'. pose proof (Hk k Hk'). lia. }
  split.
  - intros Hlt. pose proof (Hk _ Hlt) as Hfl.
    apply (Qle_trans _ (inject_Z (Qfloor q))); [|apply Qfloor_le].
    rewrite <- Zle_Qle. lia.
  - intros Hup. pose proof (Qfloor_ge _ _ Hup) as Hfl.
    rewrite E at 1. apply Qmult_lt_compat_r; [exact Hts|].
    apply (Qlt_le_trans _ _ _ Hhi). rewrite <- Zle_Qle. lia.
Qed.

Lemma num_steps_least_witness :
  exists q n,
    binary64_div 1 tenth = Some q /\
    num_steps binary64_div 1 tenth = Some n /\
    n = 11%Z /\
    1 < inject_Z (n - 1) * tenth /\
    inject_Z (n - 2) * tenth <= 1.
Proof.
  destruct (num_steps_least binary64_div 1 tenth)
    as (q & n & H1 & H2 & _ & H4 & _ & _ & H7).
  - discriminate.
  - reflexivity.
  - eexists. split; [vm_compute; reflexivity|]. split; vm_compute; discriminate.
  - exists q, n. split; [exact H1|]. split; [exact H2|].
    split; [vm_compute in H2; injection H2 as <-; reflexivity|].
    split; [|exact H4].
    apply H7. vm_compute in H1. injection H1 as <-. vm_compute. discriminate.
Defined.

(** X18. Eight times the steps in degree 1.  The degree-1 timestep is one
    eighth of the degree-0 timestep, and dividing by a float that is
    eight times smaller gives a quotient eight times larger, rounded or
    not; so for the same mesh and final time the degree-1 loop takes more
    than [8 (n0 - 1)] and at most [8 n0] steps, [n0] being the number of
    steps of the degree-0 loop. *)
Theorem degree1_step_count (fdiv : float_division) (final_time dxm : Q) :
  0 <= final_time -> 0 < dxm ->
  rounds_between_integers fdiv final_time (timestep P0 dxm) ->
  (forall q0, fdiv final_time (timestep P0 dxm) = Some q0 ->
     exists q1, fdiv final_time (timestep P1 dxm) = Some q1 /\ q1 == 8 * q0) ->
  exists n0 n1,
    num_steps fdiv final_time (timestep P0 dxm) = Some n0 /\
    num_steps fdiv final_time (timestep P1 dxm) = Some n1 /\
    timestep P1 dxm == timestep P0 dxm / 8 /\
    (8 * (n0 - 1) < n1 <= 8 * n0)%Z.
Proof.
  intros Hft Hdx Hround Hscale.
  pose proof (timestep_pos P0 dxm Hdx) as H0.
  destruct (num_steps_rounded fdiv final_time _ Hft H0 Hround)
    as (q0 & n0 & Hq0 & Hn0 & Hpos & F0 & _).
  destruct (Hscale q0 Hq0) as (q1 & Hq1 & E).
  assert (Hpos1 : 0 <= q1) by (rewrite E; lra).
  exists n0, (Qfloor q1 + 1)%Z. split; [exact Hn0|].
  split; [unfold num_steps; rewrite Hq1, (py_int_floor q1 Hpos1); reflexivity|].
  assert (Hts : timestep P1 dxm == timestep P0 dxm / 8).
  { unfold timestep, u_max. field. }
  split; [exact Hts|].
  rewrite (Qfloor_comp _ _ E).
  pose proof (Qfloor_le q0) as Hlo. pose proof (Qlt_floor q0) as Hhi.
  assert (Ha : (8 * Qfloor q0 <= Qfloor (8 * q0))%Z).
  { apply Qfloor_ge. rewrite inject_Z_mult. change (inject_Z 8) with 8. lra. }
  assert (Hb : (Qfloor (8 * q0) < 8 * (Qfloor q0 + 1))%Z).
  { apply Qfloor_lt. rewrite inject_Z_mult. change (inject_Z 8) with 8. lra. }
  lia.
Qed.

Lemma degree1_step_count_witness :
  exists n0 n1,
    num_steps binary64_div 7 (timestep P0 3) = Some n0 /\
    num_steps binary64_div 7 (timestep P1 3) = Some n1 /\
    (8 * (n0 - 1) < n1 <= 8 * n0)%Z.
Proof.
  destruct (degree1_step_count binary64_div 7 3) as (n0 & n1 & H1 & H2 & _ & H4).
  - discriminate.
  - reflexivity.
  - eexists. split; [vm_compute; reflexivity|]. split; vm_compute; discriminate.
  - intros q0 Hq0. vm_compute in Hq0. injection Hq0 as <-.
    eexists. split; [vm_compute; reflexivity|]. vm_compute. reflexivity.
  - exists n0, n1. repeat split; try assumption; apply H4.
Defined.

(** ** Polynomials: derivative, integral and the stiffness matrix *)

Lemma inject_S_nonzero (k : nat) : ~ inject_Z (Z.of_nat (S k)) == 0.
Proof.
  intros H. assert (Hlt : 0 < inject_Z (Z.of_nat (S k))).
  { change 0 with (inject_Z 0). rewrite <- Zlt_Qlt. lia. }
  rewrite H in Hlt. discriminate Hlt.
Qed.

Lemma coef_nil_zero (j : nat) : coef [] j == 0.
Proof. rewrite coef_nil. reflexivity. Qed.

Lemma integrate_from_padd (p q : poly) (k : nat) :
  integrate_from k (padd p q) == integrate_from k p + integrate_from k q.
Proof.
  revert q k. induction p as [|a p IH]; intros q k.
  - simpl. ring.
  - destruct q as [|b q]; simpl.
    + ring.
    + rewrite IH. field. apply inject_S_nonzero.
Qed.

Lemma integrate_from_pscale (c : Q) (p : poly) (k : nat) :
  integrate_from k (pscale c p) == c * integrate_from k p.
Proof.
  revert k. induction p as [|a p IH]; intros k; simpl.
  - ring.
  - rewrite IH. field. apply inject_S_nonzero.
Qed.

Lemma integrate_from_shift (p : poly) (k : nat) :
  integrate_from k (0 :: p) == integrate_from (S k) p.
Proof. simpl. field. apply inject_S_nonzero. Qed.

Lemma integrate_from_pmul (a : Q) (p q : poly) (k : nat) :
  integrate_from k (pmul (a :: p) q)
  == a * integrate_from k q + integrate_from (S k) (pmul p q).
Proof.
  simpl pmul.
  rewrite integrate_from_padd, integrate_from_pscale, integrate_from_shift.
  reflexivity.
Qed.

Lemma integrate_from_pmul_nil (p : poly) (k : nat) :
  integrate_from k (pmul p []) == 0.
Proof.
  revert k. induction p as [|a p IH]; intros k.
  - reflexivity.
  - rewrite integrate_from_pmul, IH. simpl. ring.
Qed.

(** The integral of a product does not depend on the order of the
    factors. *)
Lemma integrate_from_pmul_comm (p q : poly) (k : nat) :
  integrate_from k (pmul p q) == integrate_from k (pmul q p).
Proof.
  remember (length p + length q)%nat as n eqn:Hn.
  assert (Hle : (length p + length q <= n)%nat) by lia. clear Hn.
  revert p q k Hle. induction n as [|n IH]; intros p q k Hle.
  - destruct p, q; simpl in Hle; try lia. reflexivity.
  - destruct p as [|a p].
    + simpl pmul at 1. rewrite integrate_from_pmul_nil. reflexivity.
    + destruct q as [|b q].
      * simpl pmul at 2. rewrite integrate_from_pmul_nil. reflexivity.
      * simpl in Hle.
        rewrite (integrate_from_pmul a p (b :: q)).
        rewrite (integrate_from_pmul b q (a :: p)).
        rewrite (IH p (b :: q) (S k)) by (simpl; lia).
        rewrite (IH q (a :: p) (S k)) by (simpl; lia).
        rewrite (integrate_from_pmul b q p), (integrate_from_pmul a p q).
        rewrite (IH p q (S (S k))) by lia.
        simpl integrate_from. field. apply inject_S_nonzero.
Qed.

Lemma integrate_from_pmul_padd (p q r : poly) (k : nat) :
  integrate_from k (pmul p (padd q r))
  == integrate_from k (pmul p q) + integrate_from k (pmul p r).
Proof.
  revert k. induction p as [|a p IH]; intros k.
  - simpl. ring.
  - rewrite !integrate_from_pmul, integrate_from_padd, IH. ring.
Qed.

Lemma integrate_from_zero (p : poly) (k : nat) :
  (forall j, coef p j == 0) -> integrate_from k p == 0.
Proof.
  revert k. induction p as [|a p IH]; intros k Hp; simpl.
  - reflexivity.
  - rewrite (IH (S k)) by (intros j; apply (Hp (S j))).
    pose proof (Hp 0%nat) as H0. unfold coef in H0. simpl in H0. rewrite H0.
    field. apply inject_S_nonzero.
Qed.

Lemma integrate_from_ext (p q : poly) (k : nat) :
  peq p q -> integrate_from k p == integrate_from k q.
Proof.
  revert q k. induction p as [|a p IH]; intros q k Hpq.
  - symmetry. apply integrate_from_zero. intros j.
    rewrite <- (Hpq j). apply coef_nil_zero.
  - destruct q as [|b q].
    + apply integrate_from_zero. intros j. rewrite (Hpq j).
      apply coef_nil_zero.
    + simpl. rewrite (IH q (S k)) by (intros j; apply (Hpq (S j))).
      pose proof (Hpq 0%nat) as H0. unfold coef in H0. simpl in H0. rewrite H0.
      reflexivity.
Qed.

Lemma integrate_from_pmul_ext (p q q' : poly) (k : nat) :
  peq q q' -> integrate_from k (pmul p q) == integrate_from k (pmul p q').
Proof.
  intros Hq. revert k. induction p as [|a p IH]; intros k.
  - reflexivity.
  - rewrite !integrate_from_pmul, (integrate_from_ext q q' k Hq), IH.
    reflexivity.
Qed.

Lemma integrate_pmul_psum (d : poly) (ps : list poly) :
  sum_over (fun q => integrate (pmul d q)) ps == integrate (pmul d (psum ps)).
Proof.
  unfold integrate. induction ps as [|q ps IH]; simpl.
  - rewrite integrate_from_pmul_nil. reflexivity.
  - rewrite integrate_from_pmul_padd, IH. reflexivity.
Qed.

Lemma coef_cons_S (a : Q) (p : poly) (k : nat) : coef (a :: p) (S k) = coef p k.
Proof. reflexivity. Qed.

Lemma coef_padd (p q : poly) (k : nat) :
  coef (padd p q) k == coef p k + coef q k.
Proof.
  revert q k. induction p as [|a p IH]; intros q k.
  - simpl. rewrite coef_nil. ring.
  - destruct q as [|b q].
    + simpl. rewrite coef_nil. ring.
    + destruct k as [|k].
      * reflexivity.
      * simpl padd. rewrite !coef_cons_S. apply IH.
Qed.

Lemma coef_diff_from (n : nat) (p : poly) (k : nat) :
  coef (diff_from n p) k == inject_Z (Z.of_nat (n + k)) * coef p k.
Proof.
  revert n k. induction p as [|a p IH]; intros n k.
  - simpl. rewrite coef_nil. ring.
  - destruct k as [|k].
    + simpl. rewrite Nat.add_0_r. reflexivity.
    + simpl diff_from. rewrite !coef_cons_S, IH.
      replace (S n + k)%nat with (n + S k)%nat by lia. reflexivity.
Qed.

Lemma coef_diff (p : poly) (k : nat) :
  coef (diff p) k == inject_Z (Z.of_nat (S k)) * coef p (S k).
Proof.
  destruct p as [|a p].
  - simpl. rewrite !coef_nil. ring.
  - simpl diff. rewrite coef_diff_from, coef_cons_S. reflexivity.
Qed.

Lemma diff_psum (ps : list poly) : peq (diff (psum ps)) (psum (map diff ps)).
Proof.
  induction ps as [|q ps IH]; intros k.
  - reflexivity.
  - simpl psum. rewrite coef_diff, !coef_padd, <- (IH k), !coef_diff. ring.
Qed.

(** X19. The derivative and the integral.  For every polynomial the
    integral over [0, 1] of its derivative is its value at 1 minus its
    value at 0. *)
Theorem integrate_diff (p : poly) :
  integrate (diff p) == subs p 1 - subs p 0.
Proof.
  assert (Hgen : forall q k, integrate_from k (diff_from (S k) q) == subs q 1).
  { induction q as [|a q IH]; intros k; simpl.
    - reflexivity.
    - rewrite IH. field. apply inject_S_nonzero. }
  destruct p as [|a p]; unfold integrate; simpl.
  - ring.
  - rewrite Hgen. ring.
Qed.

(** X20. Symmetry of the stiffness matrix.  For at most three shape
    functions the array is filled, its entry [i, j] is the integral of the
    product of the derivatives of the shape functions [i] and [j], and it
    equals the entry [j, i]. *)
Theorem stiffness_symmetric (shapes : list poly) (i j : nat) :
  (length shapes <= 3)%nat ->
  exists A,
    stiffness shapes = Some A /\
    entry A i j == entry A j i /\
    ((i < length shapes)%nat -> (j < length shapes)%nat ->
     entry A i j == stiffness_entry (nth i shapes []) (nth j shapes [])).
Proof.
  intros Hlen. unfold stiffness.
  replace (3 <? length shapes)%nat with false
    by (symmetry; apply Nat.ltb_ge; exact Hlen).
  eexists. split; [reflexivity|].
  assert (Hentry : forall a b, (a < 3)%nat -> (b < 3)%nat ->
            entry (map (fun i0 => map (fun j0 =>
                     match nth_error shapes i0, nth_error shapes j0 with
                     | Some phi_i, Some phi_j => stiffness_entry phi_i phi_j
                     | _, _ => 0
                     end) (seq 0 3)) (seq 0 3)) a b
            = match nth_error shapes a, nth_error shapes b with
              | Some phi_i, Some phi_j => stiffness_entry phi_i phi_j
              | _, _ => 0
              end).
  { intros a b Ha Hb.
    destruct a as [|[|[|a]]]; try lia; destruct b as [|[|[|b]]]; try lia;
      reflexivity. }
  assert (Hout : forall a b, (3 <= a)%nat \/ (3 <= b)%nat ->
            entry (map (fun i0 => map (fun j0 =>
                     match nth_error shapes i0, nth_error shapes j0 with
                     | Some phi_i, Some phi_j => stiffness_entry phi_i phi_j
                     | _, _ => 0
                     end) (seq 0 3)) (seq 0 3)) a b = 0).
  { intros a b Hab. unfold entry.
    destruct (Nat.lt_ge_cases a 3) as [Ha|Ha].
    - assert (Hb : (3 <= b)%nat) by lia.
      destruct a as [|[|[|a]]]; try lia; simpl nth; unfold coef;
        apply nth_overflow; simpl; exact Hb.
    - rewrite nth_overflow by (simpl; exact Ha). apply coef_nil. }
  split.
  - destruct (Nat.lt_ge_cases i 3) as [Hi|Hi], (Nat.lt_ge_cases j 3) as [Hj|Hj].
    + rewrite (Hentry i j Hi Hj), (Hentry j i Hj Hi).
      destruct (nth_error shapes i) as [phi_i|], (nth_error shapes j) as [phi_j|];
        try reflexivity.
      unfold stiffness_entry, integrate. apply integrate_from_pmul_comm.
    + rewrite !Hout by lia. reflexivity.
    + rewrite !Hout by lia. reflexivity.
    + rewrite !Hout by lia. reflexivity.
  - intros Hi Hj. rewrite Hentry by lia.
    rewrite (nth_error_nth' shapes [] Hi), (nth_error_nth' shapes [] Hj).
    reflexivity.
Qed.

Lemma stiffness_symmetric_witness :
  exists A,
    stiffness shape_functions = Some A /\ entry A 0 2 == entry A 2 0.
Proof.
  destruct (stiffness_symmetric shape_functions 0 2) as (A & HA & Hsym & _).
  - simpl. lia.
  - exists A. split; [exact HA | exact Hsym].
Defined.

Lemma sum_over_nth_error {A : Type} (f : A -> Q) (l : list A) (n : nat) :
  (length l <= n)%nat ->
  sum_over (fun j => match nth_error l j with Some a => f a | None => 0 end) (seq 0 n)
  == sum_over f l.
Proof.
  revert n. induction l as [|a l IH]; intros n Hn.
  - apply sum_over_zero. intros j _. destruct j; reflexivity.
  - destruct n as [|n]; [simpl in Hn; lia|].
    simpl seq. rewrite <- seq_shift. simpl sum_over at 1. rewrite sum_over_map.
    simpl nth_error. rewrite IH by (simpl in Hn; lia). reflexivity.
Qed.

Lemma stiffness_entries (shapes : list poly) (A : list (list Q)) (a b : nat) :
  stiffness shapes = Some A -> (a < 3)%nat -> (b < 3)%nat ->
  entry A a b
  = match nth_error shapes a, nth_error shapes b with
    | Some phi_i, Some phi_j => stiffness_entry phi_i phi_j
    | _, _ => 0
    end.
Proof.
  unfold stiffness. destruct (3 <? length shapes)%nat; [discriminate|].
  intros HA Ha Hb. injection HA as <-.
  destruct a as [|[|[|a]]]; try lia; destruct b as [|[|[|b]]]; try lia;
    reflexivity.
Qed.

(** X21. Constants are in the kernel of the stiffness matrix.  When at
    most three shape functions add up to a constant, as the quadratic
    shape functions of the notebook do, every row of the array adds up to
    zero. *)
Theorem stiffness_rows_sum_zero (shapes : list poly) (c : Q) (i : nat) :
  (length shapes <= 3)%nat -> peq (psum shapes) (const c) ->
  exists A,
    stiffness shapes = Some A /\
    sum_over (fun j => entry A i j) (seq 0 3) == 0.
Proof.
  intros Hlen Hsum.
  destruct (stiffness shapes) as [A|] eqn:HA.
  2:{ unfold stiffness in HA.
      replace (3 <? length shapes)%nat with false in HA
        by (symmetry; apply Nat.ltb_ge; exact Hlen).
      discriminate. }
  exists A. split; [reflexivity|].
  destruct (Nat.lt_ge_cases i 3) as [Hi|Hi].
  - destruct (nth_error shapes i) as [phi_i|] eqn:Ei.
    + rewrite (sum_over_ext _
                 (fun j => match nth_error shapes j with
                           | Some phi_j => stiffness_entry phi_i phi_j
                           | None => 0
                           end)).
      * rewrite (sum_over_nth_error (stiffness_entry phi_i) shapes 3 Hlen).
        unfold stiffness_entry.
        rewrite <- (sum_over_map diff (fun q => integrate (pmul (diff phi_i) q))).
        rewrite integrate_pmul_psum. unfold integrate.
        rewrite (integrate_from_pmul_ext _ _ [] 0).
        -- apply integrate_from_pmul_nil.
        -- intros k. rewrite <- (diff_psum shapes k), coef_diff, (Hsum (S k)).
           unfold const. rewrite coef_cons_S, !coef_nil. ring.
      * intros j Hj. apply in_seq in Hj.
        rewrite (stiffness_entries shapes A i j HA Hi) by lia.
        rewrite Ei. reflexivity.
    + apply sum_over_zero. intros j Hj. apply in_seq in Hj.
      rewrite (stiffness_entries shapes A i j HA Hi) by lia.
      rewrite Ei. reflexivity.
  - apply sum_over_zero. intros j _. unfold entry.
    assert (Hlen3 : length A = 3%nat).
    { unfold stiffness in HA. destruct (3 <? length shapes)%nat; [discriminate|].
      injection HA as <-. reflexivity. }
    rewrite nth_overflow by lia. rewrite coef_nil. reflexivity.
Qed.

Lemma shape_functions_sum : peq (psum shape_functions) (const 1).
Proof.
  intros k. destruct k as [|[|[|k]]]; try (vm_compute; reflexivity).
  unfold coef. rewrite !nth_overflow by (simpl; lia). reflexivity.
Qed.

Lemma stiffness_rows_sum_zero_witness :
  exists A,
    stiffness shape_functions = Some A /\
    sum_over (fun j => entry A 1 j) (seq 0 3) == 0.
Proof.
  apply (stiffness_rows_sum_zero shape_functions 1 1).
  - simpl. lia.
  - exact shape_functions_sum.
Defined.

(** X22. The quadratic shape functions.  The three shape functions of the
    notebook take the value 1 at their own node and 0 at the two others,
    the nodes being 0, 1/2 and 1, they add up to 1, and the array the
    loops fill is (1/3) [[7, -8, 1], [-8, 16, -8], [1, -8, 7]]. *)
Theorem shape_functions_lagrange (i j : nat) :
  (i < 3)%nat -> (j < 3)%nat ->
  subs (nth i shape_functions []) (nth j [0; 1 # 2; 1] 0)
  == (if Nat.eqb i j then 1 else 0) /\
  peq (psum shape_functions) (const 1) /\
  exists A,
    stiffness shape_functions = Some A /\
    entry A i j
    == entry [[7 # 3; -8 # 3; 1 # 3]; [-8 # 3; 16 # 3; -8 # 3];
              [1 # 3; -8 # 3; 7 # 3]] i j.
Proof.
  intros Hi Hj. split; [|split; [exact shape_functions_sum|]].
  - destruct i as [|[|[|i]]]; try lia; destruct j as [|[|[|j]]]; try lia;
      vm_compute; reflexivity.
  - eexists. split; [reflexivity|].
    destruct i as [|[|[|i]]]; try lia; destruct j as [|[|[|j]]]; try lia;
      vm_compute; reflexivity.
Qed.

Lemma shape_functions_lagrange_witness :
  subs (nth 1 shape_functions []) (1 # 2) == 1 /\
  subs (nth 1 shape_functions []) 1 == 0.
Proof.
  split.
  - exact (proj1 (shape_functions_lagrange 1 1 ltac:(lia) ltac:(lia))).
  - exact (proj1 (shape_functions_lagrange 1 2 ltac:(lia) ltac:(lia))).
Defined.

(** ** Superposition *)

Lemma eval_vscale (n : nat) (c : Q) (h phi : list Q) :
  eval n (vscale n c h) phi == c * eval n h phi.
Proof.
  unfold eval. rewrite <- sum_over_scal_l. apply sum_over_ext.
  intros j Hj. unfold vscale. rewrite coef_map_dofs by (apply in_dofs; exact Hj).
  ring.
Qed.

(** The field [a * g + b * h]. *)
Lemma eval_combination (n : nat) (a b : Q) (g h phi : list Q) :
  eval n (vadd n (vscale n a g) (vscale n b h)) phi
  == a * eval n g phi + b * eval n h phi.
Proof. rewrite eval_vadd, !eval_vscale. reflexivity. Qed.

(** X23. Superposition.  The rate of change is linear in the pair of the
    prescribed inflow field and the state, in both parts of the notebook:
    the rate for [a * g + b * h] (with inflow [a * g_in + b * h_in]) is
    [a] times the rate for [g] plus [b] times the rate for [h]; in
    particular the zero state with zero inflow is at rest. *)
Theorem dh_dt_linear (V : FunctionSpace) (deg : degree) (a b : Q)
    (g_in g h_in h : list Q) (i : nat) :
  dh_dt V deg
    (vadd (dim V) (vscale (dim V) a g_in) (vscale (dim V) b h_in))
    (vadd (dim V) (vscale (dim V) a g) (vscale (dim V) b h)) i
  == a * dh_dt V deg g_in g i + b * dh_dt V deg h_in h i.
Proof.
  assert (Hedge : edge_flux V (vadd (dim V) (vscale (dim V) a g)
                                 (vscale (dim V) b h)) i
                  == a * edge_flux V g i + b * edge_flux V h i).
  { unfold edge_flux. rewrite <- !sum_over_scal_l, <- sum_over_plus.
    apply sum_over_ext. intros p _.
    unfold edge_flux_integrand, F_plus, F_minus, F.
    rewrite !eval_combination. ring. }
  assert (Hin : in_flux V (vadd (dim V) (vscale (dim V) a g_in)
                             (vscale (dim V) b h_in)) i
                == a * in_flux V g_in i + b * in_flux V h_in i).
  { unfold in_flux. rewrite <- !sum_over_scal_l, <- sum_over_plus.
    apply sum_over_ext. intros p _.
    unfold in_flux_integrand. rewrite eval_combination. ring. }
  assert (Hout : out_flux V (vadd (dim V) (vscale (dim V) a g)
                               (vscale (dim V) b h)) i
                 == a * out_flux V g i + b * out_flux V h i).
  { unfold out_flux. rewrite <- !sum_over_scal_l, <- sum_over_plus.
    apply sum_over_ext. intros p _.
    unfold out_flux_integrand. rewrite eval_combination. ring. }
  assert (Hcell : cell_flux V (vadd (dim V) (vscale (dim V) a g)
                                 (vscale (dim V) b h)) i
                  == a * cell_flux V g i + b * cell_flux V h i).
  { unfold cell_flux. rewrite <- !sum_over_scal_l, <- sum_over_plus.
    apply sum_over_ext. intros p _.
    unfold cell_flux_integrand. rewrite eval_combination. ring. }
  destruct deg; unfold dh_dt; rewrite Hedge, Hin, Hout; try rewrite Hcell; ring.
Qed.
